(** * Hermes: telemetry pipeline and streaming transfer engine

    A shallow embedding of the Go sources of the Hermes storage manager
    (internal/logging, internal/api, internal/db, internal/s3,
    internal/config) and the properties of its event log store, trace
    store, aggregator, transfer engine, configuration and role mapping.

    Conventions.  A Go [int]/[int64] is a [Z]; every index computed by the
    code stays far inside the 64-bit range, so no wrap-around is written.
    A [float64] is a primitive binary64 [float].  [time.Time] is a [Z]
    (nanoseconds, or seconds where the code calls [Unix()]).  A
    [map[string]any] is a [gmap string any]; a nil map and an empty map read
    the same and are both [∅].  Global variables guarded by mutexes become
    fields of an explicit store record threaded through the calls.  Where
    the code walks a string rune by rune, the string is the list of its
    runes (code points as [Z]). *)

From Stdlib Require Import ZArith List Lia Bool Permutation Sorted Floats.
From Stdlib Require Import DecimalString DecimalN.
From stdpp Require Import gmap strings list.

Local Open Scope Z_scope.

(** ** Dynamically typed values ([any]) *)

Inductive any : Type :=
| ANil
| ABool (b : bool)
| AInt (n : Z)
| AInt64 (n : Z)
| AFloat64 (f : float)
| AStr (s : string)
| AErr (s : string).

(** [order[k]] on a Go map literal: a missing key reads as the zero value. *)
Definition map_index_int (m : list (string * Z)) (k : string) : Z :=
  match List.find (fun kv => String.eqb (fst kv) k) m with
  | Some kv => snd kv
  | None => 0
  end.

(** ** internal/logging/logging.go *)

Module Logging.

Record entry : Type := mkEntry {
  Time : Z;
  Level : string;
  Msg : string;
  Fields : gmap string any
}.

(** A subscriber channel is [make(chan *entry, 100)]: a queue that holds
    at most [chan_cap] undelivered entries. *)
Definition chan_cap : nat := 100.

(** The package-level [var ( ... )] block.  [persistFn] is the registered
    callback, named by a handle; [spawned] records every [go fn(e)]
    started so far, [stdout] every line handed to [log.Println]. *)
Record store : Type := mkStore {
  recent : list (option entry);
  nextIdx : Z;
  logLevel : string;
  subscribers : gmap nat (list entry);
  persistFn : option nat;
  spawned : list (nat * entry);
  stdout : list (bool * entry)
}.

Definition ring_len : nat := 1000.

Definition init : store :=
  {| recent := replicate ring_len None;
     nextIdx := 0;
     logLevel := "info";
     subscribers := ∅;
     persistFn := None;
     spawned := [];
     stdout := [] |}.

Definition SetPersist (fn : option nat) (s : store) : store :=
  {| recent := recent s; nextIdx := nextIdx s; logLevel := logLevel s;
     subscribers := subscribers s; persistFn := fn;
     spawned := spawned s; stdout := stdout s |}.

Definition is_level (lvl : string) : bool :=
  String.eqb lvl "debug" || String.eqb lvl "info"
  || String.eqb lvl "error" || String.eqb lvl "fatal".

Definition SetLevel (lvl : string) (s : store) : store :=
  {| recent := recent s; nextIdx := nextIdx s;
     logLevel := if is_level lvl then lvl else "info";
     subscribers := subscribers s; persistFn := persistFn s;
     spawned := spawned s; stdout := stdout s |}.

Definition GetLevel (s : store) : string := logLevel s.

Definition order : list (string * Z) :=
  [("debug", 0); ("info", 1); ("error", 2); ("fatal", 3)].

Definition shouldLog (lvl : string) (s : store) : bool :=
  let cur := map_index_int order (logLevel s) in
  let lv := map_index_int order lvl in
  lv >=? cur.

(** [select { case ch <- e: default: }] on a buffered channel. *)
Definition try_send (e : entry) (q : list entry) : list entry :=
  if (length q <? chan_cap)%nat then q ++ [e] else q.

Definition broadcast (e : entry) (subs : gmap nat (list entry))
  : gmap nat (list entry) :=
  try_send e <$> subs.

(** [recent[nextIdx] = e]: [nextIdx] stays in [0, len(recent)) from [init]
    on, so the slot written always exists. *)
Definition appendBuf (e : entry) (s : store) : store :=
  let len := Z.of_nat (length (recent s)) in
  {| recent := <[Z.to_nat (nextIdx s) := Some e]> (recent s);
     nextIdx := Z.rem (nextIdx s + 1) len;
     logLevel := logLevel s;
     subscribers := broadcast e (subscribers s);
     persistFn := persistFn s;
     spawned := match persistFn s with
                | Some fn => spawned s ++ [(fn, e)]
                | None => spawned s
                end;
     stdout := stdout s |}.

Fixpoint fieldsFromKV_loop (kv : list any) (m : gmap string any)
  : gmap string any :=
  match kv with
  | k :: v :: rest =>
      match k with
      | AStr key => fieldsFromKV_loop rest (<[key := v]> m)
      | _ => fieldsFromKV_loop rest m
      end
  | _ => m
  end.

Definition fieldsFromKV (kv : list any) : gmap string any :=
  match kv with
  | [] => ∅
  | _ => fieldsFromKV_loop kv ∅
  end.

Record stdLogger : Type := { json : bool }.

Definition println (l : stdLogger) (e : entry) (s : store) : store :=
  {| recent := recent s; nextIdx := nextIdx s; logLevel := logLevel s;
     subscribers := subscribers s; persistFn := persistFn s;
     spawned := spawned s; stdout := stdout s ++ [(json l, e)] |}.

(** [now] is the value [time.Now()] returns during the call. *)
Definition write (l : stdLogger) (now : Z) (level msg : string)
           (kv : list any) (s : store) : store :=
  if negb (shouldLog level s) then s
  else
    let e := {| Time := now; Level := level; Msg := msg;
                Fields := fieldsFromKV kv |} in
    println l e (appendBuf e s).

Fixpoint Recent_loop (buf : list (option entry)) (n : Z) (fuel : nat)
         (i : Z) (out : list entry) : list entry :=
  match fuel with
  | O => out
  | S fuel' =>
      if Z.of_nat (length out) <? n then
        let out' := match buf !! Z.to_nat i with
                    | Some (Some e) => out ++ [e]
                    | _ => out
                    end in
        let len := Z.of_nat (length buf) in
        Recent_loop buf n fuel' (Z.rem (i - 1 + len) len) out'
      else out
  end.

Definition Recent (n : Z) (s : store) : list entry :=
  let len := Z.of_nat (length (recent s)) in
  let n := if (n <=? 0) || (n >? len) then len else n in
  Recent_loop (recent s) n (length (recent s))
              (Z.rem (nextIdx s - 1 + len) len) [].

(** [Subscribe] allocates a fresh channel; [cancel] removes and closes it. *)
Definition Subscribe (s : store) : nat * store :=
  let ch := fresh (dom (subscribers s)) in
  (ch, {| recent := recent s; nextIdx := nextIdx s; logLevel := logLevel s;
          subscribers := <[ch := []]> (subscribers s);
          persistFn := persistFn s;
          spawned := spawned s; stdout := stdout s |}).

Definition cancel (ch : nat) (s : store) : store :=
  {| recent := recent s; nextIdx := nextIdx s; logLevel := logLevel s;
     subscribers := delete ch (subscribers s);
     persistFn := persistFn s;
     spawned := spawned s; stdout := stdout s |}.

(** One call to [write] as data, and a run of calls on one logger. *)
Record call : Type := mkCall {
  c_now : Z; c_level : string; c_msg : string; c_kv : list any
}.

Definition entry_of (c : call) : entry :=
  {| Time := c_now c; Level := c_level c; Msg := c_msg c;
     Fields := fieldsFromKV (c_kv c) |}.

Definition write_call (l : stdLogger) (s : store) (c : call) : store :=
  write l (c_now c) (c_level c) (c_msg c) (c_kv c) s.

Definition writes (l : stdLogger) (cs : list call) (s : store) : store :=
  fold_left (write_call l) cs s.

End Logging.

(** ** Conversions between Go integers and [float64] *)

(** [float64(z)]: the integer rounded to the nearest binary64 value. *)
Definition float_of_Z (z : Z) : float :=
  SF2Prim (binary_normalize prec emax z 0 false).

(** [int(f)]: the fraction is discarded (truncation toward zero).  For NaN,
    an infinity or a value outside the 64-bit range Go leaves the result to
    the platform; amd64 yields the smallest [int64], which is what is
    written here. *)
Definition int_of_float (f : float) : Z :=
  match Prim2SF f with
  | S754_zero _ => 0
  | S754_finite s m e =>
      let a := if 0 <=? e then Z.pos m * 2 ^ e else Z.pos m / 2 ^ (- e) in
      let v := if s then - a else a in
      if (- 2 ^ 63 <=? v) && (v <? 2 ^ 63) then v else - 2 ^ 63
  | _ => - 2 ^ 63
  end.

(** ** internal/models/models.go: persistent observability rows *)

Module Models.

Record TraceRow : Type := mkTraceRow {
  ID : string;
  Method : string;
  Path : string;
  Status : Z;
  UserEmail : string;
  UserRole : string;
  UserAgent : string;
  RemoteIP : string;
  ReqBytes : Z;
  RespBytes : Z;
  Started : Z;
  Ended : Z;
  DurationNs : Z
}.

Record TraceEventRow : Type := mkTraceEventRow {
  TraceID : string;
  EvTime : Z;
  Name : string;
  EvFields : string
}.

End Models.

(** ** The aggregator: [obsSummary] *)

Module Obs.
Import Models.

(** One JSON object under construction: [map[string]any]. *)
Abbreviation item := (gmap string any).

(** [v.(float64)] and [v.(int64)] on a map read; [None] is the panic of a
    failed assertion (a missing key reads as the nil interface). *)
Definition as_float64 (v : option any) : option float :=
  match v with Some (AFloat64 f) => Some f | _ => None end.

Definition as_int64 (v : option any) : option Z :=
  match v with Some (AInt64 n) => Some n | _ => None end.

(** *** The [percentile] closure *)

(** Inner loop [for j >= 0 && vv[j] > x { vv[j+1] = vv[j]; j-- }], entered
    with [j1 = j + 1]; returns the array and the final [j + 1]. *)
Fixpoint shift_loop (x : float) (j1 : nat) (vv : list float)
  : list float * nat :=
  match j1 with
  | O => (vv, O)
  | S j =>
      match vv !! j with
      | Some y =>
          if (x <? y)%float then shift_loop x j (<[S j := y]> vv)
          else (vv, S j)
      | None => (vv, S j)
      end
  end.

(** Body of [for i := 1; i < len(vv); i++]. *)
Definition insert_step (vv : list float) (i : nat) : list float :=
  match vv !! i with
  | Some x => let '(vv', j1) := shift_loop x i vv in <[j1 := x]> vv'
  | None => vv
  end.

Definition simple_sort (vals : list float) : list float :=
  fold_left insert_step (seq 1 (length vals - 1)) vals.

Definition percentile_index (len : Z) (p : float) : Z :=
  let idx := int_of_float (p / 100 * float_of_Z (len - 1))%float in
  let idx := if idx <? 0 then 0 else idx in
  if idx >=? len then len - 1 else idx.

Definition percentile (vals : list float) (p : float) : float :=
  match vals with
  | [] => 0%float
  | _ =>
      let vv := simple_sort vals in
      nth (Z.to_nat (percentile_index (Z.of_nat (length vv)) p)) vv 0%float
  end.

(** *** Selection sort, as written twice in [obsSummary]

    [better kj kmi] is the test that moves [mi] to [j]; [getk] reads and
    type-asserts the key of an element. *)
Section Selection.
Context {K : Type} (getk : item -> option K) (better : K -> K -> bool).

Fixpoint sel_inner (arr : list item) (js : list nat) (mi : nat)
  : option nat :=
  match js with
  | [] => Some mi
  | j :: js' =>
      kj ← arr !! j ≫= getk;
      kmi ← arr !! mi ≫= getk;
      sel_inner arr js' (if better kj kmi then j else mi)
  end.

Definition swap (arr : list item) (i mi : nat) : list item :=
  match arr !! i, arr !! mi with
  | Some a, Some b => <[mi := a]> (<[i := b]> arr)
  | _, _ => arr
  end.

Fixpoint sel_outer (idxs : list nat) (arr : list item) : option (list item) :=
  match idxs with
  | [] => Some arr
  | i :: idxs' =>
      mi ← sel_inner arr (seq (S i) (length arr - S i)) i;
      sel_outer idxs' (swap arr i mi)
  end.

Definition selection_sort (arr : list item) : option (list item) :=
  sel_outer (seq 0 (length arr)) arr.

End Selection.

(** [sortBy(arr, key)]: descending by [arr[.][key].(float64)]. *)
Definition sortBy (arr : list item) (key : string) : option (list item) :=
  selection_sort (fun it => as_float64 (it !! key))
                 (fun kj kmi => (kmi <? kj)%float) arr.

(** The per-minute sort: ascending by [perMinute[.]["ts"].(int64)]. *)
Definition sort_perMinute (arr : list item) : option (list item) :=
  selection_sort (fun it => as_int64 (it !! "ts")) (fun kj kmi => kj <? kmi) arr.

(** *** Aggregation over the window *)

Record bucket : Type := mkBucket { b_Count : Z; b_Errors : Z }.

Record pAgg : Type := mkPAgg {
  Count : Z;
  SumMs : float;
  Lats : list float;
  Errs : Z;
  LastMsg : string;
  LastStatus : Z;
  SampleID : string
}.

Definition pAgg_zero : pAgg := mkPAgg 0 0%float [] 0 "" 0 "".

Definition minute_ns : Z := 60 * 1000000000.

(** [t.Truncate(time.Minute).Unix()] for a time given in nanoseconds. *)
Definition minute_unix (t : Z) : Z := t / minute_ns * 60.

Definition seed_buckets (now : Z) : gmap Z bucket :=
  fold_left (fun bs i => <[minute_unix (now - i * minute_ns) := mkBucket 0 0]> bs)
            (map Z.of_nat (seq 0 12)) ∅.

Definition ms_of (durationNs : Z) : float :=
  let ms := (float_of_Z durationNs / 1000000)%float in
  if (ms <? 0)%float then 0%float else ms.

Definition status_key (s : Z) : string :=
  if s >=? 500 then "5xx"
  else if s >=? 400 then "4xx"
  else if s >=? 300 then "3xx"
  else "2xx".

Record agg : Type := mkAgg {
  lat : list float;
  statusCounts : gmap string Z;
  buckets : gmap Z bucket;
  paths : gmap string pAgg
}.

Definition agg_init (now : Z) : agg :=
  {| lat := [];
     statusCounts := <["5xx" := 0]> (<["4xx" := 0]> (<["3xx" := 0]> {["2xx" := 0]}));
     buckets := seed_buckets now;
     paths := ∅ |}.

(** [error_message id] is what the events-table lookup yields for trace
    [id]: [Some v] when a row is found whose fields decode to a string
    ["message"], [None] when the query or the decoding comes back empty. *)
Definition agg_step (error_message : string -> option string)
           (a : agg) (t : TraceRow) : agg :=
  let ms := ms_of (DurationNs t) in
  let sKey := status_key (Status t) in
  let m := minute_unix (Started t) in
  let pa := default pAgg_zero (paths a !! Path t) in
  let pa :=
    {| Count := Count pa + 1;
       SumMs := (SumMs pa + ms)%float;
       Lats := if (length (Lats pa) <? 100)%nat then Lats pa ++ [ms]
               else Lats pa;
       Errs := Errs pa; LastMsg := LastMsg pa;
       LastStatus := LastStatus pa; SampleID := SampleID pa |} in
  let pa :=
    if Status t >=? 400 then
      {| Count := Count pa; SumMs := SumMs pa; Lats := Lats pa;
         Errs := Errs pa + 1;
         LastMsg := default (LastMsg pa) (error_message (ID t));
         LastStatus := Status t;
         SampleID := if String.eqb (SampleID pa) "" then ID t
                     else SampleID pa |}
    else pa in
  {| lat := lat a ++ [ms];
     statusCounts :=
       <[sKey := default 0 (statusCounts a !! sKey) + 1]> (statusCounts a);
     buckets :=
       match buckets a !! m with
       | Some b =>
           <[m := mkBucket (b_Count b + 1)
                           (if Status t >=? 400 then b_Errors b + 1
                            else b_Errors b)]> (buckets a)
       | None => buckets a
       end;
     paths := <[Path t := pa]> (paths a) |}.

Definition aggregate (error_message : string -> option string) (now : Z)
           (trs : list TraceRow) : agg :=
  fold_left (agg_step error_message) trs (agg_init now).

(** *** Building the ranked lists *)

Definition slow_item (path : string) (ag : pAgg) : item :=
  <["p95Ms" := AFloat64 (percentile (Lats ag) 95)]>
  (<["avgMs" := AFloat64 (SumMs ag / float_of_Z (Count ag))%float]>
  (<["count" := AInt (Count ag)]>
  {["path" := AStr path]})).

Definition error_item (path : string) (ag : pAgg) : item :=
  <["sampleTraceId" := AStr (SampleID ag)]>
  (<["lastStatus" := AInt (LastStatus ag)]>
  (<["lastMessage" := AStr (LastMsg ag)]>
  (<["count" := AInt (Errs ag)]>
  {["path" := AStr path]}))).

(** [for path, ag := range paths { ... }] along one iteration order. *)
Fixpoint collect (it : list (string * pAgg)) (topSlow topErrors : list item)
  : list item * list item :=
  match it with
  | [] => (topSlow, topErrors)
  | (path, ag) :: rest =>
      if Count ag =? 0 then collect rest topSlow topErrors
      else
        let topSlow := if Count ag >=? 3 then topSlow ++ [slow_item path ag]
                       else topSlow in
        let topErrors := if Errs ag >? 0 then topErrors ++ [error_item path ag]
                         else topErrors in
        collect rest topSlow topErrors
  end.

(** [if c, ok := it["count"].(int); ok { it["count"] = float64(c) }] *)
Definition normalize_count (it : item) : item :=
  match it !! "count" with
  | Some (AInt c) => <["count" := AFloat64 (float_of_Z c)]> it
  | _ => it
  end.

Definition minute_item (tb : Z * bucket) : item :=
  <["errors" := AInt (b_Errors (snd tb))]>
  (<["count" := AInt (b_Count (snd tb))]>
  {["ts" := AInt64 (fst tb)]}).

Record summary : Type := mkSummary {
  recentLatencies : list float;
  out_statusCounts : gmap string Z;
  perMinute : list item;
  topSlow : list item;
  topErrors : list item
}.

(** Second half of [obsSummary], run along the iteration orders [pit] of
    [paths] and [bit] of [buckets] that the runtime happens to choose.
    [None] is a panic. *)
Definition render (a : agg) (pit : list (string * pAgg))
           (bit : list (Z * bucket)) : option summary :=
  let '(slow, errs) := collect pit [] [] in
  slow ← sortBy slow "p95Ms";
  let slow := take 5 slow in
  errs ← sortBy (normalize_count <$> errs) "count";
  let errs := take 8 errs in
  pm ← sort_perMinute (minute_item <$> bit);
  Some {| recentLatencies := lat a;
          out_statusCounts := statusCounts a;
          perMinute := pm;
          topSlow := slow;
          topErrors := errs |}.

(** [obsSummary] over the window [trs] (what the query left in the slice:
    empty when it failed) at time [now]: every iteration order of the two
    maps is a possible run. *)
Definition obsSummary (error_message : string -> option string) (now : Z)
           (trs : list TraceRow) (out : option summary) : Prop :=
  let a := aggregate error_message now trs in
  exists pit bit,
    pit ≡ₚ map_to_list (paths a) /\
    bit ≡ₚ map_to_list (buckets a) /\
    out = render a pit bit.

End Obs.

(** ** internal/db: the GORM logger and the durable store *)

Module DB.
Import Models.

(** [gorm.io/gorm/logger] levels: Silent = 1, Error = 2, Warn = 3, Info = 4. *)
Definition Silent : Z := 1.
Definition Error : Z := 2.
Definition Warn : Z := 3.
Definition Info : Z := 4.

Record gormJSONLogger : Type := mkGormLogger {
  l : Logging.stdLogger;
  level : Z
}.

(** The level [Init] derives from [logging.GetLevel()]. *)
Definition init_level (lvl : string) : Z :=
  if String.eqb lvl "debug" then Info
  else if String.eqb lvl "error" || String.eqb lvl "fatal" then Error
  else Warn.

Inductive dberr : Type :=
| ErrRecordNotFound
| ErrOther (msg : string).

Definition err_text (e : dberr) : string :=
  match e with
  | ErrRecordNotFound => "record not found"
  | ErrOther msg => msg
  end.

(** What the environment decides about one statement: its error if any,
    the rows affected, and what the logger then reads from the clock
    ([time.Now()], [time.Since(begin)]) and from the runtime (the caller,
    the [op] and [table] that [summarizeSQL] extracts from the SQL text). *)
Record outcome : Type := mkOutcome {
  o_err : option dberr;
  o_rows : Z;
  o_at : Z;
  o_since : Z;
  o_caller : string;
  o_op : string;
  o_table : string
}.

(** [gormJSONLogger.Trace]: the calls it makes on the structured logger. *)
Definition Trace_calls (g : gormJSONLogger) (o : outcome)
  : list Logging.call :=
  if level g <=? 0 then []
  else
    let fields :=
      [AStr "op"; AStr (o_op o); AStr "table"; AStr (o_table o);
       AStr "rows"; AInt64 (o_rows o);
       AStr "durationMs"; AFloat64 (float_of_Z (o_since o) / 1000000)%float;
       AStr "caller"; AStr (o_caller o);
       AStr "sqlMasked"; ABool true] in
    match o_err o with
    | Some ErrRecordNotFound =>
        if level g >=? Info
        then [Logging.mkCall (o_at o) "debug" "gorm_sql"
                (fields ++ [AStr "notFound"; ABool true])]
        else []
    | Some (ErrOther msg) =>
        let fields := fields ++ [AStr "error"; AStr msg] in
        if level g >=? Error
        then [Logging.mkCall (o_at o) "error" "gorm_sql" fields]
        else if level g >=? Info
        then [Logging.mkCall (o_at o) "debug" "gorm_sql" fields]
        else []
    | None =>
        if level g >=? Info
        then [Logging.mkCall (o_at o) "debug" "gorm_sql" fields]
        else []
    end.

Definition Trace (g : gormJSONLogger) (o : outcome) (s : Logging.store)
  : Logging.store :=
  Logging.writes (l g) (Trace_calls g o) s.

(** A statement handed to the store. *)
Inductive stmt : Type :=
| SaveTrace (row : TraceRow)
| CreateEvent (row : TraceEventRow).

(** [*gorm.DB]: the rows held, the statements received so far, and the
    logger given to [gorm.Open]. *)
Record gormDB : Type := mkDB {
  trace_rows : gmap string TraceRow;
  event_rows : list TraceEventRow;
  received : list stmt;
  Logger : gormJSONLogger
}.

Definition apply_stmt (st : stmt) (db : gormDB) : gormDB :=
  match st with
  | SaveTrace row =>
      {| trace_rows := <[ID row := row]> (trace_rows db);
         event_rows := event_rows db;
         received := received db; Logger := Logger db |}
  | CreateEvent row =>
      {| trace_rows := trace_rows db;
         event_rows := event_rows db ++ [row];
         received := received db; Logger := Logger db |}
  end.

Definition note_stmt (st : stmt) (db : gormDB) : gormDB :=
  {| trace_rows := trace_rows db; event_rows := event_rows db;
     received := received db ++ [st]; Logger := Logger db |}.

(** GORM runs one statement: the store changes only when the statement
    succeeds, and the configured logger's [Trace] is called with the
    statement's error either way.  The returned error is GORM's [.Error]. *)
Definition exec (st : stmt) (o : outcome) (db : gormDB) (logs : Logging.store)
  : gormDB * Logging.store * option dberr :=
  let db := note_stmt st db in
  let db := match o_err o with
            | None => apply_stmt st db
            | Some _ => db
            end in
  (db, Trace (Logger db) o logs, o_err o).

End DB.

(** ** internal/api: traces and the tracing middleware *)

Module Tracing.

Record TraceEvent : Type := mkTraceEvent {
  ev_Time : Z;
  ev_Name : string;
  ev_Fields : gmap string any
}.

(** The [Tags] field of the Go struct is never written and is left out. *)
Record Trace : Type := mkTrace {
  ID : string;
  Method : string;
  Path : string;
  Status : Z;
  UserEmail : string;
  UserRole : string;
  UserAgent : string;
  RemoteIP : string;
  ReqBytes : Z;
  RespBytes : Z;
  Started : Z;
  Ended : Z;
  Duration : Z;
  Events : list TraceEvent
}.

Record traceStore : Type := mkTraceStore {
  buf : list (option Trace);
  next : Z;
  size : Z
}.

Definition traces_init : traceStore :=
  {| buf := replicate 1000 None; next := 0; size := 1000 |}.

Definition add (t : Trace) (s : traceStore) : traceStore :=
  {| buf := <[Z.to_nat (next s) := Some t]> (buf s);
     next := Z.rem (next s + 1) (size s);
     size := size s |}.

Definition with_events (t : Trace) (evs : list TraceEvent) : Trace :=
  mkTrace (ID t) (Method t) (Path t) (Status t) (UserEmail t) (UserRole t)
          (UserAgent t) (RemoteIP t) (ReqBytes t) (RespBytes t) (Started t)
          (Ended t) (Duration t) evs.

(** [addEvent]: appends to the trace found in the request context, if the
    context carries one. *)
Definition addEvent (ctx : option Trace) (now : Z) (name : string)
           (fields : gmap string any) : option Trace :=
  match ctx with
  | Some t => Some (with_events t (Events t ++ [mkTraceEvent now name fields]))
  | None => None
  end.

Definition row_of (t : Trace) : Models.TraceRow :=
  Models.mkTraceRow (ID t) (Method t) (Path t) (Status t) (UserEmail t)
    (UserRole t) (UserAgent t) (RemoteIP t) (ReqBytes t) (RespBytes t)
    (Started t) (Ended t) (Duration t).

Section Persist.
(** [json.Marshal] on an event's fields. *)
Variable marshal : gmap string any -> string.

Definition event_row (t : Trace) (ev : TraceEvent) : Models.TraceEventRow :=
  Models.mkTraceEventRow (ID t) (ev_Time ev) (ev_Name ev)
                         (marshal (ev_Fields ev)).

Definition statements_of (t : Trace) : list DB.stmt :=
  DB.SaveTrace (row_of t) :: map (fun ev => DB.CreateEvent (event_row t ev))
                                 (Events t).

(** The environment's answers to the statements to come; a statement with
    no answer left succeeds silently at time 0. *)
Definition quiet : DB.outcome := DB.mkOutcome None 1 0 0 "" "" "".

Fixpoint run_statements (sts : list DB.stmt) (os : list DB.outcome)
         (db : DB.gormDB) (logs : Logging.store)
  : DB.gormDB * Logging.store :=
  match sts with
  | [] => (db, logs)
  | st :: sts' =>
      let o := hd quiet os in
      (* [_ = db.DB.Save(&row).Error]: the error is dropped *)
      let '(db, logs, _) := DB.exec st o db logs in
      run_statements sts' (tl os) db logs
  end.

(** [persistTrace(t)]; [t == nil] cannot occur at its one call site. *)
Definition persistTrace (t : Trace) (os : list DB.outcome)
           (db : option DB.gormDB) (logs : Logging.store)
  : option DB.gormDB * Logging.store :=
  match db with
  | None => (None, logs)
  | Some db =>
      let '(db, logs) := run_statements (statements_of t) os db logs in
      (Some db, logs)
  end.

(** *** The recorder and the handler *)

(** The [http.ResponseWriter] of net/http under the recorder: the status
    line sent (the first [WriteHeader] wins, a [Write] before any sends
    200) and the bytes of body sent. *)
Record response : Type := mkResponse {
  sent_status : option Z;
  sent_bytes : Z;
  sent_headers : list (string * string)
}.

Record statusRecorder : Type := mkRecorder {
  inner : response;
  code : Z;
  bytes : Z
}.

(** net/http refuses a status outside 100..999 by panicking
    ([checkWriteHeaderCode]). *)
Definition checkWriteHeaderCode (c : Z) : bool := (100 <=? c) && (c <=? 999).

Definition inner_WriteHeader (c : Z) (r : response) : option response :=
  if checkWriteHeaderCode c then
    Some match sent_status r with
         | Some _ => r
         | None => mkResponse (Some c) (sent_bytes r) (sent_headers r)
         end
  else None.

Definition inner_Write (n : Z) (r : response) : response :=
  mkResponse (Some (default 200 (sent_status r))) (sent_bytes r + n)
             (sent_headers r).

(** [None] is a panic. *)
Definition WriteHeader (statusCode : Z) (sr : statusRecorder)
  : option statusRecorder :=
  let sr := mkRecorder (inner sr) statusCode (bytes sr) in
  r ← inner_WriteHeader statusCode (inner sr);
  Some (mkRecorder r (code sr) (bytes sr)).

(** [n] is the count the underlying writer reports for the slice. *)
Definition Write (n : Z) (sr : statusRecorder) : statusRecorder :=
  mkRecorder (inner_Write n (inner sr)) (code sr) (bytes sr + n).

(** A handler, as the calls it makes on the recorder and on the trace of
    its request. *)
Inductive haction : Type :=
| HWriteHeader (statusCode : Z)
| HWrite (n : Z)
| HAddEvent (now : Z) (name : string) (fields : gmap string any)
| HPanic.

Fixpoint ServeHTTP (h : list haction) (rec : statusRecorder) (t : Trace)
  : option (statusRecorder * Trace) :=
  match h with
  | [] => Some (rec, t)
  | HWriteHeader c :: h' => rec ← WriteHeader c rec; ServeHTTP h' rec t
  | HWrite n :: h' => ServeHTTP h' (Write n rec) t
  | HAddEvent now name fields :: h' =>
      ServeHTTP h' rec (default t (addEvent (Some t) now name fields))
  | HPanic :: h' => None
  end.

(** *** The tracing middleware of [Router] *)

Record request : Type := mkRequest {
  r_Method : string;
  r_Path : string;
  r_UserAgent : string;
  r_XForwardedFor : string;
  r_RemoteAddr : string;
  r_ContentLength : Z
}.

Definition wrap64 (x : Z) : Z := x mod 2 ^ 64.

Record counters : Type := mkCounters {
  totalRequests : Z;
  total4xx : Z;
  total5xx : Z;
  bytesIn : Z;
  bytesOut : Z;
  totalDurationNs : Z
}.

Record world : Type := mkWorld {
  logs : Logging.store;
  db : option DB.gormDB;
  traces : traceStore;
  stats : counters
}.

(** Values the middleware reads from outside: the fresh id, the current
    user, the clock at its three reads, and the store's answers. *)
Record inputs : Type := mkInputs {
  i_id : string;
  i_user : option (string * string);
  i_started : Z;
  i_ended : Z;
  i_end_event : Z;
  i_logged : Z;
  i_outcomes : list DB.outcome
}.

(** Lines 49-62 of router.go: the trace as created at request start. *)
Definition begin_trace (r : request) (i : inputs) : Trace :=
  mkTrace (i_id i) (r_Method r) (r_Path r) 0
    (match i_user i with Some u => fst u | None => "" end)
    (match i_user i with Some u => snd u | None => "" end)
    (r_UserAgent r)
    (if String.eqb (r_XForwardedFor r) "" then r_RemoteAddr r
     else r_XForwardedFor r)
    (if r_ContentLength r >? 0 then r_ContentLength r else 0)
    0 (i_started i) 0 0 [].

(** Lines 69-73: the terminal fields, then the [request.end] event. *)
Definition finish (t : Trace) (rec : statusRecorder) (i : inputs) : Trace :=
  let t := mkTrace (ID t) (Method t) (Path t) (code rec) (UserEmail t)
             (UserRole t) (UserAgent t) (RemoteIP t) (ReqBytes t)
             (bytes rec) (Started t) (i_ended i)
             (i_ended i - Started t) (Events t) in
  default t
    (addEvent (Some t) (i_end_event i) "request.end"
       (<["respBytes" := AInt64 (bytes rec)]>
          {["status" := AInt (code rec)]})).

Definition with_trace_headers (w : response) (i : inputs) : response :=
  mkResponse (sent_status w) (sent_bytes w)
    (sent_headers w ++ [("X-Trace-Id", i_id i); ("X-Request-Id", i_id i)]).

Definition count_request (c : counters) : counters :=
  mkCounters (wrap64 (totalRequests c + 1)) (total4xx c) (total5xx c)
             (bytesIn c) (bytesOut c) (totalDurationNs c).

(** Lines 75-86: the observability counters. *)
Definition count_trace (t : Trace) (c : counters) : counters :=
  mkCounters (totalRequests c)
    (if Status t >=? 500 then total4xx c
     else if Status t >=? 400 then wrap64 (total4xx c + 1)
     else total4xx c)
    (if Status t >=? 500 then wrap64 (total5xx c + 1) else total5xx c)
    (if ReqBytes t >? 0 then wrap64 (bytesIn c + wrap64 (ReqBytes t))
     else bytesIn c)
    (if RespBytes t >? 0 then wrap64 (bytesOut c + wrap64 (RespBytes t))
     else bytesOut c)
    (wrap64 (totalDurationNs c + wrap64 (Duration t))).

Definition request_log (t : Trace) : list any :=
  [AStr "method"; AStr (Method t); AStr "path"; AStr (Path t);
   AStr "status"; AInt (Status t);
   AStr "durationMs"; AFloat64 (float_of_Z (Duration t) / 1000000)%float;
   AStr "user"; AStr (UserEmail t); AStr "role"; AStr (UserRole t);
   AStr "traceId"; AStr (ID t);
   AStr "bytesIn"; AInt64 (ReqBytes t);
   AStr "bytesOut"; AInt64 (RespBytes t)].

(** The request counter and the tracing middleware of [Router], around
    the handler [h].  [None] is a panic leaving the middleware: it has no
    [defer], so nothing after [next.ServeHTTP] runs. *)
Definition middleware (logger : Logging.stdLogger) (r : request)
           (i : inputs) (h : list haction) (w : response) (st : world)
  : option (world * response * Trace) :=
  let stats1 := count_request (stats st) in
  let t := begin_trace r i in
  let w := with_trace_headers w i in
  (* the request does not carry the trace yet: this call adds nothing *)
  let _ := addEvent None (i_started i) "request.start"
             (<["path" := AStr (r_Path r)]> {["method" := AStr (r_Method r)]}) in
  let rec := mkRecorder w 200 0 in
  '(rec, t) ← ServeHTTP h rec t;
  let t := finish t rec i in
  let stats2 := count_trace t stats1 in
  let traces' := add t (traces st) in
  let '(db', logs') := persistTrace t (i_outcomes i) (db st) (logs st) in
  let logs'' := Logging.write logger (i_logged i) "info" "http_request"
                  (request_log t) logs' in
  Some (mkWorld logs'' db' traces' stats2, inner rec, t).

End Persist.

End Tracing.

(** ** internal/s3 and the transfer handlers of internal/api *)

Module Transfer.

(** A provider row and what [minio.New] makes of it. *)
Record Provider : Type := mkProvider {
  Endpoint : string;
  p_accepted : bool
}.

(** The object stores behind the endpoints: (endpoint, bucket, key) to
    the bytes of the object. *)
Abbreviation objects := (gmap (string * string * string) string).

Record cloud : Type := mkCloud {
  providers : gmap Z Provider;
  objs : objects
}.

Inductive s3call : Type :=
| StatObject (ep bucket key : string)
| GetObject (ep bucket key : string)
| ObjectStat (ep bucket key : string)
| PutObject (ep bucket key : string)
| RemoveObject (ep bucket key : string).

(** One step of what goes on while [Upload] runs: the uploader reads up to
    [n] more bytes through the tee, or the 300 ms ticker fires. *)
Inductive sched : Type :=
| Chunk (n : Z)
| Tick.

(** The environment's part in one transfer: the error, if any, of each
    storage call, how reads and ticks interleave during the upload, how
    many ticks fire while the source is being deleted, and how many more
    are served after the handler's last frame, before the reporter sees
    [doneCh] closed. *)
Record answers : Type := mkAnswers {
  a_stat : option string;
  a_get : option string;
  a_objstat : option string;
  a_put : option string;
  a_remove : option string;
  a_sched : list sched;
  a_deleting : nat;
  a_late : nat
}.

Abbreviation frame := (gmap string any).

Definition error_frame (msg : string) : frame := {["error" := AStr msg]}.

Definition starting_frame (total : Z) : frame :=
  <["total" := AInt64 total]> {["status" := AStr "starting"]}.

Definition progress_frame (pct transferred total : Z) : frame :=
  <["total" := AInt64 total]>
  (<["bytes" := AInt64 transferred]> {["progress" := AInt pct]}).

Definition done_frame (transferred total : Z) : frame :=
  <["done" := ABool true]>
  (<["total" := AInt64 total]>
  (<["bytes" := AInt64 transferred]> {["progress" := AInt 100]})).

(** The frame the reporter writes on a tick. *)
Definition tick_frame (transferred total : Z) : frame :=
  let pct := if total >? 0
             then int_of_float
                    (float_of_Z transferred / float_of_Z total * 100)%float
             else 0 in
  progress_frame pct transferred total.

Definition size_of (o : string) : Z := Z.of_nat (String.length o).

Definition no_such_key : string := "The specified key does not exist.".

(** [getClient]. *)
Definition getClient (c : cloud) (id : Z) : option string :=
  if id <=? 0 then None
  else match providers c !! id with
       | Some p => if p_accepted p then Some (Endpoint p) else None
       | None => None
       end.

(** [DownloadWithInfo]: the reader (the object it will yield, if there is
    one), the total, or an error; with the storage calls it made. *)
Definition DownloadWithInfo (a : answers) (o : objects)
           (ep bucket key : string)
  : list s3call * (string + option string * Z) :=
  let stat_ok := match a_stat a, o !! (ep, bucket, key) with
                 | None, Some obj => Some (size_of obj)
                 | _, _ => None
                 end in
  match stat_ok with
  | Some size =>
      ([StatObject ep bucket key; GetObject ep bucket key],
       match a_get a with
       | Some err2 => inl err2
       | None => inr (o !! (ep, bucket, key), size)
       end)
  | None =>
      match a_get a with
      | Some err => ([StatObject ep bucket key; GetObject ep bucket key],
                     inl err)
      | None =>
          ([StatObject ep bucket key; GetObject ep bucket key;
            ObjectStat ep bucket key],
           match a_objstat a, o !! (ep, bucket, key) with
           | None, Some obj => inr (Some obj, size_of obj)
           | _, _ => inr (o !! (ep, bucket, key), 0)
           end)
      end
  end.

(** The upload running against the schedule: bytes counted by the tee so
    far, bytes of the source not yet read, frames written by the
    reporter. *)
Fixpoint run_sched (s : list sched) (total transferred remaining : Z)
         (frames : list frame) : Z * Z * list frame :=
  match s with
  | [] => (transferred, remaining, frames)
  | Chunk n :: s' =>
      let k := Z.max 0 (Z.min n remaining) in
      run_sched s' total (transferred + k) (remaining - k) frames
  | Tick :: s' =>
      run_sched s' total transferred remaining
                (frames ++ [tick_frame transferred total])
  end.

(** [dstClient.Upload(..., tee, -1, ct)]: a source object that is not
    there fails the read; otherwise the put fails when the environment says
    so, and else stores every byte of the source. *)
Definition Upload (a : answers) (o : objects) (rc : option string)
           (total : Z) (ep bucket key : string) (frames : list frame)
  : objects * Z * list frame * option string :=
  let size := match rc with Some obj => size_of obj | None => 0 end in
  let '(transferred, remaining, frames) :=
    run_sched (a_sched a) total 0 size frames in
  match rc, a_put a with
  | None, _ => (o, transferred, frames, Some no_such_key)
  | Some _, Some err => (o, transferred, frames, Some err)
  | Some obj, None =>
      (<[(ep, bucket, key) := obj]> o, transferred + remaining, frames, None)
  end.

Definition DeleteObject (a : answers) (o : objects) (ep bucket key : string)
  : objects * option string :=
  match a_remove a with
  | Some err => (o, Some err)
  | None => (delete (ep, bucket, key) o, None)
  end.

Record body : Type := mkBody {
  SrcKey : string;
  DstBucket : string;
  DstKey : string;
  DstProviderID : Z
}.

(** The request as the handler reads it: the [{id}] parameter after
    [strconv.Atoi], the [{name}] parameter, the decoded JSON body or the
    decoder's error. *)
Record request : Type := mkRequest {
  q_id : option Z;
  q_name : string;
  q_body : string + body
}.

Inductive reply : Type :=
| HttpError (code : Z) (msg : string)
| Stream (frames : list frame).

Record result : Type := mkResult {
  r_reply : reply;
  r_objs : objects;
  r_calls : list s3call;
  r_events : list (string * gmap string any)
}.

Definition ticks (n : nat) (transferred total : Z) : list frame :=
  replicate n (tick_frame transferred total).

(** The common body of [copyObject] ([move = false]) and [moveObject]
    ([move = true]), which differ in the deletion step and in the name of
    the closing event. *)
Definition transfer (move : bool) (a : answers) (c : cloud) (q : request)
  : result :=
  let stop rep := mkResult rep (objs c) [] [] in
  match q_id q with
  | None => stop (HttpError 400 "invalid provider id")
  | Some pid =>
  if pid <=? 0 then stop (HttpError 400 "invalid provider id") else
  match q_body q with
  | inl err => stop (HttpError 400 err)
  | inr b =>
  if String.eqb (SrcKey b) "" || String.eqb (DstBucket b) ""
  then stop (HttpError 400 "srcKey and dstBucket are required") else
  let dstKey := if String.eqb (DstKey b) "" then SrcKey b else DstKey b in
  match getClient c pid with
  | None => stop (HttpError 404 "source provider not found")
  | Some srcClient =>
  let dstPid := if DstProviderID b =? 0 then pid else DstProviderID b in
  match getClient c dstPid with
  | None => stop (HttpError 404 "destination provider not found")
  | Some dstClient =>
  let '(calls, dl) :=
    DownloadWithInfo a (objs c) srcClient (q_name q) (SrcKey b) in
  match dl with
  | inl err => mkResult (Stream [error_frame err]) (objs c) calls []
  | inr (rc, total) =>
  let frames := [starting_frame total] in
  let '(o, transferred, frames, err) :=
    Upload a (objs c) rc total dstClient (DstBucket b) dstKey frames in
  let calls := calls ++ [PutObject dstClient (DstBucket b) dstKey] in
  match err with
  | Some err =>
      mkResult (Stream (frames ++ [error_frame err]
                        ++ ticks (a_late a) transferred total))
               o calls []
  | None =>
  let '(o, frames, calls, err) :=
    if move then
      let '(o, err) := DeleteObject a o srcClient (q_name q) (SrcKey b) in
      (o, frames ++ ticks (a_deleting a) transferred total,
       calls ++ [RemoveObject srcClient (q_name q) (SrcKey b)], err)
    else (o, frames, calls, None) in
  match err with
  | Some err =>
      mkResult (Stream (frames ++ [error_frame err]
                        ++ ticks (a_late a) transferred total))
               o calls []
  | None =>
      mkResult (Stream (frames ++ [done_frame transferred total]
                        ++ ticks (a_late a) transferred total))
               o calls
               [(if move then "object.move.end" else "object.copy.end",
                 {["ok" := ABool true]})]
  end end end end end end end.

Definition copyObject : answers -> cloud -> request -> result :=
  transfer false.

Definition moveObject : answers -> cloud -> request -> result :=
  transfer true.

End Transfer.

(** ** internal/logging and internal/api: start-up and the log handlers *)

Module LogAPI.
Import Logging.

(** [logging.New]: [environ] is [os.Getenv] (an unset variable reads as the
    empty string). *)
Definition New (environ : string -> string) (s : store) : stdLogger * store :=
  let lvl := environ "LOG_LEVEL" in
  let lvl := if String.eqb lvl "" then "info" else lvl in
  let s := SetLevel lvl s in
  let j := negb (String.eqb (environ "LOG_JSON") "false") in
  ({| json := j |}, s).

(** What a JSON handler answers: [http.Error] with a code and a text, or
    the object it encodes. *)
Inductive answer : Type :=
| Refused (code : Z) (msg : string)
| Encoded (obj : gmap string any).

(** [logsSetLevel]; the body is the decoder's error or the decoded
    [level] field. *)
Definition logsSetLevel (body : string + string) (s : store)
  : answer * store :=
  match body with
  | inl err => (Refused 400 err, s)
  | inr lvl =>
      if String.eqb lvl "" then (Refused 400 "level required", s)
      else
        let s := SetLevel lvl s in
        (Encoded (<["level" := AStr (GetLevel s)]> {["ok" := ABool true]}), s)
  end.

(** [logsGetLevel]. *)
Definition logsGetLevel (s : store) : answer :=
  Encoded {["level" := AStr (GetLevel s)]}.

End LogAPI.

(** ** internal/api: reading the trace ring, and [respondError] *)

Module TraceStore.
Import Tracing.

(** The loop of [all]: [fuel] counts the iterations left of
    [for i := 0; i < s.size && len(out) < limit; i++].  [idx] stays inside
    the buffer from [traces_init] on. *)
Fixpoint all_loop (s : traceStore) (limit : Z) (fuel : nat) (idx : Z)
         (out : list Trace) : list Trace :=
  match fuel with
  | O => out
  | S fuel' =>
      if Z.of_nat (length out) <? limit then
        let out' := match buf s !! Z.to_nat idx with
                    | Some (Some t) => out ++ [t]
                    | _ => out
                    end in
        all_loop s limit fuel' (Z.rem (idx - 1 + size s) (size s)) out'
      else out
  end.

Definition all (limit : Z) (s : traceStore) : list Trace :=
  let limit := if (limit <=? 0) || (limit >? size s) then size s else limit in
  all_loop s limit (Z.to_nat (size s))
           (Z.rem (next s - 1 + size s) (size s)) [].

(** [respondError(w, r, code, msg)] as the calls it makes: the [error]
    event, then [http.Error], which sends the header and prints the text
    in one [Write] ([n] is the count that write reports). *)
Definition respondError (now code : Z) (msg : string) (n : Z)
  : list haction :=
  [HAddEvent now "error"
     (<["message" := AStr msg]> {["code" := AInt code]});
   HWriteHeader code;
   HWrite n].

End TraceStore.

(** ** internal/config *)

Module Config.

Record Config : Type := mkConfig {
  Env : string;
  HttpPort : string;
  DBPath : string;
  DBDriver : string;
  DBDsn : string;
  StaticDir : string;
  MaxUploadSizeBytes : Z
}.

(** Two's-complement [int64] arithmetic. *)
Definition wrap_int64 (x : Z) : Z := (x + 2 ^ 63) mod 2 ^ 64 - 2 ^ 63.

Definition getEnv (environ : string -> string) (key def : string) : string :=
  let v := environ key in
  if String.eqb v "" then def else v.

(** The byte loop of [getEnvInt64]; [None] is the jump to [done]. *)
Fixpoint parse_loop (v : string) (out : Z) : option Z :=
  match v with
  | EmptyString => Some out
  | String c v' =>
      let c := Z.of_N (Ascii.N_of_ascii c) in
      if (c <? 48) || (c >? 57) then None
      else parse_loop v' (wrap_int64 (out * 10 + (c - 48)))
  end.

Definition getEnvInt64 (environ : string -> string) (key : string) (def : Z)
  : Z :=
  let v := environ key in
  if String.eqb v "" then def
  else match parse_loop v 0 with
       | Some out => out
       | None => def
       end.

Definition Load (environ : string -> string) : Config :=
  {| Env := getEnv environ "APP_ENV" "dev";
     HttpPort := getEnv environ "HTTP_PORT" "8080";
     DBPath := getEnv environ "DB_PATH" "data/hermes.db";
     DBDriver := getEnv environ "DB_DRIVER" "sqlite";
     DBDsn := getEnv environ "DATABASE_URL" (getEnv environ "DB_DSN" "");
     StaticDir := getEnv environ "STATIC_DIR" "web/dist";
     MaxUploadSizeBytes := getEnvInt64 environ "MAX_UPLOAD_SIZE_BYTES" 0 |}.

End Config.

(** ** internal/db/gorm_logger.go: [compactWS]

    A Go string is read here as the runes that [for _, r := range s]
    yields, and built as the runes written to the [strings.Builder]. *)

Module GormText.


(** [unicode.IsSpace]. *)
Definition IsSpace (r : Z) : bool :=
  ((9 <=? r) && (r <=? 13)) || (r =? 32) || (r =? 133) || (r =? 160)
  || (r =? 5760) || ((8192 <=? r) && (r <=? 8202))
  || (r =? 8232) || (r =? 8233) || (r =? 8239) || (r =? 8287)
  || (r =? 12288).

Fixpoint TrimLeft (s : list Z) : list Z :=
  match s with
  | r :: s' => if IsSpace r then TrimLeft s' else s
  | [] => []
  end.

Definition TrimRight (s : list Z) : list Z := rev (TrimLeft (rev s)).

(** [strings.TrimSpace]. *)
Definition TrimSpace (s : list Z) : list Z := TrimRight (TrimLeft s).



End GormText.

(** ** internal/api/auth.go: mapping identity-provider claims to a role

    The strings these functions take apart are read as their runes; the
    role names they return are literals. *)

Module Auth.
Import GormText.

(** The runes of an ASCII literal. *)
Fixpoint runes (s : string) : list Z :=
  match s with
  | EmptyString => []
  | String c s' => Z.of_N (Ascii.N_of_ascii c) :: runes s'
  end.

(** A claim value as [vals] tells them apart: a string, a [[]any] (each
    element a string or not), a [[]string], anything else. *)
Inductive cval : Type :=
| CStr (s : list Z)
| CAnys (l : list (option (list Z)))
| CStrs (l : list (list Z))
| COther.

Record AuthConfig : Type := mkAuthConfig {
  OIDCRoleClaim : list Z;
  OIDCGroupClaim : list Z;
  OIDCAdminValues : list Z;
  OIDCEditorValues : list Z;
  OIDCViewerValues : list Z;
  DefaultRole : list Z
}.

Section Roles.
(** [unicode.ToLower]; [strings.ToLower] maps it over the runes. *)
Variable lower : Z -> Z.

Definition ToLower (s : list Z) : list Z := lower <$> s.

Definition vals (v : cval) : list (list Z) :=
  let s := match v with
           | CStr t => [t]
           | CAnys l => omap id l
           | CStrs l => l
           | COther => []
           end in
  (fun x => ToLower (TrimSpace x)) <$> s.

(** The loop over [needles]; [m] is the set built from [set]. *)
Fixpoint containsAny_loop (m : gset (list Z)) (needles : list (list Z))
  : bool :=
  match needles with
  | [] => false
  | n :: needles' =>
      if decide (ToLower (TrimSpace n) ∈ m) then true
      else containsAny_loop m needles'
  end.

Definition containsAny (set needles : list (list Z)) : bool :=
  let m := fold_left (fun m v => {[v]} ∪ m) set ∅ in
  containsAny_loop m needles.

Definition claim_vals (claims : gmap (list Z) cval) (claim : list Z)
  : list (list Z) :=
  match claim with
  | [] => []
  | _ => match claims !! claim with
         | Some v => vals v
         | None => []
         end
  end.

Definition combined (claims : gmap (list Z) cval) (ac : AuthConfig)
  : list (list Z) :=
  claim_vals claims (OIDCRoleClaim ac) ++ claim_vals claims (OIDCGroupClaim ac).

Definition separator (r : Z) : bool :=
  (r =? 44) || (r =? 59) || (r =? 32) || (r =? 10) || (r =? 13) || (r =? 9).

(** [strings.FieldsFunc]: the maximal runs of runes that [f] rejects;
    [cur] is the run being read. *)
Fixpoint FieldsFunc_loop (f : Z -> bool) (s cur : list Z) : list (list Z) :=
  match s with
  | [] => match cur with [] => [] | _ => [cur] end
  | r :: s' =>
      if f r then
        match cur with
        | [] => FieldsFunc_loop f s' []
        | _ => cur :: FieldsFunc_loop f s' []
        end
      else FieldsFunc_loop f s' (cur ++ [r])
  end.

Definition FieldsFunc (s : list Z) (f : Z -> bool) : list (list Z) :=
  FieldsFunc_loop f s [].

Definition split (s : list Z) : list (list Z) :=
  match s with
  | [] => []
  | _ =>
      List.filter (fun p => negb (bool_decide (p = [])))
        ((fun p => ToLower (TrimSpace p)) <$> FieldsFunc s separator)
  end.

Definition mapClaimsToRole (claims : gmap (list Z) cval) (ac : AuthConfig)
  : string :=
  let combined := combined claims ac in
  let admins := split (OIDCAdminValues ac) in
  let editors := split (OIDCEditorValues ac) in
  let viewers := split (OIDCViewerValues ac) in
  if containsAny combined admins then "admin"
  else if containsAny combined editors then "editor"
  else if containsAny combined viewers then "viewer"
  else "".

Definition defaultRole (r : list Z) : string :=
  let s := TrimSpace (ToLower r) in
  if bool_decide (s = runes "admin") then "admin"
  else if bool_decide (s = runes "editor") then "editor"
  else if bool_decide (s = runes "viewer") then "viewer"
  else "viewer".

(** The role [oidcCallback] derives for the user who logs in. *)
Definition mappedRole (claims : gmap (list Z) cval) (ac : AuthConfig)
  : string :=
  let r := mapClaimsToRole claims ac in
  if String.eqb r "" then defaultRole (DefaultRole ac) else r.

(** [firstNonEmpty]. *)
Fixpoint firstNonEmpty (vals : list (list Z)) : list Z :=
  match vals with
  | [] => []
  | v :: vals' =>
      if negb (bool_decide (TrimSpace v = [])) then v
      else firstNonEmpty vals'
  end.

(** The e-mail [oidcCallback] signs the user in under, from the [email]
    and [preferred_username] claims; empty refuses the login. *)
Definition login_email (email username : list Z) : list Z :=
  ToLower (TrimSpace (firstNonEmpty [email; username])).

End Roles.

End Auth.

(** ** Specification-side notions for the event log store *)

Module LogSpec.
Import Logging.

(** Slot visited at step [k] of the newest-first walk of the ring. *)
Definition slot (nxt : Z) (k : nat) : Z :=
  (nxt - 1 - Z.of_nat k) mod Z.of_nat ring_len.

(** The ring of [s] holds the history [h] (newest first): the walk meets
    [h]'s entries in order, then only nil slots. *)
Definition Repr (s : store) (h : list entry) : Prop :=
  length (recent s) = ring_len /\
  0 <= nextIdx s < Z.of_nat ring_len /\
  forall k : nat, (k < ring_len)%nat ->
    recent s !! Z.to_nat (slot (nextIdx s) k) = Some (h !! k).

(** The calls of [cs] that pass the threshold of [s]. *)
Definition accepted (s : store) (cs : list call) : list call :=
  List.filter (fun c => shouldLog (c_level c) s) cs.

(** Entries written by [cs], newest first. *)
Definition history (s : store) (cs : list call) : list entry :=
  rev (map entry_of (accepted s cs)).

(** The three calls of [TestLoggerLevelsAndRecent]. *)
Definition three_calls : list call :=
  [mkCall 1 "info" "hello" [AStr "k"; AInt 1];
   mkCall 2 "debug" "dbg" [AStr "a"; AInt 2];
   mkCall 3 "error" "oops" []].

End LogSpec.

(** ** Specification-side notions for the trace pipeline *)

Module TraceSpec.
Import Tracing.



(** The handler never panics on its own and passes only codes that
    net/http accepts. *)
Definition well_behaved (h : list haction) : Prop :=
  Forall (fun a => match a with
                   | HPanic => False
                   | HWriteHeader c => checkWriteHeaderCode c = true
                   | _ => True
                   end) h.


(** The [/health] handler: [w.Write([]byte("ok"))]. *)
Definition health_handler : list haction := [HWrite 2].

Definition marshal_stub : gmap string any -> string := fun _ => "{}".

Definition get_health : request :=
  mkRequest "GET" "/health" "curl" "" "127.0.0.1:1" 0.

Definition failing : DB.outcome :=
  DB.mkOutcome (Some (DB.ErrOther "database is locked")) 0 9 1 "trace.go:98"
               "INSERT" "trace_rows".

Definition sample_inputs : inputs :=
  mkInputs "00aa" None 5 8 8 9 [failing].

Definition sample_db : DB.gormDB :=
  DB.mkDB ∅ [] [] (DB.mkGormLogger {| Logging.json := true |}
                                   (DB.init_level "info")).

Definition sample_world : world :=
  mkWorld Logging.init (Some sample_db) traces_init (mkCounters 0 0 0 0 0 0).

Definition blank_response : response := mkResponse None 0 [].

End TraceSpec.

(** ** Specification-side notions for the transfer engine *)

Module TransferSpec.
Import Transfer.

Definition is_progress (f : frame) : Prop :=
  exists pct transferred total, f = progress_frame pct transferred total.



Definition frames_of (r : result) : list frame :=
  match r_reply r with
  | Stream frames => frames
  | HttpError _ _ => []
  end.

Definition dst_key (b : body) : string :=
  if String.eqb (DstKey b) "" then SrcKey b else DstKey b.

(** The request passes validation, both clients resolve, and the source
    opens: the transfer gets as far as the upload. *)
Record reaches (a : answers) (c : cloud) (q : request) (b : body)
       (src dst : string) (calls : list s3call) (rc : option string)
       (total : Z) : Prop := mkReaches {
  reach_id : exists pid, q_id q = Some pid /\ 0 < pid /\
               getClient c pid = Some src /\
               getClient c (if DstProviderID b =? 0 then pid
                            else DstProviderID b) = Some dst;
  reach_body : q_body q = inr b;
  reach_keys : String.eqb (SrcKey b) "" || String.eqb (DstBucket b) "" = false;
  reach_open : DownloadWithInfo a (objs c) src (q_name q) (SrcKey b)
               = (calls, inr (rc, total))
}.

Definition is_remove (k : s3call) : bool :=
  match k with RemoveObject _ _ _ => true | _ => false end.

(** A cloud with one provider holding one empty object, a request to copy
    it, and an environment in which both size probes fail and no tick
    fires. *)
Definition one_provider : gmap Z Provider := {[1 := mkProvider "minio:9000" true]}.




(** An environment in which the size is known and the put fails. *)
Definition put_fails : answers :=
  mkAnswers None None None (Some "put: access denied") None [Chunk 32768] 0 0.

(** A cloud with one object of five bytes and a request to move it. *)
Definition cloud_one_object : cloud :=
  mkCloud one_provider {[("minio:9000", "in", "a.bin") := "hello"]}.

Definition move_request : request :=
  mkRequest (Some 1) "in" (inr (mkBody "a.bin" "out" "" 0)).

Definition no_tick (x : sched) : bool :=
  match x with Tick => false | Chunk _ => true end.


End TransferSpec.

(** ** Specification-side notions for the aggregator *)

Module ObsSpec.
Import Models Obs.

(** Insertion of [x] into a list held in reverse (largest first): the
    functional reading of the inner loop of [percentile]. *)
Fixpoint rins (x : float) (r : list float) : list float :=
  match r with
  | [] => [x]
  | y :: r' => if (x <? y)%float then y :: rins x r' else x :: r
  end.

Definition ins_right (x : float) (pre : list float) : list float :=
  rev (rins x (rev pre)).

Definition isort (vals : list float) : list float :=
  fold_left (fun acc x => ins_right x acc) vals [].

Definition fle (a b : float) : Prop := (a <=? b)%float = true.

(** The same order read on a list held largest first. *)
Definition fge (a b : float) : Prop := fle b a.

Definition no_nan (vals : list float) : Prop :=
  Forall (fun x => is_nan x = false) vals.

(** Nearest-rank index in exact arithmetic for an integer percentile [p]:
    [floor (p/100 * (len - 1))] clamped to [0, len - 1]. *)
Definition nearest_rank_index (len p : Z) : Z :=
  Z.max 0 (Z.min (len - 1) (p * (len - 1) / 100)).

(** The claim of nearest-rank selection for a sample and an integer
    percentile. *)
Definition nearest_rank (vals : list float) (p : Z) : Prop :=
  exists vv,
    vv ≡ₚ vals /\ StronglySorted fle vv /\
    percentile vals (float_of_Z p)
    = nth (Z.to_nat (nearest_rank_index (Z.of_nat (length vals)) p)) vv 0%float.

Definition sample5 : list float := [10; 20; 30; 40; 50]%float.

(** The sample [0, 1, ..., 50]. *)
Definition sample51 : list float :=
  map (fun n => float_of_Z (Z.of_nat n)) (seq 0 51).

(** The two places where binary64 rounding moves the index. *)
Definition rounding_exception (len p : Z) : bool :=
  ((p =? 58) && (len =? 51)) || ((p =? 70) && (len =? 91)).

(** Checks run by evaluation over all sample sizes and percentiles. *)
Definition index_agrees (len p : Z) : bool :=
  percentile_index len (float_of_Z p)
  =? nearest_rank_index len p - (if rounding_exception len p then 1 else 0).

Definition index_table : bool :=
  forallb (fun l => forallb (fun p => index_agrees (Z.of_nat l) (Z.of_nat p))
                            (seq 0 101))
          (seq 1 100).

Definition antisym_on (l : list float) : bool :=
  forallb (fun x => forallb (fun y =>
     implb ((x <=? y)%float && (y <=? x)%float) (PrimFloat.Leibniz.eqb x y)) l) l.

(** Order induced on elements by a selection sort: [x] goes before [y]. *)
Definition before {K : Type} (getk : item -> option K)
           (better : K -> K -> bool) (x y : item) : Prop :=
  match getk x, getk y with
  | Some kx, Some ky => better kx ky = true
  | _, _ => False
  end.

Definition has_key {K : Type} (getk : item -> option K) (x : item) : Prop :=
  is_Some (getk x).

(** Any two elements at different places are strictly ordered one way. *)
Definition comparable {K : Type} (getk : item -> option K)
           (better : K -> K -> bool) (l : list item) : Prop :=
  StronglySorted (fun x y => before getk better x y \/ before getk better y x) l.

(** Keys and tests of the three sorts. *)
Definition getk_f (key : string) (it : item) : option float :=
  as_float64 (it !! key).
Definition higher (kj kmi : float) : bool := (kmi <? kj)%float.
Definition getk_ts (it : item) : option Z := as_int64 (it !! "ts").
Definition earlier (kj kmi : Z) : bool := kj <? kmi.

(** What the [range] loop over [paths] appends, as list comprehensions. *)
Definition slow_of (it : list (string * pAgg)) : list item :=
  flat_map (fun pa => if Count (snd pa) =? 0 then []
                      else if Count (snd pa) >=? 3
                           then [slow_item (fst pa) (snd pa)] else []) it.

Definition errs_of (it : list (string * pAgg)) : list item :=
  flat_map (fun pa => if Count (snd pa) =? 0 then []
                      else if Errs (snd pa) >? 0
                           then [error_item (fst pa) (snd pa)] else []) it.

(** Two runs of [obsSummary] over one window give one output. *)
Definition reproducible (em : string -> option string) (now : Z)
           (trs : list TraceRow) : Prop :=
  forall o1 o2, obsSummary em now trs o1 -> obsSummary em now trs o2 -> o1 = o2.

(** No two keys of the list compare equal (or fail to compare). *)
Fixpoint strictly_ranked (ks : list float) : bool :=
  match ks with
  | [] => true
  | k :: ks' =>
      forallb (fun k' => (k <? k')%float || (k' <? k)%float) ks'
      && strictly_ranked ks'
  end.

Definition no_ties (key : string) (l : list item) : bool :=
  strictly_ranked (omap (getk_f key) l).

(** The candidates of the two rankings, before sorting. *)
Definition slow_candidates (a : agg) : list item :=
  fst (collect (map_to_list (paths a)) [] []).

Definition error_candidates (a : agg) : list item :=
  normalize_count <$> snd (collect (map_to_list (paths a)) [] []).

Definition trace_of (id path : string) (status started dur : Z) : TraceRow :=
  mkTraceRow id "GET" path status "" "" "" "" 0 0 started (started + dur) dur.

(** A window in which ["/a"], seen first, and ["/b"] tie on p95 and on
    error count. *)
Definition window_tie : list TraceRow :=
  [trace_of "1" "/a" 200 0 1000000; trace_of "2" "/a" 200 0 2000000;
   trace_of "3" "/a" 500 0 3000000; trace_of "4" "/b" 200 0 1000000;
   trace_of "5" "/b" 404 0 2000000; trace_of "6" "/b" 200 0 3000000].

(** The same window with ["/b"] slower and failing more often. *)
Definition window_ranked : list TraceRow :=
  [trace_of "1" "/a" 200 0 1000000; trace_of "2" "/a" 200 0 2000000;
   trace_of "3" "/a" 500 0 3000000; trace_of "4" "/b" 500 0 1000000;
   trace_of "5" "/b" 404 0 4000000; trace_of "6" "/b" 200 0 5000000].

Definition no_messages : string -> option string := fun _ => None.

(** Path of the first entry of the top-slow list. *)
Definition first_slow_path (o : option summary) : option any :=
  match o with
  | Some s => match head (topSlow s) with
              | Some it => it !! "path"
              | None => None
              end
  | None => None
  end.

(** Minutes reported by the summary, oldest first. *)
Definition minutes (now : Z) : list Z :=
  (fun k => minute_unix now - 60 * (11 - Z.of_nat k)) <$> seq 0 12.

Definition in_minute (m : Z) (t : TraceRow) : bool :=
  minute_unix (Started t) =? m.

Definition count_in (trs : list TraceRow) (m : Z) : Z :=
  Z.of_nat (length (List.filter (in_minute m) trs)).

Definition errors_in (trs : list TraceRow) (m : Z) : Z :=
  Z.of_nat (length (List.filter
                      (fun t => in_minute m t && (Status t >=? 400)) trs)).

Definition expected_buckets (now : Z) (trs : list TraceRow)
  : list (Z * bucket) :=
  (fun m => (m, mkBucket (count_in trs m) (errors_in trs m))) <$> minutes now.

End ObsSpec.

(** ** Specification-side notions for log subscribers *)

Module StreamSpec.
Import Logging LogSpec.

(** What a subscriber's queue holds after the entries [es] were offered to
    it without any being received. *)
Definition offered (es : list entry) (q : list entry) : list entry :=
  q ++ take (chan_cap - length q) es.

Definition with_subscribers (s : store) (m : gmap nat (list entry)) : store :=
  mkStore (recent s) (nextIdx s) (logLevel s) m (persistFn s) (spawned s)
          (stdout s).

End StreamSpec.

(** ** Specification-side notions for the trace ring and the recorder *)

Module RingSpec.
Import Tracing TraceStore.

(** The ring of [s] holds the traces [h], newest first. *)
Definition TRepr (s : traceStore) (h : list Trace) : Prop :=
  length (buf s) = 1000%nat /\ size s = 1000 /\ 0 <= next s < 1000 /\
  forall k : nat, (k < 1000)%nat ->
    buf s !! Z.to_nat (LogSpec.slot (next s) k) = Some (h !! k).

Definition adds (ts : list Trace) (s : traceStore) : traceStore :=
  fold_left (fun s t => add t s) ts s.

(** What a handler does, read off its calls: the events it adds, the bytes
    it writes, the last code it passes to [WriteHeader] (or [c] if none),
    and the status its first [WriteHeader] or [Write] sends. *)
Fixpoint handler_events (h : list haction) : list TraceEvent :=
  match h with
  | [] => []
  | HAddEvent now name fields :: h' =>
      mkTraceEvent now name fields :: handler_events h'
  | _ :: h' => handler_events h'
  end.

Fixpoint written (h : list haction) : Z :=
  match h with
  | [] => 0
  | HWrite n :: h' => n + written h'
  | _ :: h' => written h'
  end.

Fixpoint last_code (h : list haction) (c : Z) : Z :=
  match h with
  | [] => c
  | HWriteHeader c' :: h' => last_code h' c'
  | _ :: h' => last_code h' c
  end.

Fixpoint first_status (h : list haction) : option Z :=
  match h with
  | [] => None
  | HWriteHeader c :: _ => Some c
  | HWrite _ :: _ => Some 200
  | _ :: h' => first_status h'
  end.

Definition end_event (i : inputs) (status respBytes : Z) : TraceEvent :=
  mkTraceEvent (i_end_event i) "request.end"
    (<["respBytes" := AInt64 respBytes]> {["status" := AInt status]}).

(** The events of [evs] whose insert succeeds under the answers [os]. *)
Fixpoint kept (evs : list TraceEvent) (os : list DB.outcome)
  : list TraceEvent :=
  match evs with
  | [] => []
  | ev :: evs' =>
      match DB.o_err (hd quiet os) with
      | None => ev :: kept evs' (tl os)
      | Some _ => kept evs' (tl os)
      end
  end.

End RingSpec.

(** ** Specification-side notions for the outcome of a transfer *)

Module OutcomeSpec.
Import Transfer TransferSpec.




(** A request whose provider id is not a number. *)
Definition bad_id_request : request :=
  mkRequest None "in" (inr (mkBody "a.bin" "out" "" 0)).


Definition all_succeed : answers :=
  mkAnswers None None None None None [Chunk 32768; Tick] 0 0.

End OutcomeSpec.

(** ** Specification-side notions for the window statistics *)

Module WindowSpec.
Import Models Obs ObsSpec.

(** Number of traces of the window that satisfy [P]. *)
Definition count_where (P : TraceRow -> bool) (trs : list TraceRow) : Z :=
  Z.of_nat (length (List.filter P trs)).

Definition on_path (p : string) (t : TraceRow) : bool := String.eqb (Path t) p.

Definition failed (t : TraceRow) : bool := Status t >=? 400.

(** The traces of the window on path [p], in window order. *)
Definition path_traces (p : string) (trs : list TraceRow) : list TraceRow :=
  List.filter (on_path p) trs.

(** What the aggregate of a path says about the traces [ts] on it. *)
Definition describes (pa : pAgg) (ts : list TraceRow) : Prop :=
  Count pa = Z.of_nat (length ts) /\
  Errs pa = count_where failed ts /\
  Lats pa = take 100 ((fun t => ms_of (DurationNs t)) <$> ts) /\
  LastStatus pa = default 0 (Status <$> last (List.filter failed ts)).

End WindowSpec.

(** ** Specification-side notions for the configuration *)

Module ConfigSpec.

(** The number a sequence of decimal digits denotes, most significant
    digit first, continuing from [acc]. *)
Fixpoint horner (d : Decimal.uint) (acc : Z) : Z :=
  match d with
  | Decimal.Nil => acc
  | Decimal.D0 d => horner d (acc * 10)
  | Decimal.D1 d => horner d (acc * 10 + 1)
  | Decimal.D2 d => horner d (acc * 10 + 2)
  | Decimal.D3 d => horner d (acc * 10 + 3)
  | Decimal.D4 d => horner d (acc * 10 + 4)
  | Decimal.D5 d => horner d (acc * 10 + 5)
  | Decimal.D6 d => horner d (acc * 10 + 6)
  | Decimal.D7 d => horner d (acc * 10 + 7)
  | Decimal.D8 d => horner d (acc * 10 + 8)
  | Decimal.D9 d => horner d (acc * 10 + 9)
  end.

(** An environment in which only [key] is set, to [v]. *)
Definition only (key v : string) : string -> string :=
  fun k => if String.eqb k key then v else "".

End ConfigSpec.

(** ** Specification-side notions for compacted SQL text *)

Module GormTextSpec.
Import GormText.




End GormTextSpec.

(** ** Specification-side notions for the role mapping *)

Module AuthSpec.
Import GormText Auth.

(** Some value listed in the setting [setting] is among the values the
    user's claims carry, both read without regard to case and to
    surrounding white space. *)
Definition matches (lower : Z -> Z) (claims : gmap (list Z) cval)
           (ac : AuthConfig) (setting : list Z) : Prop :=
  exists n, n ∈ split lower setting /\
            ToLower lower (TrimSpace n) ∈ combined lower claims ac.

(** ASCII lower-casing, which is what [unicode.ToLower] does below 128. *)
Definition ascii_lower (r : Z) : Z :=
  if (65 <=? r) && (r <=? 90) then r + 32 else r.

(** The settings and the claims of [TestMapClaimsToRole]. *)
Definition test_config : AuthConfig :=
  mkAuthConfig (runes "role") (runes "groups") (runes "admin, s3-admin")
               (runes "editor") (runes "viewer, read-only") (runes "").

Definition editor_claims : gmap (list Z) cval :=
  <[runes "groups" := CAnys [Some (runes "team"); Some (runes "dev")]]>
    {[runes "role" := CStr (runes "editor")]}.

End AuthSpec.

(** ** Specification-side notions for ranked lists *)

Module RankSpec.
Import Models Obs ObsSpec.

(** [x] may stand before [y] in a ranking: [y] is not better than [x]. *)
Definition not_after {K : Type} (getk : item -> option K)
           (better : K -> K -> bool) (x y : item) : Prop :=
  match getk x, getk y with
  | Some kx, Some ky => better ky kx = false
  | _, _ => False
  end.

(** Every element has a key, and the key is one on which the order
    behaves. *)
Definition keyed {K : Type} (getk : item -> option K) (ok : K -> Prop)
           (x : item) : Prop :=
  exists k, getk x = Some k /\ ok k.

(** [x] ranks at least as high as [y] under the float key [key]. *)
Definition outranks (key : string) (x y : item) : Prop :=
  exists kx ky, getk_f key x = Some kx /\ getk_f key y = Some ky /\
                (ky <=? kx)%float = true.

End RankSpec.

(* ================================================================== *)
(** * Properties *)
(* ================================================================== *)

Module LogFacts.
Import Logging LogSpec.

Lemma ring_len_Z : Z.of_nat ring_len = 1000.
Proof. reflexivity. Qed.

Lemma slot_range nxt k : 0 <= slot nxt k < 1000.
Proof. unfold slot. rewrite ring_len_Z. apply Z.mod_pos_bound. lia. Qed.

Lemma slot_next nxt k :
  Z.rem (slot nxt k - 1 + 1000) 1000 = slot nxt (S k).
Proof.
  pose proof (slot_range nxt k) as Hr.
  rewrite Z.rem_mod_nonneg by lia.
  unfold slot in *. rewrite ring_len_Z in *.
  rewrite Nat2Z.inj_succ.
  replace (nxt - 1 - Z.succ (Z.of_nat k)) with (nxt - 1 - Z.of_nat k - 1) by lia.
  rewrite <- (Zminus_mod_idemp_l (nxt - 1 - Z.of_nat k) 1 1000).
  replace ((nxt - 1 - Z.of_nat k) mod 1000 - 1 + 1000)
    with ((nxt - 1 - Z.of_nat k) mod 1000 - 1 + 1 * 1000) by lia.
  now rewrite Z_mod_plus_full.
Qed.

Lemma slot_start nxt :
  0 <= nxt < 1000 -> Z.rem (nxt - 1 + 1000) 1000 = slot nxt 0.
Proof.
  intros H. rewrite Z.rem_mod_nonneg by lia.
  unfold slot. rewrite ring_len_Z. simpl Z.of_nat. rewrite Z.sub_0_r.
  replace (nxt - 1 + 1000) with (nxt - 1 + 1 * 1000) by lia.
  now rewrite Z_mod_plus_full.
Qed.

Lemma slot_shift nxt k :
  0 <= nxt < 1000 ->
  slot (Z.rem (nxt + 1) 1000) (S k) = slot nxt k.
Proof.
  intros H. rewrite Z.rem_mod_nonneg by lia.
  unfold slot. rewrite ring_len_Z, Nat2Z.inj_succ.
  replace ((nxt + 1) mod 1000 - 1 - Z.succ (Z.of_nat k))
    with ((nxt + 1) mod 1000 + (- 1 - Z.succ (Z.of_nat k))) by lia.
  rewrite Zplus_mod_idemp_l. f_equal. lia.
Qed.

Lemma slot_newest nxt :
  0 <= nxt < 1000 -> slot (Z.rem (nxt + 1) 1000) 0 = nxt.
Proof.
  intros H. rewrite Z.rem_mod_nonneg by lia.
  unfold slot. rewrite ring_len_Z. simpl Z.of_nat.
  rewrite Z.sub_0_r, Zminus_mod_idemp_l.
  replace (nxt + 1 - 1) with nxt by lia. apply Z.mod_small; lia.
Qed.

Lemma slot_older_ne nxt k :
  0 <= nxt < 1000 -> (0 < k < ring_len)%nat -> slot nxt (k - 1) <> nxt.
Proof.
  intros H Hk. unfold slot. rewrite ring_len_Z. unfold ring_len in Hk.
  intros E.
  assert (Hd : (nxt - 1 - Z.of_nat (k - 1)) mod 1000 = nxt mod 1000).
  { rewrite E. symmetry. apply Z.mod_small; lia. }
  apply Z.cong_iff_ex in Hd. destruct Hd as [q Hq]. lia.
Qed.

Lemma Repr_init : Repr init [].
Proof.
  split; [apply length_replicate|]. split; [rewrite ring_len_Z; simpl nextIdx; lia|].
  intros k Hk. change (recent init) with (replicate ring_len (@None entry)).
  apply lookup_replicate. split; [reflexivity|].
  pose proof (slot_range (nextIdx init) k). unfold ring_len in *. lia.
Qed.

Lemma Repr_levels s h lvl : Repr s h -> Repr (SetLevel lvl s) h.
Proof. intros H. exact H. Qed.

Lemma Repr_appendBuf s h e : Repr s h -> Repr (appendBuf e s) (e :: h).
Proof.
  intros (Hlen & Hidx & Hslots). rewrite ring_len_Z in Hidx.
  unfold Repr, appendBuf; simpl recent; simpl nextIdx.
  rewrite length_insert, Hlen, ring_len_Z.
  split; [reflexivity|]. split.
  { rewrite Z.rem_mod_nonneg by lia. apply Z.mod_pos_bound. lia. }
  intros [|k] Hk.
  - rewrite slot_newest by lia. simpl.
    apply list_lookup_insert_eq. rewrite Hlen. unfold ring_len. lia.
  - rewrite slot_shift by lia. simpl.
    rewrite list_lookup_insert_ne.
    + apply Hslots. lia.
    + pose proof (slot_range (nextIdx s) k).
      pose proof (slot_older_ne (nextIdx s) (S k) Hidx) as Hne.
      replace (S k - 1)%nat with k in Hne by lia.
      intros E. apply Hne; [lia|]. lia.
Qed.

Lemma Repr_println s h l e : Repr s h -> Repr (println l e s) h.
Proof. intros H. exact H. Qed.

Lemma write_rejected l now lvl msg kv s :
  shouldLog lvl s = false -> write l now lvl msg kv s = s.
Proof. intros H. unfold write. now rewrite H. Qed.

Lemma write_accepted l now lvl msg kv s :
  shouldLog lvl s = true ->
  write l now lvl msg kv s =
  println l (mkEntry now lvl msg (fieldsFromKV kv))
          (appendBuf (mkEntry now lvl msg (fieldsFromKV kv)) s).
Proof. intros H. unfold write. now rewrite H. Qed.

Lemma write_logLevel l now lvl msg kv s :
  logLevel (write l now lvl msg kv s) = logLevel s.
Proof. unfold write. now destruct (shouldLog lvl s). Qed.

Lemma shouldLog_level_only lvl s s' :
  logLevel s = logLevel s' -> shouldLog lvl s = shouldLog lvl s'.
Proof. unfold shouldLog. now intros ->. Qed.

Lemma Repr_writes l cs : forall s h,
  Repr s h -> Repr (writes l cs s) (history s cs ++ h).
Proof.
  induction cs as [|c cs IH]; intros s h HR; [exact HR|].
  unfold writes. simpl fold_left. fold (writes l cs (write_call l s c)).
  unfold history, accepted. simpl List.filter.
  assert (Hsame : forall c', shouldLog (c_level c') (write_call l s c)
                             = shouldLog (c_level c') s).
  { intros c'. apply shouldLog_level_only, write_logLevel. }
  assert (Hf : List.filter (fun c' => shouldLog (c_level c') (write_call l s c)) cs
               = List.filter (fun c' => shouldLog (c_level c') s) cs).
  { apply List.filter_ext. exact Hsame. }
  destruct (shouldLog (c_level c) s) eqn:Hc.
  - specialize (IH (write_call l s c) (entry_of c :: h)).
    unfold history, accepted in IH. rewrite Hf in IH.
    simpl map. simpl rev. rewrite <- app_assoc. simpl app.
    apply IH. unfold write_call. rewrite write_accepted by exact Hc.
    apply Repr_println, Repr_appendBuf, HR.
  - specialize (IH (write_call l s c) h).
    unfold history, accepted in IH. rewrite Hf in IH.
    apply IH. unfold write_call. rewrite write_rejected by exact Hc. exact HR.
Qed.

Lemma Recent_loop_walk buf n nxt h :
  length buf = ring_len ->
  (forall k : nat, (k < ring_len)%nat ->
     buf !! Z.to_nat (slot nxt k) = Some (h !! k)) ->
  forall fuel c, (c + fuel = ring_len)%nat ->
  Recent_loop buf (Z.of_nat n) fuel (slot nxt c) (take n (take c h))
  = take n (take ring_len h).
Proof.
  intros Hlen Hslots fuel.
  induction fuel as [|fuel IH]; intros c Hc.
  - simpl. replace c with ring_len by lia. reflexivity.
  - simpl Recent_loop. rewrite Hlen, ring_len_Z.
    destruct (Z.ltb_spec (Z.of_nat (length (take n (take c h)))) (Z.of_nat n))
      as [Hlt|Hge].
    + assert (Hshort : (length (take c h) < n)%nat).
      { rewrite length_take in Hlt. lia. }
      rewrite (take_ge (take c h)) by lia.
      rewrite Hslots by lia. rewrite slot_next.
      specialize (IH (S c) ltac:(lia)).
      destruct (h !! c) as [e|] eqn:He.
      * rewrite <- (take_S_r h c e He).
        rewrite <- IH. f_equal. symmetry. apply take_ge.
        rewrite length_take in *.
        apply lookup_lt_Some in He. lia.
      * rewrite <- IH. f_equal.
        apply lookup_ge_None in He.
        rewrite length_take in Hshort.
        rewrite !(take_ge h) by lia. reflexivity.
    + rewrite !take_take. f_equal.
      rewrite !length_take in Hge. lia.
Qed.

Lemma Recent_Repr s h n :
  Repr s h -> 1 <= n <= 1000 ->
  Recent n s = take (Z.to_nat n) (take ring_len h).
Proof.
  intros (Hlen & Hidx & Hslots) Hn. unfold Recent.
  rewrite Hlen, ring_len_Z in *.
  replace ((n <=? 0) || (n >? 1000)) with false by (symmetry; lia).
  rewrite slot_start by lia.
  rewrite <- (Z2Nat.id n) at 1 by lia.
  pose proof (Recent_loop_walk (recent s) (Z.to_nat n) (nextIdx s) h Hlen
                Hslots ring_len 0%nat ltac:(lia)) as HW.
  rewrite take_0, take_nil in HW. exact HW.
Qed.

Lemma Recent_clamp s n :
  length (recent s) = ring_len -> n <= 0 \/ n > 1000 ->
  Recent n s = Recent 1000 s.
Proof.
  intros Hlen Hn. unfold Recent. rewrite Hlen, ring_len_Z.
  replace ((n <=? 0) || (n >? 1000)) with true by (symmetry; lia).
  reflexivity.
Qed.

Lemma Repr_run l lvl cs :
  Repr (writes l cs (SetLevel lvl init)) (history (SetLevel lvl init) cs).
Proof.
  rewrite <- (app_nil_r (history _ cs)).
  apply Repr_writes, Repr_levels, Repr_init.
Qed.

(** C3.  After any run of [write] calls on the fresh store, [Recent n] with
    [1 <= n <= 1000] is the first [n] entries of the accepted writes taken
    newest first; once more than 1000 writes were accepted, [Recent 1000]
    has exactly 1000 entries, the 1000 most recent ones, newest first. *)
Theorem recent_bounded_history (l : stdLogger) (lvl : string)
        (cs : list call) (n : Z) :
  1 <= n <= 1000 ->
  let s0 := SetLevel lvl init in
  let s := writes l cs s0 in
  Recent n s = take (Z.to_nat n) (history s0 cs) /\
  ((1000 < length (accepted s0 cs))%nat ->
   length (Recent 1000 s) = 1000%nat /\
   Recent 1000 s = take 1000 (history s0 cs)).
Proof.
  intros Hn s0 s.
  pose proof (Repr_run l lvl cs) as HR. fold s0 in HR. fold s in HR.
  split.
  - rewrite (Recent_Repr s _ n HR Hn), take_take. f_equal.
    unfold ring_len. lia.
  - intros Hmany.
    rewrite (Recent_Repr s _ 1000 HR ltac:(lia)), take_take.
    change (Z.to_nat 1000 `min` ring_len)%nat with 1000%nat.
    split; [|reflexivity].
    rewrite length_take. unfold history.
    rewrite length_rev, length_map. lia.
Qed.

Lemma recent_bounded_history_witness :
  1 <= 2 <= 1000 /\
  Recent 2 (writes {| json := true |} three_calls (SetLevel "info" init))
  = take 2 (history (SetLevel "info" init) three_calls).
Proof.
  split; [lia|].
  exact (proj1 (recent_bounded_history {| json := true |} "info" three_calls 2
                  ltac:(lia))).
Defined.

(** C4.  With the threshold at [L], a [write] whose level ranks below [L]
    leaves the whole store as it was (ring, subscriber queues, spawned sink
    calls, output); a [write] at or above [L] stores the entry in the ring
    slot [nextIdx], offers it to every subscriber, starts the sink when one
    is registered, and is what [Recent 1] returns. *)
Theorem level_filter (l : stdLogger) (now : Z) (L lvl msg : string)
        (kv : list any) (s : store) :
  is_level L = true -> is_level lvl = true -> logLevel s = L ->
  (map_index_int order lvl < map_index_int order L ->
   write l now lvl msg kv s = s) /\
  (map_index_int order L <= map_index_int order lvl ->
   let e := mkEntry now lvl msg (fieldsFromKV kv) in
   let s' := write l now lvl msg kv s in
   recent s' = <[Z.to_nat (nextIdx s) := Some e]> (recent s) /\
   subscribers s' = try_send e <$> subscribers s /\
   (forall ch q, subscribers s !! ch = Some q -> (length q < chan_cap)%nat ->
                 subscribers s' !! ch = Some (q ++ [e])) /\
   spawned s' = match persistFn s with
                | Some fn => spawned s ++ [(fn, e)]
                | None => spawned s
                end /\
   (forall h, Repr s h -> Recent 1 s' = [e])).
Proof.
  intros _ _ HL. split.
  - intros Hlt. apply write_rejected. unfold shouldLog. rewrite HL. lia.
  - intros Hge e s'.
    assert (Hs' : s' = println l e (appendBuf e s)).
    { unfold s', e. apply write_accepted. unfold shouldLog. rewrite HL. lia. }
    rewrite Hs'. simpl. repeat split.
    + intros ch q Hq Hroom. unfold broadcast.
      rewrite lookup_fmap, Hq. simpl. unfold try_send.
      apply Nat.ltb_lt in Hroom. now rewrite Hroom.
    + intros h HR.
      rewrite (Recent_Repr _ (e :: h) 1
                 (Repr_println _ _ l e (Repr_appendBuf s h e HR)) ltac:(lia)).
      reflexivity.
Qed.

Lemma level_filter_witness :
  write {| json := true |} 7 "debug" "dbg" [] (SetLevel "info" init)
  = SetLevel "info" init.
Proof.
  apply (proj1 (level_filter {| json := true |} 7 "info" "debug" "dbg" []
                  (SetLevel "info" init) eq_refl eq_refl eq_refl)).
  vm_compute. reflexivity.
Defined.

(** C10.  For [n <= 0] or [n > 1000], [Recent n] is [Recent 1000]: all
    stored entries (at most 1000), newest first. *)
Theorem recent_out_of_range (l : stdLogger) (lvl : string)
        (cs : list call) (n : Z) :
  n <= 0 \/ 1000 < n ->
  let s0 := SetLevel lvl init in
  let s := writes l cs s0 in
  Recent n s = Recent 1000 s /\
  Recent n s = take 1000 (history s0 cs) /\
  (length (Recent n s) <= 1000)%nat.
Proof.
  intros Hn s0 s.
  pose proof (Repr_run l lvl cs) as HR. fold s0 in HR. fold s in HR.
  assert (E : Recent n s = Recent 1000 s).
  { apply Recent_clamp; [apply HR | lia]. }
  rewrite E, (Recent_Repr s _ 1000 HR ltac:(lia)), take_take.
  change (Z.to_nat 1000 `min` ring_len)%nat with 1000%nat.
  repeat split. rewrite length_take. lia.
Qed.

Lemma recent_out_of_range_witness :
  Recent (-5) (writes {| json := false |} three_calls (SetLevel "debug" init))
  = Recent 1000 (writes {| json := false |} three_calls (SetLevel "debug" init)).
Proof.
  exact (proj1 (recent_out_of_range {| json := false |} "debug" three_calls
                  (-5) ltac:(lia))).
Defined.

End LogFacts.

(** ** Order facts about binary64 comparisons *)

Module FloatOrder.

Local Open Scope float_scope.

Ltac cmp_cases :=
  repeat match goal with
  | H : context [Pos.compare_cont Eq ?a ?b] |- _ =>
      change (Pos.compare_cont Eq a b) with (Pos.compare a b) in H
  | |- context [Pos.compare_cont Eq ?a ?b] =>
      change (Pos.compare_cont Eq a b) with (Pos.compare a b)
  end;
  repeat match goal with
  | H : context [Z.compare ?a ?b] |- _ => destruct (Z.compare_spec a b)
  | |- context [Z.compare ?a ?b] => destruct (Z.compare_spec a b)
  | H : context [Pos.compare ?a ?b] |- _ => destruct (Pos.compare_spec a b)
  | |- context [Pos.compare ?a ?b] => destruct (Pos.compare_spec a b)
  end;
  subst; simpl in *; try congruence; try lia.

Lemma SFcompare_refl x : x <> S754_nan -> SFcompare x x = Some Eq.
Proof.
  destruct x as [s| s | |s m e]; simpl; try congruence; intros _.
  - now destruct s.
  - destruct s; cmp_cases.
Qed.

Lemma SFcompare_lt_trans x y z :
  SFcompare x y = Some Lt -> SFcompare y z = Some Lt ->
  SFcompare x z = Some Lt.
Proof.
  destruct x as [sx|sx| |sx mx ex], y as [sy|sy| |sy my ey],
           z as [sz|sz| |sz mz ez]; simpl; try congruence;
    try (destruct sx); try (destruct sy); try (destruct sz);
    try congruence; intros H1 H2; cmp_cases.
Qed.

Lemma SFcompare_lt_asym x y :
  SFcompare x y = Some Lt -> SFcompare y x = Some Lt -> False.
Proof.
  destruct x as [sx|sx| |sx mx ex], y as [sy|sy| |sy my ey];
    simpl; try congruence;
    try (destruct sx); try (destruct sy);
    try congruence; intros H1 H2; cmp_cases.
Qed.

Lemma SFcompare_total x y :
  x <> S754_nan -> y <> S754_nan ->
  SFcompare x y = Some Lt \/ SFcompare x y = Some Eq \/
  SFcompare y x = Some Lt.
Proof.
  destruct x as [sx|sx| |sx mx ex], y as [sy|sy| |sy my ey];
    simpl; try congruence; intros _ _;
    try (destruct sx); try (destruct sy); auto; cmp_cases; auto.
Qed.

Lemma SFcompare_le_trans x y z :
  SFleb x y = true -> SFleb y z = true -> SFleb x z = true.
Proof.
  unfold SFleb.
  destruct x as [sx|sx| |sx mx ex], y as [sy|sy| |sy my ey],
           z as [sz|sz| |sz mz ez]; simpl; try congruence;
    try (destruct sx); try (destruct sy); try (destruct sz);
    try congruence; intros H1 H2; cmp_cases.
Qed.

Lemma is_nan_false x : is_nan x = false -> Prim2SF x <> S754_nan.
Proof.
  unfold is_nan. rewrite FloatAxioms.eqb_spec. unfold SFeqb. intros H E.
  rewrite E in H. discriminate.
Qed.

Lemma ltb_trans x y z : (x <? y) = true -> (y <? z) = true -> (x <? z) = true.
Proof.
  rewrite !FloatAxioms.ltb_spec. unfold SFltb. intros H1 H2.
  destruct (SFcompare (Prim2SF x) (Prim2SF y)) as [[]|] eqn:E1; try discriminate.
  destruct (SFcompare (Prim2SF y) (Prim2SF z)) as [[]|] eqn:E2; try discriminate.
  now rewrite (SFcompare_lt_trans _ _ _ E1 E2).
Qed.

Lemma ltb_asym x y : (x <? y) = true -> (y <? x) = true -> False.
Proof.
  rewrite !FloatAxioms.ltb_spec. unfold SFltb. intros H1 H2.
  destruct (SFcompare (Prim2SF x) (Prim2SF y)) as [[]|] eqn:E1; try discriminate.
  destruct (SFcompare (Prim2SF y) (Prim2SF x)) as [[]|] eqn:E2; try discriminate.
  exact (SFcompare_lt_asym _ _ E1 E2).
Qed.

Lemma ltb_leb x y : (x <? y) = true -> (x <=? y) = true.
Proof.
  rewrite FloatAxioms.ltb_spec, FloatAxioms.leb_spec. unfold SFltb, SFleb.
  now destruct (SFcompare (Prim2SF x) (Prim2SF y)) as [[]|].
Qed.

Lemma nltb_leb x y :
  is_nan x = false -> is_nan y = false -> (x <? y) = false -> (y <=? x) = true.
Proof.
  intros Hx%is_nan_false Hy%is_nan_false.
  rewrite FloatAxioms.ltb_spec, FloatAxioms.leb_spec. unfold SFltb, SFleb.
  destruct (SFcompare_total _ _ Hx Hy) as [E|[E|E]]; rewrite E; try discriminate.
  - intros _. destruct (SFcompare (Prim2SF y) (Prim2SF x)) as [[]|] eqn:E2;
      try reflexivity.
    + destruct (Prim2SF x) as [sx|sx| |sx mx ex], (Prim2SF y) as [sy|sy| |sy my ey];
        simpl in *; try congruence;
        try (destruct sx); try (destruct sy); try congruence; cmp_cases.
    + destruct (Prim2SF x) as [sx|sx| |sx mx ex], (Prim2SF y) as [sy|sy| |sy my ey];
        simpl in *; try congruence.
  - reflexivity.
Qed.

Lemma leb_trans x y z : (x <=? y) = true -> (y <=? z) = true -> (x <=? z) = true.
Proof. rewrite !FloatAxioms.leb_spec. apply SFcompare_le_trans. Qed.

End FloatOrder.

(** ** Roundings never produce a NaN *)

Module NanFacts.
Import FloatOrder.

Lemma shr_1_nonneg mrs : 0 <= shr_m mrs -> 0 <= shr_m (shr_1 mrs).
Proof.
  destruct mrs as [m r s]. simpl.
  destruct m as [|[p|p|]|[p|p|]]; simpl; lia.
Qed.

Lemma iter_pos_inv {A} (f : A -> A) (P : A -> Prop) :
  (forall x, P x -> P (f x)) ->
  forall n x, P x -> P (SpecFloat.iter_pos f n x).
Proof.
  intros Hf. induction n as [n IH|n IH|]; intros x Hx; simpl; auto.
Qed.

Lemma shr_fexp_nonneg m e l :
  0 <= m -> 0 <= shr_m (fst (shr_fexp prec emax m e l)).
Proof.
  intros Hm. unfold shr_fexp, shr.
  assert (H0 : 0 <= shr_m (shr_record_of_loc m l)).
  { destruct l as [|[]]; simpl; exact Hm. }
  destruct (fexp prec emax (Zdigits2 m + e) - e) as [|p|p]; simpl; auto.
  apply (@iter_pos_inv _ shr_1 (fun x => 0 <= shr_m x) shr_1_nonneg). exact H0.
Qed.

Lemma round_nearest_even_nonneg mx lx :
  0 <= mx -> 0 <= round_nearest_even mx lx.
Proof.
  intros H. destruct lx as [|[]]; simpl; try lia.
  destruct (Z.even mx); lia.
Qed.

Lemma binary_round_aux_not_nan sx mx ex lx :
  0 <= mx -> binary_round_aux prec emax sx mx ex lx <> S754_nan.
Proof.
  intros Hm. unfold binary_round_aux.
  pose proof (shr_fexp_nonneg mx ex lx Hm) as H1.
  destruct (shr_fexp prec emax mx ex lx) as [mrs' e']. simpl in H1.
  pose proof (shr_fexp_nonneg
                (round_nearest_even (shr_m mrs') (loc_of_shr_record mrs'))
                e' loc_Exact (round_nearest_even_nonneg _ _ H1)) as H2.
  destruct (shr_fexp prec emax
              (round_nearest_even (shr_m mrs') (loc_of_shr_record mrs'))
              e' loc_Exact) as [mrs'' e'']. simpl in H2.
  destruct (shr_m mrs'') as [|m|m]; try discriminate; [|lia].
  destruct (e'' <=? emax - prec); discriminate.
Qed.

Lemma binary_round_not_nan sx mx ex :
  binary_round prec emax sx mx ex <> S754_nan.
Proof.
  unfold binary_round.
  destruct (shl_align mx ex (fexp prec emax (Z.pos (digits2_pos mx) + ex)))
    as [mz ez].
  apply binary_round_aux_not_nan. lia.
Qed.

Lemma binary_normalize_not_nan m e sz :
  binary_normalize prec emax m e sz <> S754_nan.
Proof.
  destruct m; simpl; [discriminate|apply binary_round_not_nan..].
Qed.

Lemma Prim2SF_not_nan_is_nan x : Prim2SF x <> S754_nan -> is_nan x = false.
Proof.
  intros H. unfold is_nan. rewrite FloatAxioms.eqb_spec. unfold SFeqb.
  now rewrite (SFcompare_refl _ H).
Qed.

Lemma SF2Prim_not_nan x : x <> S754_nan -> Prim2SF (SF2Prim x) <> S754_nan.
Proof.
  destruct x as [[]|[]| |s m e]; intros H; try congruence;
    try (vm_compute; discriminate).
  unfold SF2Prim.
  assert (Hl : Prim2SF (Z.ldexp (of_uint63 (Uint63.of_Z (Z.pos m))) e)
               <> S754_nan).
  { rewrite FloatLemmas.Z_ldexp_spec. unfold SFldexp.
    rewrite FloatAxioms.of_uint63_spec.
    destruct (binary_normalize prec emax
                (Uint63.to_Z (Uint63.of_Z (Z.pos m))) 0 false) eqn:E;
      try discriminate.
    - exfalso. exact (binary_normalize_not_nan _ _ _ E).
    - apply binary_round_not_nan. }
  destruct s; [|exact Hl].
  rewrite FloatAxioms.opp_spec.
  destruct (Prim2SF (Z.ldexp (of_uint63 (Uint63.of_Z (Z.pos m))) e));
    simpl; congruence.
Qed.

Lemma float_of_Z_not_nan d : Prim2SF (float_of_Z d) <> S754_nan.
Proof.
  unfold float_of_Z. apply SF2Prim_not_nan, binary_normalize_not_nan.
Qed.

Lemma SFdiv_finite_not_nan x sy my ey :
  x <> S754_nan -> SFdiv prec emax x (S754_finite sy my ey) <> S754_nan.
Proof.
  destruct x as [sx|sx| |sx mx ex]; intros H; simpl; try congruence.
  unfold SFdiv_core_binary.
  set (m' := match ex - ey - _ with
             | 0 => Z.pos mx
             | Z.pos _ => Z.shiftl (Z.pos mx) _
             | Z.neg _ => 0
             end).
  assert (Hm' : 0 <= m').
  { unfold m'. destruct (ex - ey - _); try lia. apply Z.shiftl_nonneg. lia. }
  destruct (Z.div_eucl m' (Z.pos my)) as [q r] eqn:E.
  apply binary_round_aux_not_nan.
  assert (q = m' / Z.pos my) by (unfold Z.div; now rewrite E).
  subst q. apply Z.div_pos; lia.
Qed.

Lemma ms_of_not_nan d : is_nan (Obs.ms_of d) = false.
Proof.
  unfold Obs.ms_of.
  destruct (float_of_Z d / 1000000 <? 0)%float; [reflexivity|].
  apply Prim2SF_not_nan_is_nan.
  rewrite FloatAxioms.div_spec.
  replace (Prim2SF 1000000)
    with (S754_finite false 8589934592000000 (-33)) by (vm_compute; reflexivity).
  apply SFdiv_finite_not_nan, float_of_Z_not_nan.
Qed.

End NanFacts.

(** ** The [percentile] closure *)

Module PercentileFacts.
Import Obs ObsSpec FloatOrder.

Lemma ins_right_snoc x pre y :
  ins_right x (pre ++ [y])
  = if (x <? y)%float then ins_right x pre ++ [y] else pre ++ [y; x].
Proof.
  unfold ins_right. rewrite rev_app_distr. simpl.
  destruct (x <? y)%float; simpl.
  - reflexivity.
  - rewrite rev_involutive, <- app_assoc. reflexivity.
Qed.

Lemma shift_loop_spec x : forall pre h tail,
  let r := shift_loop x (length pre) (pre ++ h :: tail) in
  <[snd r := x]> (fst r) = ins_right x pre ++ tail.
Proof.
  induction pre as [|y pre IH] using rev_ind; intros h tail.
  - reflexivity.
  - rewrite length_app, Nat.add_comm. simpl.
    rewrite <- app_assoc. simpl.
    rewrite (list_lookup_middle pre (h :: tail) y (length pre) eq_refl).
    rewrite ins_right_snoc.
    destruct (x <? y)%float.
    + replace (<[S (length pre) := y]> (pre ++ y :: h :: tail))
        with (pre ++ y :: y :: tail).
      * rewrite (IH y (y :: tail)), <- app_assoc. reflexivity.
      * change (pre ++ y :: h :: tail) with (pre ++ [y] ++ h :: tail).
        change (pre ++ y :: y :: tail) with (pre ++ [y] ++ y :: tail).
        rewrite !app_assoc.
        replace (S (length pre)) with (length (pre ++ [y]) + 0)%nat
          by (rewrite length_app; simpl; lia).
        rewrite insert_app_r. reflexivity.
    + simpl.
      change (pre ++ y :: h :: tail) with (pre ++ [y] ++ h :: tail).
      rewrite !app_assoc.
      replace (S (length pre)) with (length (pre ++ [y]) + 0)%nat
        by (rewrite length_app; simpl; lia).
      rewrite insert_app_r. simpl. rewrite <- !app_assoc. reflexivity.
Qed.

Lemma insert_step_spec pre x tail :
  insert_step (pre ++ x :: tail) (length pre) = ins_right x pre ++ tail.
Proof.
  unfold insert_step.
  rewrite (list_lookup_middle pre tail x (length pre) eq_refl).
  pose proof (shift_loop_spec x pre x tail) as H. simpl in H.
  destruct (shift_loop x (length pre) (pre ++ x :: tail)) as [vv' j1].
  exact H.
Qed.

Lemma fold_insert_step suf : forall pre,
  fold_left insert_step (seq (length pre) (length suf)) (pre ++ suf)
  = fold_left (fun acc x => ins_right x acc) suf pre.
Proof.
  induction suf as [|x suf IH]; intros pre; [simpl; apply app_nil_r|].
  simpl. rewrite insert_step_spec.
  assert (Hlen : length (ins_right x pre) = S (length pre)).
  { unfold ins_right. rewrite length_rev.
    assert (G : forall r, length (rins x r) = S (length r)).
    { induction r as [|y r IHr]; simpl; [reflexivity|].
      destruct (x <? y)%float; simpl; [now rewrite IHr | reflexivity]. }
    rewrite G, length_rev. reflexivity. }
  rewrite <- Hlen. apply IH.
Qed.

Lemma simple_sort_isort vals : simple_sort vals = isort vals.
Proof.
  unfold simple_sort, isort. destruct vals as [|x vals]; [reflexivity|].
  replace (length (x :: vals) - 1)%nat with (length vals) by (simpl; lia).
  exact (fold_insert_step vals [x]).
Qed.

Lemma rins_perm x r : rins x r ≡ₚ x :: r.
Proof.
  induction r as [|y r IH]; simpl; [reflexivity|].
  destruct (x <? y)%float; [|reflexivity].
  rewrite IH. apply perm_swap.
Qed.

Lemma ins_right_perm x pre : ins_right x pre ≡ₚ x :: pre.
Proof.
  unfold ins_right. rewrite <- Permutation_rev, rins_perm.
  now rewrite <- Permutation_rev.
Qed.

Lemma isort_perm_acc vals : forall acc,
  fold_left (fun acc x => ins_right x acc) vals acc ≡ₚ acc ++ vals.
Proof.
  induction vals as [|x vals IH]; intros acc; simpl.
  - now rewrite app_nil_r.
  - rewrite IH, ins_right_perm. simpl. apply Permutation_middle.
Qed.

Lemma isort_perm vals : isort vals ≡ₚ vals.
Proof. unfold isort. now rewrite isort_perm_acc. Qed.

Lemma rins_sorted x r :
  is_nan x = false -> no_nan r ->
  StronglySorted fge r -> StronglySorted fge (rins x r).
Proof.
  intros Hx Hr Hs. induction Hs as [|y r Hs IH Hy]; simpl.
  - repeat constructor.
  - apply Forall_cons in Hr as [Hny Hr].
    destruct (x <? y)%float eqn:E.
    + constructor; [now apply IH|].
      rewrite rins_perm. constructor; [|exact Hy].
      now apply ltb_leb.
    + assert (Hyx : fge x y) by now apply nltb_leb.
      constructor; [now constructor|].
      constructor; [exact Hyx|].
      eapply Forall_impl; [exact Hy|].
      intros z Hz. unfold fge, fle in *. eapply leb_trans; eassumption.
Qed.

Lemma StronglySorted_snoc {A} (R : A -> A -> Prop) l x :
  StronglySorted R l -> Forall (fun y => R y x) l ->
  StronglySorted R (l ++ [x]).
Proof.
  induction 1 as [|y l Hs IH Hy]; intros Hx; simpl.
  - repeat constructor.
  - apply Forall_cons in Hx as [Hyx Hx].
    constructor; [now apply IH|].
    apply Forall_app. split; [exact Hy|]. repeat constructor. exact Hyx.
Qed.

Lemma StronglySorted_rev_flip {A} (R : A -> A -> Prop) l :
  StronglySorted R l -> StronglySorted (fun a b => R b a) (rev l).
Proof.
  induction 1 as [|x l Hs IH Hx]; simpl; [constructor|].
  apply StronglySorted_snoc; [exact IH|].
  apply Forall_forall. intros y Hy. rewrite Forall_forall in Hx.
  apply Hx. apply list_elem_of_In. apply list_elem_of_In in Hy.
  now apply in_rev.
Qed.

Lemma ins_right_sorted x pre :
  is_nan x = false -> no_nan pre ->
  StronglySorted fle pre -> StronglySorted fle (ins_right x pre).
Proof.
  intros Hx Hp Hs. unfold ins_right.
  apply (StronglySorted_rev_flip fge).
  apply rins_sorted; [exact Hx| |].
  - unfold no_nan in *. apply Forall_forall. intros y Hy.
    rewrite Forall_forall in Hp. apply Hp.
    apply list_elem_of_In. apply list_elem_of_In in Hy. now apply in_rev.
  - exact (StronglySorted_rev_flip fle pre Hs).
Qed.

Lemma isort_sorted_acc vals : forall acc,
  no_nan acc -> no_nan vals -> StronglySorted fle acc ->
  StronglySorted fle (fold_left (fun acc x => ins_right x acc) vals acc).
Proof.
  induction vals as [|x vals IH]; intros acc Ha Hv Hs; simpl; [exact Hs|].
  apply Forall_cons in Hv as [Hx Hv].
  apply IH; [|exact Hv|now apply ins_right_sorted].
  unfold no_nan. rewrite ins_right_perm. now constructor.
Qed.

Lemma isort_sorted vals : no_nan vals -> StronglySorted fle (isort vals).
Proof.
  intros Hv. apply isort_sorted_acc; [constructor|exact Hv|constructor].
Qed.

Lemma sorted_perm_unique {A} (R : A -> A -> Prop) : forall l1 l2,
  (forall x y, In x l1 -> In y l1 -> R x y -> R y x -> x = y) ->
  StronglySorted R l1 -> StronglySorted R l2 -> l1 ≡ₚ l2 -> l1 = l2.
Proof.
  induction l1 as [|x1 t1 IH]; intros l2 Hanti H1 H2 HP.
  - apply Permutation_nil in HP. now subst.
  - destruct l2 as [|x2 t2]; [symmetry in HP; now apply Permutation_nil in HP|].
    apply StronglySorted_inv in H1 as [H1 Hx1].
    apply StronglySorted_inv in H2 as [H2 Hx2].
    rewrite Forall_forall in Hx1, Hx2.
    assert (E : x1 = x2).
    { assert (I1 : In x1 (x2 :: t2)).
      { eapply Permutation_in; [exact HP | now left]. }
      assert (I2 : In x2 (x1 :: t1)).
      { eapply Permutation_in; [symmetry; exact HP | now left]. }
      destruct I1 as [I1|I1]; [now symmetry|].
      destruct I2 as [I2|I2]; [exact I2|].
      apply Hanti; [now left | now right | |].
      - apply Hx1. now apply list_elem_of_In.
      - apply Hx2. now apply list_elem_of_In. }
    subst x2. f_equal. apply IH; [|exact H1|exact H2|].
    + intros x y Hx Hy. apply Hanti; now right.
    + eapply Permutation_cons_inv. exact HP.
Qed.

Lemma index_table_ok : index_table = true.
Proof. vm_compute. reflexivity. Qed.

Lemma percentile_index_int len p :
  1 <= len <= 100 -> 0 <= p <= 100 ->
  percentile_index len (float_of_Z p)
  = nearest_rank_index len p - (if rounding_exception len p then 1 else 0).
Proof.
  intros Hl Hp. pose proof index_table_ok as T. unfold index_table in T.
  rewrite forallb_forall in T.
  specialize (T (Z.to_nat len)). rewrite forallb_forall in T.
  specialize (T ltac:(apply in_seq; lia) (Z.to_nat p) ltac:(apply in_seq; lia)).
  rewrite !Z2Nat.id in T by lia. unfold index_agrees in T.
  now apply Z.eqb_eq in T.
Qed.

Lemma float_of_95 : float_of_Z 95 = 95%float.
Proof. vm_compute. reflexivity. Qed.

Lemma percentile_isort vals p :
  vals <> [] ->
  percentile vals p
  = nth (Z.to_nat (percentile_index (Z.of_nat (length vals)) p)) (isort vals)
        0%float.
Proof.
  intros Hne. unfold percentile. destruct vals as [|x vals]; [congruence|].
  rewrite simple_sort_isort.
  now rewrite (Permutation_length (isort_perm (x :: vals))).
Qed.

Lemma nearest_rank_holds vals p :
  vals <> [] -> (length vals <= 100)%nat -> no_nan vals ->
  0 <= p <= 100 -> rounding_exception (Z.of_nat (length vals)) p = false ->
  nearest_rank vals p.
Proof.
  intros Hne Hlen Hnan Hp Hex. exists (isort vals).
  split; [apply isort_perm|]. split; [now apply isort_sorted|].
  rewrite percentile_isort by exact Hne.
  assert (1 <= Z.of_nat (length vals) <= 100).
  { destruct vals; [congruence|]. simpl length in *. lia. }
  rewrite percentile_index_int, Hex by lia.
  now rewrite Z.sub_0_r.
Qed.

Lemma no_nan_check l :
  forallb (fun x => negb (is_nan x)) l = true -> no_nan l.
Proof.
  intros H. rewrite forallb_forall in H. apply Forall_forall.
  intros x Hx. apply list_elem_of_In in Hx. apply H in Hx.
  now apply negb_true_iff in Hx.
Qed.

Lemma antisym_check l :
  antisym_on l = true ->
  forall x y, In x l -> In y l -> fle x y -> fle y x -> x = y.
Proof.
  unfold antisym_on. intros H x y Hx Hy Hxy Hyx.
  rewrite forallb_forall in H. specialize (H x Hx).
  rewrite forallb_forall in H. specialize (H y Hy).
  unfold fle in *. rewrite Hxy, Hyx in H. simpl in H.
  now apply FloatAxioms.Leibniz.eqb_spec.
Qed.

Lemma percentile_index_range len p :
  1 <= len -> 0 <= percentile_index len p < len.
Proof.
  intros H. unfold percentile_index.
  destruct (int_of_float (p / 100 * float_of_Z (len - 1)) <? 0) eqn:E1.
  - replace (0 >=? len) with false by (symmetry; lia). lia.
  - apply Z.ltb_ge in E1.
    destruct (Z.geb_spec (int_of_float (p / 100 * float_of_Z (len - 1))) len);
      lia.
Qed.

(** The samples the aggregator hands to [percentile] are non-empty, capped
    at 100 values and free of NaN. *)
Lemma samples_capped em now trs path ag :
  paths (aggregate em now trs) !! path = Some ag ->
  Lats ag <> [] /\ (length (Lats ag) <= 100)%nat /\ no_nan (Lats ag).
Proof.
  revert path ag. induction trs as [|t trs IH] using rev_ind; intros path ag.
  - unfold aggregate. simpl. now rewrite lookup_empty.
  - unfold aggregate. rewrite fold_left_app. simpl.
    fold (aggregate em now trs). unfold agg_step. cbn [paths].
    destruct (decide (Models.Path t = path)) as [<-|Hne];
      [|rewrite lookup_insert_ne by exact Hne; apply IH].
    rewrite lookup_insert_eq. intros [= <-].
    set (pa := default pAgg_zero
                 (paths (aggregate em now trs) !! Models.Path t)).
    assert (Hpa : (length (Lats pa) <= 100)%nat /\ no_nan (Lats pa)).
    { unfold pa.
      destruct (paths (aggregate em now trs) !! Models.Path t) as [pa0|] eqn:E.
      - now destruct (IH _ _ E) as (_ & ? & ?).
      - simpl. split; [lia|constructor]. }
    destruct Hpa as [Hle Hnn].
    set (ms := ms_of (Models.DurationNs t)).
    assert (G : (if (length (Lats pa) <? 100)%nat then Lats pa ++ [ms]
                 else Lats pa) <> [] /\
                (length (if (length (Lats pa) <? 100)%nat
                         then Lats pa ++ [ms] else Lats pa) <= 100)%nat /\
                no_nan (if (length (Lats pa) <? 100)%nat then Lats pa ++ [ms]
                        else Lats pa)).
    { destruct (Nat.ltb_spec (length (Lats pa)) 100) as [Hlt|Hge].
      - rewrite length_app. simpl. split; [now destruct (Lats pa)|].
        split; [lia|]. apply Forall_app. split; [exact Hnn|].
        repeat constructor. apply NanFacts.ms_of_not_nan.
      - split; [|now split]. intros E. rewrite E in Hge. simpl in Hge. lia. }
    destruct (Models.Status t >=? 400); exact G.
Qed.

(** C2 (as amended).  The samples the aggregator keeps per path are
    non-empty, capped at 100 values and free of NaN, and the p95 it reports
    for a path is the element of the ascending sort of the sample at the
    nearest-rank index.  On a non-empty sample of at most 100 values, none
    a NaN, [percentile] returns the element of the
    ascending sort at the nearest-rank index [floor (p/100 * (N-1))] for
    p = 95, the percentile the aggregator asks for, and for every integer
    percentile p in 0..100 outside the two rounding exceptions
    (p, N) = (58, 51) and (70, 91); on [10,20,30,40,50] the p95 is 40. *)
Theorem percentile_nearest_rank (vals : list float) :
  vals <> [] -> (length vals <= 100)%nat -> no_nan vals ->
  (forall em now trs path ag,
     paths (aggregate em now trs) !! path = Some ag ->
     Lats ag <> [] /\ (length (Lats ag) <= 100)%nat /\ no_nan (Lats ag) /\
     exists vv, vv ≡ₚ Lats ag /\ StronglySorted fle vv /\
       percentile (Lats ag) 95
       = nth (Z.to_nat (nearest_rank_index (Z.of_nat (length (Lats ag))) 95))
             vv 0%float) /\
  (exists vv, vv ≡ₚ vals /\ StronglySorted fle vv /\
     percentile vals 95
     = nth (Z.to_nat (nearest_rank_index (Z.of_nat (length vals)) 95)) vv
           0%float) /\
  (forall p, 0 <= p <= 100 ->
     rounding_exception (Z.of_nat (length vals)) p = false ->
     nearest_rank vals p) /\
  nearest_rank_index 5 95 = 3 /\
  percentile sample5 95 = 40%float.
Proof.
  intros Hne Hlen Hnan. split.
  { intros em now trs path ag H.
    destruct (samples_capped em now trs path ag H) as (H1 & H2 & H3).
    repeat (split; [assumption|]).
    rewrite <- float_of_95.
    now apply (nearest_rank_holds (Lats ag) 95); try lia. }
  split; [|split; [|split]].
  - rewrite <- float_of_95.
    apply (nearest_rank_holds vals 95 Hne Hlen Hnan); [lia|].
    unfold rounding_exception. simpl. reflexivity.
  - intros p Hp Hex. now apply nearest_rank_holds.
  - reflexivity.
  - vm_compute. reflexivity.
Qed.

Lemma percentile_nearest_rank_witness :
  nearest_rank_index 5 95 = 3 /\ percentile sample5 95 = 40%float.
Proof.
  apply (percentile_nearest_rank sample5).
  - discriminate.
  - simpl. lia.
  - apply no_nan_check. vm_compute. reflexivity.
Defined.

(** C2, the claim as stated, fails for p = 58 on a sample of 51 values:
    [percentile] returns the element at index 28 where the nearest-rank
    index [floor (0.58 * 50)] is 29. *)
Lemma percentile_rounding_counterexample : ~ nearest_rank sample51 58.
Proof.
  intros (vv & HP & HS & E).
  assert (Hs : StronglySorted fle sample51).
  { replace sample51 with (isort sample51) by (vm_compute; reflexivity).
    apply isort_sorted, no_nan_check. vm_compute. reflexivity. }
  assert (Hvv : vv = sample51).
  { symmetry. apply (sorted_perm_unique fle); [|exact Hs|exact HS|now symmetry].
    apply antisym_check. vm_compute. reflexivity. }
  subst vv.
  assert (X : (percentile sample51 (float_of_Z 58)
               =? nth (Z.to_nat (nearest_rank_index
                                   (Z.of_nat (length sample51)) 58))
                      sample51 0)%float = false)
    by (vm_compute; reflexivity).
  rewrite <- E in X. vm_compute in X. discriminate.
Qed.

End PercentileFacts.

(** ** The selection sorts of [obsSummary] *)

Module SelectionFacts.
Import Obs ObsSpec.

Section Generic.
Context {K : Type} (getk : item -> option K) (better : K -> K -> bool).
Hypothesis better_trans :
  forall a b c, better a b = true -> better b c = true -> better a c = true.

Local Abbreviation B := (before getk better).

Lemma before_trans x y z : B x y -> B y z -> B x z.
Proof.
  unfold before.
  destruct (getk x), (getk y), (getk z); try tauto. apply better_trans.
Qed.

Lemma comparable_perm l l' : l ≡ₚ l' -> comparable getk better l ->
  comparable getk better l'.
Proof.
  unfold comparable. induction 1 as [|x l l' HP IH|x y l|l l' l'' H1 IH1 H2 IH2];
    intros HS.
  - constructor.
  - apply StronglySorted_inv in HS as [HS Hx].
    constructor; [now apply IH|]. now rewrite <- HP.
  - apply StronglySorted_inv in HS as [HS Hy].
    apply StronglySorted_inv in HS as [HS Hx].
    apply Forall_cons in Hy as [Hyx Hy].
    constructor; [now constructor|]. constructor; [tauto|exact Hx].
  - auto.
Qed.

Lemma comparable_lookup l i j x y :
  comparable getk better l -> l !! i = Some x -> l !! j = Some y -> i <> j ->
  B x y \/ B y x.
Proof.
  unfold comparable. intros HS. revert i j.
  induction HS as [|a l HS IH Ha]; intros i j Hi Hj Hne; [discriminate|].
  rewrite Forall_forall in Ha.
  destruct i as [|i], j as [|j]; simpl in *.
  - congruence.
  - injection Hi as <-. apply Ha. eapply list_elem_of_lookup_2. exact Hj.
  - injection Hj as <-. destruct (Ha x); [|tauto..].
    eapply list_elem_of_lookup_2. exact Hi.
  - eapply IH; eauto.
Qed.

Lemma sel_inner_shift pre suf js m :
  sel_inner getk better (pre ++ suf) (Nat.add (length pre) <$> js)
            (length pre + m)
  = Nat.add (length pre) <$> sel_inner getk better suf js m.
Proof.
  revert m. induction js as [|j js IH]; intros m; csimpl; [reflexivity|].
  rewrite !lookup_app_r by lia.
  replace (length pre + j - length pre)%nat with j by lia.
  replace (length pre + m - length pre)%nat with m by lia.
  destruct (suf !! j ≫= getk) as [kj|]; simpl; [|reflexivity].
  destruct (suf !! m ≫= getk) as [km|]; simpl; [|reflexivity].
  destruct (better kj km); apply IH.
Qed.

Lemma sel_inner_at pre suf n :
  sel_inner getk better (pre ++ suf) (seq (S (length pre)) n) (length pre)
  = Nat.add (length pre) <$> sel_inner getk better suf (seq 1 n) 0%nat.
Proof.
  rewrite <- sel_inner_shift, fmap_add_seq, Nat.add_1_r, Nat.add_0_r.
  reflexivity.
Qed.

Lemma sel_inner_best suf :
  Forall (has_key getk) suf ->
  forall js m, (m < length suf)%nat -> Forall (fun j => (j < length suf)%nat) js ->
  exists m', sel_inner getk better suf js m = Some m' /\
    (m' < length suf)%nat /\
    (comparable getk better suf ->
     forall j y c, In j (m :: js) -> j <> m' ->
       suf !! j = Some y -> suf !! m' = Some c -> B c y).
Proof.
  intros Hk. induction js as [|j js IH]; intros m Hm Hjs.
  - exists m. split; [reflexivity|]. split; [exact Hm|].
    intros _ j y c [->|[]] Hne. congruence.
  - apply Forall_cons in Hjs as [Hj Hjs]. simpl.
    destruct (lookup_lt_is_Some_2 suf j Hj) as [xj Hxj].
    destruct (lookup_lt_is_Some_2 suf m Hm) as [xm Hxm].
    rewrite Forall_forall in Hk.
    destruct (Hk xj (list_elem_of_lookup_2 _ _ _ Hxj)) as [kj Hkj].
    destruct (Hk xm (list_elem_of_lookup_2 _ _ _ Hxm)) as [km Hkm].
    rewrite Hxj, Hxm. simpl. rewrite Hkj, Hkm. simpl.
    destruct (better kj km) eqn:Hb.
    + destruct (IH j Hj Hjs) as (m' & E & Hlt & Hbest).
      exists m'. split; [exact E|]. split; [exact Hlt|].
      intros HC q y c Hq Hne Hy Hc.
      destruct Hq as [<-|Hq]; [|now apply (Hbest HC q y c)].
      (* q = m: the old candidate, beaten by j *)
      assert (Bjm : B xj xm) by (unfold before; now rewrite Hkj, Hkm).
      rewrite Hxm in Hy. injection Hy as <-.
      destruct (Nat.eq_dec j m') as [->|Hjm].
      * rewrite Hxj in Hc. injection Hc as <-. exact Bjm.
      * eapply before_trans; [|exact Bjm].
        apply (Hbest HC j xj c); [now left|exact Hjm|exact Hxj|exact Hc].
    + destruct (IH m Hm Hjs) as (m' & E & Hlt & Hbest).
      exists m'. split; [exact E|]. split; [exact Hlt|].
      intros HC q y c Hq Hne Hy Hc.
      destruct Hq as [<-|[<-|Hq]].
      * apply (Hbest HC m y c); [now left|exact Hne|exact Hy|exact Hc].
      * (* q = j, not better than m *)
        rewrite Hxj in Hy. injection Hy as <-.
        destruct (Nat.eq_dec j m) as [->|Hjm].
        { apply (Hbest HC m xj c); [now left|exact Hne|exact Hxj|exact Hc]. }
        assert (Bmj : B xm xj).
        { destruct (comparable_lookup suf j m xj xm HC Hxj Hxm Hjm) as [Bj|Bm];
            [|exact Bm].
          unfold before in Bj. rewrite Hkj, Hkm in Bj. congruence. }
        destruct (Nat.eq_dec m m') as [->|Hmm].
        { rewrite Hxm in Hc. injection Hc as <-. exact Bmj. }
        eapply before_trans; [|exact Bmj].
        apply (Hbest HC m xm c); [now left|exact Hmm|exact Hxm|exact Hc].
      * apply (Hbest HC q y c); [now right|exact Hne|exact Hy|exact Hc].
Qed.

Lemma swap_app_r pre suf a b :
  swap (pre ++ suf) (length pre + a) (length pre + b) = pre ++ swap suf a b.
Proof.
  unfold swap. rewrite !lookup_app_r by lia.
  replace (length pre + a - length pre)%nat with a by lia.
  replace (length pre + b - length pre)%nat with b by lia.
  destruct (suf !! a) as [x|]; [|reflexivity].
  destruct (suf !! b) as [y|]; [|reflexivity].
  now rewrite !insert_app_r.
Qed.

Lemma insert_perm (l : list item) m a b :
  l !! m = Some b -> b :: <[m := a]> l ≡ₚ a :: l.
Proof.
  intros H. rewrite insert_take_drop by (eapply lookup_lt_Some; exact H).
  rewrite <- (take_drop_middle l m b H) at 3.
  rewrite !Permutation_middle. rewrite <- !Permutation_middle.
  apply perm_swap.
Qed.

Lemma sel_outer_spec n : forall pre suf,
  length suf = n -> Forall (has_key getk) suf ->
  exists suf',
    sel_outer getk better (seq (length pre) n) (pre ++ suf)
    = Some (pre ++ suf') /\
    suf' ≡ₚ suf /\
    (comparable getk better suf -> StronglySorted B suf').
Proof.
  induction n as [|n IH]; intros pre suf Hlen Hk.
  - destruct suf; [|discriminate]. exists []. simpl.
    split; [reflexivity|]. split; [reflexivity|]. constructor.
  - destruct suf as [|a rest]; [discriminate|]. simpl in Hlen.
    injection Hlen as Hlen. simpl seq. simpl sel_outer.
    rewrite length_app. simpl length.
    replace (length pre + S (length rest) - S (length pre))%nat
      with (length rest) by lia.
    rewrite (sel_inner_at pre (a :: rest) (length rest)).
    destruct (sel_inner_best (a :: rest) Hk (seq 1 (length rest)) 0%nat)
      as (m & E & Hm & Hbest).
    { simpl. lia. }
    { apply Forall_forall. intros j Hj. apply list_elem_of_In, in_seq in Hj.
      simpl. lia. }
    rewrite E. simpl.
    replace (swap (pre ++ a :: rest) (length pre) (length pre + m))
      with (pre ++ swap (a :: rest) 0 m)
      by (rewrite <- swap_app_r; f_equal; lia).
    assert (Hsw : exists c rest', swap (a :: rest) 0 m = c :: rest' /\
              c :: rest' ≡ₚ a :: rest /\ length rest' = length rest /\
              (comparable getk better (a :: rest) -> Forall (B c) rest')).
    { destruct m as [|m'].
      - exists a, rest. unfold swap. simpl.
        split; [reflexivity|]. split; [reflexivity|]. split; [reflexivity|].
        intros HC. apply Forall_forall. intros y Hy.
        apply list_elem_of_lookup in Hy as [q Hq].
        apply (Hbest HC (S q) y a); [|lia|exact Hq|reflexivity].
        right. apply in_seq. apply lookup_lt_Some in Hq. lia.
      - simpl in Hm.
        destruct (lookup_lt_is_Some_2 rest m' ltac:(lia)) as [b Hb].
        exists b, (<[m' := a]> rest). unfold swap. simpl. rewrite Hb. simpl.
        split; [reflexivity|]. split; [now apply insert_perm|].
        split; [apply length_insert|].
        intros HC. apply Forall_forall. intros y Hy.
        apply list_elem_of_lookup in Hy as [q Hq].
        destruct (Nat.eq_dec q m') as [->|Hqm].
        + rewrite list_lookup_insert_eq in Hq by lia. injection Hq as <-.
          apply (Hbest HC 0%nat a b); [now left|lia|reflexivity|exact Hb].
        + rewrite list_lookup_insert_ne in Hq by congruence.
          apply (Hbest HC (S q) y b); [|lia|exact Hq|exact Hb].
          right. apply in_seq. apply lookup_lt_Some in Hq. lia. }
    destruct Hsw as (c & rest' & Esw & HP & Hl' & HB).
    rewrite Esw.
    assert (Hk' : Forall (has_key getk) rest').
    { assert (Hall : Forall (has_key getk) (c :: rest')) by now rewrite HP.
      now apply Forall_cons in Hall as [_ ?]. }
    destruct (IH (pre ++ [c]) rest' ltac:(lia) Hk') as (suf' & Eo & HP' & HS').
    rewrite length_app in Eo. simpl in Eo.
    rewrite Nat.add_1_r in Eo. rewrite <- app_assoc in Eo. simpl in Eo.
    exists (c :: suf'). split.
    { rewrite Eo. now rewrite <- app_assoc. }
    split; [now rewrite HP', HP|].
    intros HC.
    assert (HC' : comparable getk better (c :: rest')).
    { eapply comparable_perm; [symmetry; exact HP|exact HC]. }
    constructor.
    + apply HS'. now apply StronglySorted_inv in HC' as [? _].
    + rewrite HP'. now apply HB.
Qed.

Lemma selection_sort_spec arr :
  Forall (has_key getk) arr ->
  exists out, selection_sort getk better arr = Some out /\
    out ≡ₚ arr /\
    (comparable getk better arr -> StronglySorted B out).
Proof.
  intros Hk. unfold selection_sort.
  exact (sel_outer_spec (length arr) [] arr eq_refl Hk).
Qed.

Hypothesis better_asym :
  forall a b, better a b = true -> better b a = true -> False.

Lemma before_asym x y : B x y -> B y x -> False.
Proof.
  unfold before. destruct (getk x), (getk y); try tauto. apply better_asym.
Qed.

Lemma sorted_comparable l : StronglySorted B l -> comparable getk better l.
Proof.
  unfold comparable. induction 1 as [|x l Hs IH Hx]; constructor; [exact IH|].
  eapply Forall_impl; [exact Hx|]. intros y Hy. now left.
Qed.

(** A list with a strictly sorted permutation is sorted to exactly it. *)
Lemma selection_sort_unique l l0 :
  Forall (has_key getk) l -> l ≡ₚ l0 -> StronglySorted B l0 ->
  selection_sort getk better l = Some l0.
Proof.
  intros Hk HP HS.
  destruct (selection_sort_spec l Hk) as (out & E & HPo & HSo).
  rewrite E. f_equal.
  apply (PercentileFacts.sorted_perm_unique B).
  - intros x y _ _ Hxy Hyx. destruct (before_asym x y Hxy Hyx).
  - apply HSo. eapply comparable_perm; [symmetry; exact HP|].
    now apply sorted_comparable.
  - exact HS.
  - now rewrite HPo.
Qed.

End Generic.

End SelectionFacts.

(** ** The aggregation pass and the per-minute buckets *)

Module BucketFacts.
Import Models Obs ObsSpec SelectionFacts.

Lemma minute_unix_shift now i :
  minute_unix (now - i * minute_ns) = minute_unix now - 60 * i.
Proof.
  unfold minute_unix.
  replace (now - i * minute_ns) with (now + (- i) * minute_ns) by lia.
  rewrite Z.div_add by (unfold minute_ns; lia). lia.
Qed.

Lemma lookup_keyed (f : Z -> bucket) ks m :
  (list_to_map ((fun k => (k, f k)) <$> ks) : gmap Z bucket) !! m
  = if decide (m ∈ ks) then Some (f m) else None.
Proof.
  induction ks as [|k ks IH]; csimpl.
  - rewrite lookup_empty. destruct (decide (m ∈ [])) as [H|H]; [|reflexivity].
    now apply elem_of_nil in H.
  - destruct (decide (k = m)) as [->|Hne].
    + rewrite lookup_insert_eq.
      destruct (decide (m ∈ m :: ks)) as [H|H]; [reflexivity|].
      exfalso. apply H. left.
    + rewrite lookup_insert_ne by exact Hne. rewrite IH.
      destruct (decide (m ∈ ks)) as [H|H], (decide (m ∈ k :: ks)) as [H'|H'];
        try reflexivity.
      * exfalso. apply H'. now right.
      * exfalso. apply elem_of_cons in H' as [->|H']; [congruence|tauto].
Qed.

Lemma seed_buckets_keyed now :
  seed_buckets now
  = list_to_map ((fun m => (m, mkBucket 0 0)) <$> minutes now).
Proof.
  unfold seed_buckets, minutes. cbn [seq map fmap list_fmap fold_left list_to_map foldr].
  rewrite !minute_unix_shift. cbn [Z.of_nat Pos.of_succ_nat Pos.succ].
  repeat (f_equal; try lia).
Qed.

Lemma minutes_sorted now : StronglySorted Z.lt (minutes now).
Proof.
  unfold minutes. cbn [seq fmap list_fmap].
  repeat (constructor; [|repeat (constructor; try lia)]). constructor.
Qed.

Lemma sorted_lt_NoDup l : StronglySorted Z.lt l -> NoDup l.
Proof.
  induction 1 as [|x l Hs IH Hx]; constructor; [|exact IH].
  intros Hin. rewrite Forall_forall in Hx.
  specialize (Hx x Hin). lia.
Qed.

Lemma minutes_NoDup now : NoDup (minutes now).
Proof. apply sorted_lt_NoDup, minutes_sorted. Qed.

Lemma minutes_length now : length (minutes now) = 12%nat.
Proof. reflexivity. Qed.

Lemma count_in_snoc trs t m :
  count_in (trs ++ [t]) m = count_in trs m + (if in_minute m t then 1 else 0).
Proof.
  unfold count_in. rewrite List.filter_app, length_app. simpl.
  destruct (in_minute m t); simpl; lia.
Qed.

Lemma errors_in_snoc trs t m :
  errors_in (trs ++ [t]) m
  = errors_in trs m + (if in_minute m t && (Status t >=? 400) then 1 else 0).
Proof.
  unfold errors_in. rewrite List.filter_app, length_app. simpl.
  destruct (in_minute m t && (Status t >=? 400)); simpl; lia.
Qed.

Lemma aggregate_snoc em now trs t :
  aggregate em now (trs ++ [t]) = agg_step em (aggregate em now trs) t.
Proof. unfold aggregate. now rewrite fold_left_app. Qed.

Lemma buckets_lookup em now trs m :
  buckets (aggregate em now trs) !! m
  = if decide (m ∈ minutes now)
    then Some (mkBucket (count_in trs m) (errors_in trs m)) else None.
Proof.
  induction trs as [|t trs IH] using rev_ind.
  - unfold aggregate. simpl. rewrite seed_buckets_keyed.
    apply (lookup_keyed (fun _ => mkBucket 0 0)).
  - rewrite aggregate_snoc. unfold agg_step. simpl buckets.
    rewrite count_in_snoc, errors_in_snoc. unfold in_minute.
    destruct (buckets (aggregate em now trs) !! minute_unix (Started t))
      as [b|] eqn:Eb.
    + destruct (decide (minute_unix (Started t) = m)) as [E|Hne].
      * subst m. rewrite lookup_insert_eq. rewrite IH in Eb.
        destruct (decide (minute_unix (Started t) ∈ minutes now)); [|discriminate].
        injection Eb as <-. simpl. rewrite Z.eqb_refl. simpl.
        destruct (Status t >=? 400); f_equal; f_equal; lia.
      * rewrite lookup_insert_ne by exact Hne. rewrite IH.
        apply Z.eqb_neq in Hne. rewrite Hne. simpl.
        destruct (decide (m ∈ minutes now)); [|reflexivity].
        do 2 f_equal; lia.
    + rewrite IH.
      destruct (decide (m ∈ minutes now)) as [Hin|]; [|reflexivity].
      destruct (Z.eqb_spec (minute_unix (Started t)) m) as [E|Hne].
      * subst m. rewrite IH in Eb.
        destruct (decide (minute_unix (Started t) ∈ minutes now));
          [discriminate|tauto].
      * simpl. do 2 f_equal; lia.
Qed.

Lemma buckets_expected em now trs :
  buckets (aggregate em now trs) = list_to_map (expected_buckets now trs).
Proof.
  apply map_eq. intros m. rewrite buckets_lookup. unfold expected_buckets.
  symmetry.
  apply (lookup_keyed (fun m => mkBucket (count_in trs m) (errors_in trs m))).
Qed.

Lemma expected_fst now trs : (expected_buckets now trs).*1 = minutes now.
Proof.
  unfold expected_buckets. rewrite <- list_fmap_compose.
  apply list_fmap_id.
Qed.

Lemma buckets_perm em now trs :
  map_to_list (buckets (aggregate em now trs)) ≡ₚ expected_buckets now trs.
Proof.
  rewrite buckets_expected. apply map_to_list_to_map.
  rewrite expected_fst. apply minutes_NoDup.
Qed.

Lemma minute_item_ts tb : getk_ts (minute_item tb) = Some (fst tb).
Proof.
  unfold getk_ts, minute_item.
  rewrite !lookup_insert_ne by done. now rewrite lookup_singleton_eq.
Qed.

Lemma minute_items_sorted l :
  StronglySorted Z.lt (l.*1) ->
  StronglySorted (before getk_ts earlier) (minute_item <$> l).
Proof.
  induction l as [|a l IH]; csimpl; intros HS; [constructor|].
  apply StronglySorted_inv in HS as [HS Ha].
  constructor; [now apply IH|].
  apply Forall_fmap. rewrite Forall_fmap in Ha.
  eapply Forall_impl; [exact Ha|]. intros b Hb. simpl in Hb.
  unfold before. rewrite !minute_item_ts. unfold earlier. now apply Z.ltb_lt.
Qed.

Lemma sort_perMinute_expected em now trs bit :
  bit ≡ₚ map_to_list (buckets (aggregate em now trs)) ->
  sort_perMinute (minute_item <$> bit)
  = Some (minute_item <$> expected_buckets now trs).
Proof.
  intros HP. unfold sort_perMinute.
  apply (selection_sort_unique getk_ts earlier).
  - unfold earlier. intros a b c H1%Z.ltb_lt H2%Z.ltb_lt. apply Z.ltb_lt. lia.
  - unfold earlier. intros a b H1%Z.ltb_lt H2%Z.ltb_lt. lia.
  - apply Forall_fmap, Forall_forall. intros tb _. unfold has_key. simpl.
    rewrite minute_item_ts. eauto.
  - apply fmap_Permutation. now rewrite HP, buckets_perm.
  - apply minute_items_sorted. rewrite expected_fst. apply minutes_sorted.
Qed.

End BucketFacts.

(** ** Rendering the summary *)

Module RenderFacts.
Import Models Obs ObsSpec SelectionFacts BucketFacts FloatOrder.

Lemma higher_trans a b c :
  higher a b = true -> higher b c = true -> higher a c = true.
Proof. unfold higher. intros H1 H2. exact (ltb_trans c b a H2 H1). Qed.

Lemma higher_asym a b : higher a b = true -> higher b a = true -> False.
Proof. unfold higher. intros H1 H2. exact (ltb_asym b a H1 H2). Qed.

Lemma collect_spec it : forall s e,
  collect it s e = (s ++ slow_of it, e ++ errs_of it).
Proof.
  induction it as [|[path ag] it IH]; intros s e; simpl.
  - now rewrite !app_nil_r.
  - destruct (Count ag =? 0); [apply IH|].
    rewrite IH.
    destruct (Count ag >=? 3), (Errs ag >? 0); simpl;
      now rewrite <- ?app_assoc.
Qed.

Lemma slow_item_key path ag :
  getk_f "p95Ms" (slow_item path ag) = Some (percentile (Lats ag) 95).
Proof. unfold getk_f, slow_item. now rewrite lookup_insert_eq. Qed.

Lemma error_item_key path ag :
  getk_f "count" (normalize_count (error_item path ag))
  = Some (float_of_Z (Errs ag)).
Proof.
  unfold getk_f, normalize_count.
  assert (E : error_item path ag !! "count" = Some (AInt (Errs ag))).
  { unfold error_item. rewrite !lookup_insert_ne by done.
    now rewrite lookup_insert_eq. }
  rewrite E. now rewrite lookup_insert_eq.
Qed.

Lemma slow_of_keys it : Forall (has_key (getk_f "p95Ms")) (slow_of it).
Proof.
  unfold slow_of. apply Forall_forall. intros x Hx.
  apply list_elem_of_In, in_flat_map in Hx as ([path ag] & _ & Hx). simpl in Hx.
  destruct (Count ag =? 0); [destruct Hx|].
  destruct (Count ag >=? 3); [|destruct Hx].
  destruct Hx as [<-|[]]. unfold has_key. rewrite slow_item_key. eauto.
Qed.

Lemma errs_of_keys it :
  Forall (has_key (getk_f "count")) (normalize_count <$> errs_of it).
Proof.
  apply Forall_fmap. unfold errs_of. apply Forall_forall. intros x Hx.
  apply list_elem_of_In, in_flat_map in Hx as ([path ag] & _ & Hx). simpl in Hx.
  destruct (Count ag =? 0); [destruct Hx|].
  destruct (Errs ag >? 0); [|destruct Hx].
  destruct Hx as [<-|[]]. unfold has_key. simpl. rewrite error_item_key. eauto.
Qed.

Lemma sortBy_total arr key :
  Forall (has_key (getk_f key)) arr ->
  exists out, sortBy arr key = Some out /\ out ≡ₚ arr.
Proof.
  intros Hk.
  destruct (selection_sort_spec (getk_f key) higher higher_trans arr Hk)
    as (out & E & HP & _).
  exists out. split; [exact E|exact HP].
Qed.

(** [render] always produces a summary, whose unranked parts do not depend
    on the iteration orders. *)
Lemma render_total em now trs pit bit :
  bit ≡ₚ map_to_list (buckets (aggregate em now trs)) ->
  exists out, render (aggregate em now trs) pit bit = Some out /\
    recentLatencies out = lat (aggregate em now trs) /\
    out_statusCounts out = statusCounts (aggregate em now trs) /\
    perMinute out = minute_item <$> expected_buckets now trs.
Proof.
  intros Hb. unfold render. rewrite collect_spec. simpl.
  destruct (sortBy_total (slow_of pit) "p95Ms" (slow_of_keys pit))
    as (slow & Es & _).
  destruct (sortBy_total (normalize_count <$> errs_of pit) "count"
              (errs_of_keys pit)) as (errs & Ee & _).
  rewrite Es. simpl. rewrite Ee. simpl.
  rewrite (sort_perMinute_expected em now trs bit Hb). simpl.
  eexists. split; [reflexivity|]. simpl. auto.
Qed.

Lemma count_in_empty trs m :
  (forall t, t ∈ trs -> minute_unix (Started t) <> m) ->
  count_in trs m = 0 /\ errors_in trs m = 0.
Proof.
  intros H. unfold count_in, errors_in.
  assert (E1 : List.filter (in_minute m) trs = []).
  { induction trs as [|t trs IH]; [reflexivity|]. simpl.
    unfold in_minute at 1.
    destruct (Z.eqb_spec (minute_unix (Started t)) m) as [E|_].
    - destruct (H t); [left|exact E].
    - apply IH. intros t' Ht'. apply H. now right. }
  assert (E2 : List.filter (fun t => in_minute m t && (Status t >=? 400)) trs = []).
  { induction trs as [|t trs IH]; [reflexivity|]. simpl.
    unfold in_minute at 1.
    destruct (Z.eqb_spec (minute_unix (Started t)) m) as [E|_].
    - destruct (H t); [left|exact E].
    - simpl in *. apply IH.
      + intros t' Ht'. apply H. now right.
      + destruct (in_minute m t) eqn:Ei; [|exact E1].
        discriminate. }
  now rewrite E1, E2.
Qed.

(** C5.  [obsSummary] has a run on every window and no run of it panics
    (every type assertion of the sorts is met and the index [percentile]
    reads is inside the sample); the per-minute list of every result has
    exactly 12 buckets, one for each of the last 12 minutes in ascending
    order, whose count and errors are the numbers of traces (and of traces
    with status >= 400) started in that minute: zero when no trace falls
    in it. *)
Theorem obsSummary_never_fails (em : string -> option string) (now : Z)
        (trs : list TraceRow) :
  (exists out, obsSummary em now trs (Some out)) /\
  ~ obsSummary em now trs None /\
  (forall len p, 1 <= len -> 0 <= percentile_index len p < len) /\
  forall out, obsSummary em now trs (Some out) ->
    length (perMinute out) = 12%nat /\
    perMinute out = minute_item <$> expected_buckets now trs /\
    (expected_buckets now trs).*1 = minutes now /\
    StronglySorted Z.lt (minutes now) /\
    forall m, m ∈ minutes now ->
      (forall t, t ∈ trs -> minute_unix (Started t) <> m) ->
      (m, mkBucket 0 0) ∈ expected_buckets now trs.
Proof.
  split; [|split; [|split; [apply PercentileFacts.percentile_index_range|]]].
  - destruct (render_total em now trs
                (map_to_list (paths (aggregate em now trs)))
                (map_to_list (buckets (aggregate em now trs)))
                ltac:(reflexivity)) as (out & E & _).
    exists out, (map_to_list (paths (aggregate em now trs))),
           (map_to_list (buckets (aggregate em now trs))).
    split; [reflexivity|]. split; [reflexivity|]. now symmetry.
  - intros (pit & bit & _ & Hb & E).
    destruct (render_total em now trs pit bit Hb) as (out & E' & _).
    congruence.
  - intros out (pit & bit & _ & Hb & E).
    destruct (render_total em now trs pit bit Hb) as (out' & E' & _ & _ & Hpm).
    assert (out' = out) by congruence. subst out'.
    split; [|split; [exact Hpm|split; [apply expected_fst|split]]].
    + rewrite Hpm, length_fmap. unfold expected_buckets.
      now rewrite length_fmap, minutes_length.
    + apply minutes_sorted.
    + intros m Hm Hnone.
      destruct (count_in_empty trs m Hnone) as [<- <-].
      unfold expected_buckets. apply list_elem_of_fmap.
      exists m. split; [|exact Hm].
      destruct (count_in_empty trs m Hnone) as [E1 E2].
      now rewrite !E1, !E2.
Qed.

End RenderFacts.

(** ** Reproducibility of the summary *)

Module OrderFacts.
Import Models Obs ObsSpec SelectionFacts BucketFacts RenderFacts FloatOrder.

Lemma strictly_ranked_comparable key l :
  Forall (has_key (getk_f key)) l -> no_ties key l = true ->
  comparable (getk_f key) higher l.
Proof.
  unfold no_ties, comparable. induction l as [|x l IH]; intros Hk Hr.
  - constructor.
  - apply Forall_cons in Hk as [[kx Hx] Hk]. simpl in Hr. rewrite Hx in Hr.
    simpl in Hr. apply andb_true_iff in Hr as [Hx' Hr].
    constructor; [now apply IH|].
    rewrite forallb_forall in Hx'.
    apply Forall_forall. intros y Hy.
    rewrite Forall_forall in Hk. destruct (Hk y Hy) as [ky Hky].
    assert (Hin : In ky (omap (getk_f key) l)).
    { apply list_elem_of_In, list_elem_of_omap. eauto. }
    specialize (Hx' ky Hin). apply orb_true_iff in Hx'.
    unfold before, higher. rewrite Hx, Hky. tauto.
Qed.

Lemma sortBy_perm_invariant key l l' :
  Forall (has_key (getk_f key)) l -> no_ties key l = true -> l' ≡ₚ l ->
  sortBy l' key = sortBy l key.
Proof.
  intros Hk Hr HP.
  pose proof (strictly_ranked_comparable key l Hk Hr) as HC.
  destruct (selection_sort_spec (getk_f key) higher higher_trans l Hk)
    as (out & E & HPo & HSo).
  unfold sortBy. fold (getk_f key). fold higher. rewrite E.
  apply (selection_sort_unique (getk_f key) higher higher_trans higher_asym).
  - now rewrite HP.
  - now rewrite HP, HPo.
  - now apply HSo.
Qed.

Lemma slow_of_perm it it' : it ≡ₚ it' -> slow_of it ≡ₚ slow_of it'.
Proof. apply Permutation_flat_map. Qed.

Lemma errs_of_perm it it' : it ≡ₚ it' -> errs_of it ≡ₚ errs_of it'.
Proof. apply Permutation_flat_map. Qed.

Lemma slow_candidates_spec a : slow_candidates a = slow_of (map_to_list (paths a)).
Proof. unfold slow_candidates. now rewrite collect_spec. Qed.

Lemma error_candidates_spec a :
  error_candidates a = normalize_count <$> errs_of (map_to_list (paths a)).
Proof. unfold error_candidates. now rewrite collect_spec. Qed.

Lemma render_canonical em now trs pit bit :
  let a := aggregate em now trs in
  no_ties "p95Ms" (slow_candidates a) = true ->
  no_ties "count" (error_candidates a) = true ->
  pit ≡ₚ map_to_list (paths a) -> bit ≡ₚ map_to_list (buckets a) ->
  render a pit bit
  = render a (map_to_list (paths a)) (map_to_list (buckets a)).
Proof.
  intros a Hs He Hp Hb. unfold render. rewrite !collect_spec. simpl.
  rewrite slow_candidates_spec in Hs. rewrite error_candidates_spec in He.
  rewrite (sortBy_perm_invariant "p95Ms" _ (slow_of pit)
             (slow_of_keys _) Hs (slow_of_perm _ _ Hp)).
  rewrite (sortBy_perm_invariant "count" _ (normalize_count <$> errs_of pit)
             (errs_of_keys _) He
             (fmap_Permutation _ _ _ (errs_of_perm _ _ Hp))).
  unfold a.
  rewrite (sort_perMinute_expected em now trs bit Hb).
  rewrite (sort_perMinute_expected em now trs _ ltac:(reflexivity)).
  reflexivity.
Qed.

(** C6 (as amended).  Whatever order the runtime iterates the maps in, all
    runs over one window agree on the latencies, the status histogram and
    the per-minute buckets; when no two candidates of a ranking compare
    equal on its key, all runs agree on the whole output. *)
Theorem obsSummary_reproducible (em : string -> option string) (now : Z)
        (trs : list TraceRow) :
  let a := aggregate em now trs in
  (forall o1 o2, obsSummary em now trs (Some o1) ->
                 obsSummary em now trs (Some o2) ->
     recentLatencies o1 = recentLatencies o2 /\
     out_statusCounts o1 = out_statusCounts o2 /\
     perMinute o1 = perMinute o2) /\
  (no_ties "p95Ms" (slow_candidates a) = true ->
   no_ties "count" (error_candidates a) = true ->
   reproducible em now trs).
Proof.
  intros a. split.
  - intros o1 o2 (p1 & b1 & _ & Hb1 & E1) (p2 & b2 & _ & Hb2 & E2).
    destruct (render_total em now trs p1 b1 Hb1) as (x1 & X1 & L1 & S1 & M1).
    destruct (render_total em now trs p2 b2 Hb2) as (x2 & X2 & L2 & S2 & M2).
    simpl in E1, E2. rewrite X1 in E1. rewrite X2 in E2.
    injection E1 as ->. injection E2 as ->.
    now rewrite L1, L2, S1, S2, M1, M2.
  - intros Hs He o1 o2 (p1 & b1 & Hp1 & Hb1 & E1) (p2 & b2 & Hp2 & Hb2 & E2).
    rewrite E1, E2.
    rewrite (render_canonical em now trs p1 b1 Hs He Hp1 Hb1).
    now rewrite (render_canonical em now trs p2 b2 Hs He Hp2 Hb2).
Qed.

Lemma obsSummary_reproducible_witness :
  reproducible no_messages 600000000005 window_ranked.
Proof.
  apply (obsSummary_reproducible no_messages 600000000005 window_ranked);
    vm_compute; reflexivity.
Defined.

(** C6, the claim as stated, fails on a window where two paths tie: the
    run that iterates [paths] in one order lists ["/a"] first, the run that
    iterates it in the reverse order lists ["/b"] first. *)
Lemma obsSummary_order_counterexample :
  ~ reproducible no_messages 600000000005 window_tie.
Proof.
  intros H.
  set (a := aggregate no_messages 600000000005 window_tie).
  specialize (H (render a (map_to_list (paths a)) (map_to_list (buckets a)))
                (render a (rev (map_to_list (paths a)))
                        (map_to_list (buckets a)))).
  assert (E : first_slow_path
                (render a (map_to_list (paths a)) (map_to_list (buckets a)))
              = first_slow_path
                  (render a (rev (map_to_list (paths a)))
                          (map_to_list (buckets a)))).
  { f_equal. apply H.
    - exists (map_to_list (paths a)), (map_to_list (buckets a)). auto.
    - exists (rev (map_to_list (paths a))), (map_to_list (buckets a)).
      split; [symmetry; apply Permutation_rev|]. auto. }
  vm_compute in E. discriminate.
Qed.

End OrderFacts.

(** ** The tracing middleware *)

Module TraceFacts.
Import Tracing TraceSpec.


Lemma ServeHTTP_total h : well_behaved h ->
  forall rec t, exists rec' t', ServeHTTP h rec t = Some (rec', t').
Proof.
  induction 1 as [|a h Ha Hh IH]; intros rec t; simpl.
  - eauto.
  - destruct a as [c|n|now name fields|]; try apply IH; [|destruct Ha].
    unfold WriteHeader, inner_WriteHeader. simpl. rewrite Ha. simpl. apply IH.
Qed.

Lemma finish_fields t rec i :
  Status (finish t rec i) = code rec /\
  RespBytes (finish t rec i) = bytes rec /\
  Ended (finish t rec i) = i_ended i /\
  Started (finish t rec i) = Started t /\
  Duration (finish t rec i) = i_ended i - Started t /\
  Events (finish t rec i)
  = Events t ++ [mkTraceEvent (i_end_event i) "request.end"
                   (<["respBytes" := AInt64 (bytes rec)]>
                      {["status" := AInt (code rec)]})].
Proof. unfold finish. simpl. repeat split. Qed.

Lemma init_level_logs_errors lvl : DB.Error <= DB.init_level lvl.
Proof.
  unfold DB.init_level, DB.Error, DB.Info, DB.Warn.
  destruct (String.eqb lvl "debug"); [lia|].
  destruct (String.eqb lvl "error" || String.eqb lvl "fatal"); lia.
Qed.


Section WithMarshal.
Variable marshal : gmap string any -> string.


Lemma middleware_Some logger r i h w st st' resp t :
  middleware marshal logger r i h w st = Some (st', resp, t) ->
  exists rec t1,
    ServeHTTP h (mkRecorder (with_trace_headers w i) 200 0) (begin_trace r i)
    = Some (rec, t1) /\
    t = finish t1 rec i /\ resp = inner rec /\
    st' = mkWorld
            (Logging.write logger (i_logged i) "info" "http_request"
               (request_log t)
               (snd (persistTrace marshal t (i_outcomes i) (db st) (logs st))))
            (fst (persistTrace marshal t (i_outcomes i) (db st) (logs st)))
            (add t (traces st))
            (count_trace t (count_request (stats st))).
Proof.
  unfold middleware. intros H.
  destruct (ServeHTTP h (mkRecorder (with_trace_headers w i) 200 0)
              (begin_trace r i)) as [[rec t1]|]; [|discriminate].
  simpl in H.
  destruct (persistTrace marshal (finish t1 rec i) (i_outcomes i) (db st)
              (logs st)) as [db' logs'] eqn:Ep.
  injection H as <- <- <-. exists rec, t1. rewrite Ep. auto.
Qed.

Lemma middleware_total logger r i h w st :
  well_behaved h ->
  exists st' resp t, middleware marshal logger r i h w st = Some (st', resp, t).
Proof.
  intros Hh. unfold middleware.
  destruct (ServeHTTP_total h Hh (mkRecorder (with_trace_headers w i) 200 0)
              (begin_trace r i)) as (rec & t1 & E).
  rewrite E. simpl.
  destruct (persistTrace marshal (finish t1 rec i) (i_outcomes i) (db st)
              (logs st)) as [db' logs'].
  eauto.
Qed.



End WithMarshal.

Lemma sample_well_behaved : well_behaved health_handler.
Proof. repeat constructor. Qed.



End TraceFacts.

(** ** The transfer engine *)

Module TransferFacts.
Import Transfer TransferSpec.

Lemma tick_is_progress transferred total :
  is_progress (tick_frame transferred total).
Proof. unfold tick_frame, is_progress. eauto. Qed.

Lemma ticks_progress n transferred total :
  Forall is_progress (ticks n transferred total).
Proof.
  unfold ticks. apply Forall_forall. intros f Hf.
  apply elem_of_replicate in Hf as [-> _]. apply tick_is_progress.
Qed.

Lemma progress_not_done f : is_progress f -> f !! "done" = None.
Proof.
  intros (p & t & tt & ->). unfold progress_frame.
  rewrite !lookup_insert_ne by done. now rewrite lookup_singleton_ne.
Qed.

Lemma starting_not_done total : starting_frame total !! "done" = None.
Proof.
  unfold starting_frame.
  rewrite !lookup_insert_ne by done. now rewrite lookup_singleton_ne.
Qed.

Lemma error_not_done msg : error_frame msg !! "done" = None.
Proof. unfold error_frame. now rewrite lookup_singleton_ne. Qed.

Lemma run_sched_spec s : forall total transferred remaining frames,
  exists extra,
    snd (run_sched s total transferred remaining frames) = frames ++ extra /\
    Forall is_progress extra /\
    fst (fst (run_sched s total transferred remaining frames))
    + snd (fst (run_sched s total transferred remaining frames))
    = transferred + remaining /\
    (forallb no_tick s = true ->
     extra = []) /\
    (remaining = 0 ->
     fst (fst (run_sched s total transferred remaining frames)) = transferred).
Proof.
  induction s as [|x s IH]; intros total transferred remaining frames.
  - exists []. simpl. rewrite app_nil_r. repeat split; auto.
  - destruct x as [n|]; simpl.
    + destruct (IH total (transferred + Z.max 0 (Z.min n remaining))
                   (remaining - Z.max 0 (Z.min n remaining)) frames)
        as (extra & E1 & E2 & E3 & E4 & E5).
      exists extra. repeat split; auto; try lia.
    + destruct (IH total transferred remaining
                   (frames ++ [tick_frame transferred total]))
        as (extra & E1 & E2 & E3 & E4 & E5).
      exists (tick_frame transferred total :: extra).
      rewrite E1, <- app_assoc. repeat split; auto; try discriminate.
      constructor; [apply tick_is_progress|exact E2].
Qed.

Lemma Upload_spec a o rc total ep bucket key frames :
  let u := Upload a o rc total ep bucket key frames in
  exists extra,
    snd (fst u) = frames ++ extra /\ Forall is_progress extra /\
    match snd u with
    | Some err =>
        fst (fst (fst u)) = o /\ (rc = None \/ a_put a = Some err)
    | None =>
        exists obj, rc = Some obj /\ a_put a = None /\
          fst (fst (fst u)) = <[(ep, bucket, key) := obj]> o /\
          snd (fst (fst u)) = size_of obj
    end /\
    (forallb no_tick (a_sched a) = true -> extra = []).
Proof.
  unfold Upload.
  destruct (run_sched_spec (a_sched a) total 0
              (match rc with Some obj => size_of obj | None => 0 end) frames)
    as (extra & E1 & E2 & E3 & E4 & _).
  destruct (run_sched (a_sched a) total 0
              (match rc with Some obj => size_of obj | None => 0 end) frames)
    as [[transferred remaining] frames'].
  simpl in *. exists extra.
  destruct rc as [obj|]; [destruct (a_put a) as [err|] eqn:Ep|]; simpl;
    repeat split; auto.
  exists obj. repeat split; auto.
Qed.

(** A move that gets as far as the upload. *)
Lemma move_after_open (a : answers) (c : cloud) (q : request)
        (b : body) (src dst : string) (calls : list s3call)
        (rc : option string) (total : Z) :
  reaches a c q b src dst calls rc total ->
  let r := moveObject a c q in
  let u := Upload a (objs c) rc total dst (DstBucket b) (dst_key b)
                  [starting_frame total] in
  let put := PutObject dst (DstBucket b) (dst_key b) in
  let rm := RemoveObject src (q_name q) (SrcKey b) in
  match snd u with
  | Some err =>
      r_objs r = objs c /\
      r_calls r = calls ++ [put] /\
      forallb (fun k => negb (is_remove k)) calls = true /\
      (exists late, frames_of r = snd (fst u) ++ [error_frame err] ++ late /\
                    Forall is_progress late) /\
      Forall (fun f => f !! "done" = None) (frames_of r) /\
      r_events r = []
  | None =>
      exists obj, rc = Some obj /\
      r_calls r = calls ++ [put; rm] /\
      match a_remove a with
      | Some err =>
          r_objs r = <[(dst, DstBucket b, dst_key b) := obj]> (objs c) /\
          (exists pre late, frames_of r = pre ++ [error_frame err] ++ late /\
                            Forall is_progress late) /\
          Forall (fun f => f !! "done" = None) (frames_of r) /\
          r_events r = []
      | None =>
          r_objs r = delete (src, q_name q, SrcKey b)
                       (<[(dst, DstBucket b, dst_key b) := obj]> (objs c)) /\
          (exists pre late,
             frames_of r = pre ++ [done_frame (size_of obj) total] ++ late /\
             Forall is_progress late)
      end
  end.
Proof.
  intros [(pid & Hq & Hpos & Hs & Hd) Hb Hk Ho] r u put rm.
  assert (Hcalls : forallb (fun k => negb (is_remove k)) calls = true).
  { unfold DownloadWithInfo in Ho.
    repeat match type of Ho with
           | context [match ?x with _ => _ end] => destruct x
           end; injection Ho as <- _; reflexivity. }
  pose proof (Upload_spec a (objs c) rc total dst (DstBucket b) (dst_key b)
                [starting_frame total]) as (extra & E1 & E2 & E3 & _).
  fold u in E1, E3.
  assert (Hr : r = moveObject a c q) by reflexivity.
  unfold moveObject, transfer in Hr. rewrite Hq, Hb in Hr.
  replace (pid <=? 0) with false in Hr by (symmetry; lia).
  rewrite Hk, Hs, Hd, Ho in Hr. fold (dst_key b) in Hr. fold u in Hr.
  destruct u as [[[o transferred] frames] uerr]. simpl in *.
  assert (Hfr : Forall (fun f => f !! "done" = None) frames).
  { rewrite E1. constructor; [apply starting_not_done|].
    eapply Forall_impl; [exact E2|]. apply progress_not_done. }
  destruct uerr as [err|].
  - destruct E3 as [-> _]. rewrite Hr. unfold frames_of. simpl.
    repeat split; auto.
    + exists (ticks (a_late a) transferred total).
      split; [reflexivity|apply ticks_progress].
    + apply Forall_app. split; [exact Hfr|].
      constructor; [apply error_not_done|].
      eapply Forall_impl; [apply ticks_progress|]. apply progress_not_done.
  - destruct E3 as (obj & -> & Hput & -> & ->). exists obj.
    split; [reflexivity|].
    unfold DeleteObject in Hr.
    assert (Hticks : forall n, Forall (fun f : frame => f !! "done" = None)
                         (ticks n (size_of obj) total)).
    { intros n. eapply Forall_impl; [apply ticks_progress|].
      apply progress_not_done. }
    destruct (a_remove a) as [err|]; rewrite Hr; unfold frames_of; simpl;
      rewrite <- ?app_assoc.
    + split; [reflexivity|]. split; [reflexivity|]. split; [|split].
      * exists (frames ++ ticks (a_deleting a) (size_of obj) total),
               (ticks (a_late a) (size_of obj) total).
        rewrite <- app_assoc. split; [reflexivity|apply ticks_progress].
      * apply Forall_app. split; [exact Hfr|].
        apply Forall_app. split; [apply Hticks|].
        constructor; [apply error_not_done|apply Hticks].
      * reflexivity.
    + split; [reflexivity|]. split; [reflexivity|].
      exists (frames ++ ticks (a_deleting a) (size_of obj) total),
             (ticks (a_late a) (size_of obj) total).
      rewrite <- app_assoc. split; [reflexivity|apply ticks_progress].
Qed.

Lemma move_request_reaches :
  reaches put_fails cloud_one_object move_request
          (mkBody "a.bin" "out" "" 0) "minio:9000" "minio:9000"
          [StatObject "minio:9000" "in" "a.bin";
           GetObject "minio:9000" "in" "a.bin"]
          (Some "hello") 5.
Proof.
  constructor; try (vm_compute; reflexivity).
  exists 1. repeat split; vm_compute; reflexivity.
Qed.

Lemma move_remove_reaches a c q :
  forallb (fun k => negb (is_remove k)) (r_calls (moveObject a c q)) = false ->
  exists b src dst calls rc total,
    reaches a c q b src dst calls rc total /\
    snd (Upload a (objs c) rc total dst (DstBucket b) (dst_key b)
                [starting_frame total]) = None.
Proof.
  unfold moveObject, transfer.
  destruct (q_id q) as [pid|] eqn:Hq; [|discriminate].
  destruct (pid <=? 0) eqn:Hpos; [discriminate|].
  destruct (q_body q) as [err|b] eqn:Hb; [discriminate|].
  destruct (String.eqb (SrcKey b) "" || String.eqb (DstBucket b) "") eqn:Hk;
    [discriminate|].
  destruct (getClient c pid) as [src|] eqn:Hs; [|discriminate].
  destruct (getClient c (if DstProviderID b =? 0 then pid else DstProviderID b))
    as [dst|] eqn:Hd; [|discriminate].
  destruct (DownloadWithInfo a (objs c) src (q_name q) (SrcKey b))
    as [calls dl] eqn:Ho.
  assert (Hcalls : forallb (fun k => negb (is_remove k)) calls = true).
  { unfold DownloadWithInfo in Ho.
    repeat match type of Ho with
           | context [match ?x with _ => _ end] => destruct x
           end; injection Ho as <- _; reflexivity. }
  destruct dl as [err|[rc total]]; [simpl; congruence|].
  fold (dst_key b).
  destruct (Upload a (objs c) rc total dst (DstBucket b) (dst_key b)
              [starting_frame total]) as [[[o transferred] frames] uerr] eqn:Eu.
  destruct uerr as [err|].
  - simpl. rewrite forallb_app, Hcalls. discriminate.
  - intros _. exists b, src, dst, calls, rc, total.
    split; [|now rewrite Eu].
    constructor; auto. exists pid. repeat split; auto. lia.
Qed.

(** C1.  [moveObject] calls [RemoveObject] only in a run that got as far as
    the upload and whose upload succeeded.  In a run that gets as far as
    the upload: when the upload fails, the stores are left as they were
    (the source object is still there), no [RemoveObject] call is made and
    the stream carries the error frame and no terminal frame; when the
    upload succeeds and the deletion fails, [RemoveObject] was called once,
    after [PutObject], the stream carries the error frame instead of the
    terminal frame, and the stores still hold the copy at the
    destination. *)
Theorem move_deletes_after_upload (a : answers) (c : cloud) (q : request) :
  let r := moveObject a c q in
  (forallb (fun k => negb (is_remove k)) (r_calls r) = false ->
   exists b src dst calls rc total,
     reaches a c q b src dst calls rc total /\
     snd (Upload a (objs c) rc total dst (DstBucket b) (dst_key b)
                 [starting_frame total]) = None) /\
  (forall b src dst calls rc total,
     reaches a c q b src dst calls rc total ->
     let u := Upload a (objs c) rc total dst (DstBucket b) (dst_key b)
                     [starting_frame total] in
     let put := PutObject dst (DstBucket b) (dst_key b) in
     let rm := RemoveObject src (q_name q) (SrcKey b) in
     match snd u with
     | Some err =>
         r_objs r = objs c /\
         r_calls r = calls ++ [put] /\
         forallb (fun k => negb (is_remove k)) calls = true /\
         (exists late, frames_of r = snd (fst u) ++ [error_frame err] ++ late /\
                       Forall is_progress late) /\
         Forall (fun f => f !! "done" = None) (frames_of r) /\
         r_events r = []
     | None =>
         exists obj, rc = Some obj /\
         r_calls r = calls ++ [put; rm] /\
         match a_remove a with
         | Some err =>
             r_objs r = <[(dst, DstBucket b, dst_key b) := obj]> (objs c) /\
             (exists pre late,
                frames_of r = pre ++ [error_frame err] ++ late /\
                Forall is_progress late) /\
             Forall (fun f => f !! "done" = None) (frames_of r) /\
             r_events r = []
         | None =>
             r_objs r = delete (src, q_name q, SrcKey b)
                          (<[(dst, DstBucket b, dst_key b) := obj]> (objs c)) /\
             (exists pre late,
                frames_of r = pre ++ [done_frame (size_of obj) total] ++ late /\
                Forall is_progress late)
         end
     end).
Proof.
  intros r. split.
  - apply move_remove_reaches.
  - intros b src dst calls rc total H.
    exact (move_after_open a c q b src dst calls rc total H).
Qed.

Lemma move_deletes_after_upload_witness :
  r_objs (moveObject put_fails cloud_one_object move_request)
  = objs cloud_one_object.
Proof.
  pose proof (proj2 (move_deletes_after_upload put_fails cloud_one_object
                       move_request) _ _ _ _ _ _ move_request_reaches) as H.
  cbv zeta in H.
  lazymatch type of H with
  | match snd ?u with _ => _ end =>
      assert (E : snd u = Some "put: access denied")
        by (vm_compute; reflexivity);
      rewrite E in H
  end.
  exact (proj1 H).
Defined.








End TransferFacts.

(** ** Subscribers, sinks and the threshold of the event log *)

Module StreamFacts.
Import Logging LogSpec StreamSpec.

Lemma offered_cons e es q : offered es (try_send e q) = offered (e :: es) q.
Proof.
  unfold offered, try_send.
  destruct (Nat.ltb_spec (length q) chan_cap) as [Hlt|Hge].
  - rewrite length_app. simpl length.
    replace (chan_cap - length q)%nat with (S (chan_cap - (length q + 1)))%nat
      by lia.
    simpl. now rewrite <- app_assoc.
  - replace (chan_cap - length q)%nat with 0%nat by lia. reflexivity.
Qed.

Lemma accepted_write_call l s c cs :
  accepted (write_call l s c) cs = accepted s cs.
Proof.
  unfold accepted. apply List.filter_ext. intros c'.
  apply LogFacts.shouldLog_level_only, LogFacts.write_logLevel.
Qed.

Lemma accepted_cons s c cs :
  accepted s (c :: cs)
  = if shouldLog (c_level c) s then c :: accepted s cs else accepted s cs.
Proof. reflexivity. Qed.

(** The store after a run of calls, field by field. *)
Lemma writes_fields l cs : forall s,
  let es := map entry_of (accepted s cs) in
  logLevel (writes l cs s) = logLevel s /\
  persistFn (writes l cs s) = persistFn s /\
  subscribers (writes l cs s) = offered es <$> subscribers s /\
  spawned (writes l cs s)
  = spawned s ++ match persistFn s with
                 | Some fn => map (pair fn) es
                 | None => []
                 end /\
  stdout (writes l cs s) = stdout s ++ map (pair (json l)) es.
Proof.
  induction cs as [|c cs IH]; intros s es.
  - subst es. simpl. repeat split.
    + unfold offered. simpl.
      rewrite <- (map_fmap_id (subscribers s)) at 1.
      apply map_fmap_ext. intros i q _. simpl.
      now rewrite take_nil, app_nil_r.
    + destruct (persistFn s); now rewrite app_nil_r.
    + now rewrite app_nil_r.
  - unfold writes. simpl fold_left. fold (writes l cs (write_call l s c)).
    destruct (IH (write_call l s c)) as (I1 & I2 & I3 & I4 & I5).
    rewrite accepted_write_call in I3, I4, I5.
    rewrite I1, I2, I3, I4, I5. clear IH I1 I2 I3 I4 I5.
    subst es. rewrite accepted_cons.
    unfold write_call.
    destruct (shouldLog (c_level c) s) eqn:Hc.
    + rewrite LogFacts.write_accepted by exact Hc.
      fold (entry_of c). simpl.
      repeat split.
      * unfold broadcast. rewrite <- map_fmap_compose.
        apply map_fmap_ext. intros i q _. simpl. apply offered_cons.
      * destruct (persistFn s); rewrite <- ?app_assoc; reflexivity.
      * now rewrite <- app_assoc.
    + rewrite LogFacts.write_rejected by exact Hc. repeat split.
Qed.


Lemma store_eq (a b : store) :
  recent a = recent b -> nextIdx a = nextIdx b -> logLevel a = logLevel b ->
  subscribers a = subscribers b -> persistFn a = persistFn b ->
  spawned a = spawned b -> stdout a = stdout b -> a = b.
Proof. destruct a, b. simpl. now intros -> -> -> -> -> -> ->. Qed.

(** A write does not look at the subscribers except to offer them the
    entry. *)
Lemma write_with_subscribers l c s m :
  write_call l (with_subscribers s m) c
  = with_subscribers (write_call l s c)
      (if shouldLog (c_level c) s then broadcast (entry_of c) m else m).
Proof.
  unfold write_call, write.
  change (shouldLog (c_level c) (with_subscribers s m))
    with (shouldLog (c_level c) s).
  destruct (shouldLog (c_level c) s); reflexivity.
Qed.

Lemma writes_with_subscribers l cs : forall s m,
  exists m', writes l cs (with_subscribers s m)
             = with_subscribers (writes l cs s) m'.
Proof.
  induction cs as [|c cs IH]; intros s m.
  - exists m. reflexivity.
  - unfold writes. simpl fold_left. rewrite write_with_subscribers.
    apply IH.
Qed.

(** X1.  Back-pressure on a log subscriber.  While a subscriber receives
    nothing, a run of [write] calls leaves in its channel what was queued
    before followed by the first accepted entries that still fit under the
    capacity of 100, in the order written; every later entry is dropped for
    that subscriber, and a queue within the capacity stays within it. *)
Theorem subscriber_backpressure (l : stdLogger) (cs : list call) (s : store)
        (ch : nat) (q : list entry) :
  subscribers s !! ch = Some q ->
  let es := map entry_of (accepted s cs) in
  let q' := q ++ take (chan_cap - length q) es in
  subscribers (writes l cs s) !! ch = Some q' /\
  ((length q <= chan_cap)%nat -> (length q' <= chan_cap)%nat) /\
  ((chan_cap <= length q)%nat -> q' = q).
Proof.
  intros Hq es q'.
  destruct (writes_fields l cs s) as (_ & _ & Hs & _).
  split; [|split].
  - rewrite Hs, lookup_fmap, Hq. reflexivity.
  - intros Hle. subst q'. rewrite length_app, length_take. lia.
  - intros Hge. subst q'.
    replace (chan_cap - length q)%nat with 0%nat by lia.
    now rewrite take_0, app_nil_r.
Qed.

Lemma subscriber_backpressure_witness :
  subscribers (with_subscribers init {[7%nat := []]}) !! 7%nat = Some [] /\
  subscribers (writes {| json := true |} three_calls
                 (with_subscribers init {[7%nat := []]})) !! 7%nat
  = Some ([] ++ take (chan_cap - 0)
                  (map entry_of
                     (accepted (with_subscribers init {[7%nat := []]})
                               three_calls))).
Proof.
  split; [reflexivity|].
  exact (proj1 (subscriber_backpressure {| json := true |} three_calls
                  (with_subscribers init {[7%nat := []]}) 7%nat []
                  eq_refl)).
Defined.

(** X2.  Every accepted entry of a run of [write] calls is printed exactly
    once and, when a persistence callback is registered, handed to exactly
    one asynchronous call of it, both in the order written; rejected
    entries reach neither, and without a callback nothing is started. *)
Theorem sink_once_per_entry (l : stdLogger) (cs : list call) (s : store) :
  let es := map entry_of (accepted s cs) in
  stdout (writes l cs s) = stdout s ++ map (pair (json l)) es /\
  spawned (writes l cs s)
  = spawned s ++ match persistFn s with
                 | Some fn => map (pair fn) es
                 | None => []
                 end /\
  persistFn (writes l cs s) = persistFn s.
Proof.
  intros es.
  destruct (writes_fields l cs s) as (_ & Hp & _ & Hsp & Hout).
  auto.
Qed.

(** X3.  A subscriber that comes and goes leaves no mark.  [Subscribe]
    returns a channel no current subscriber holds; after any run of
    [write] calls, cancelling it gives exactly the store the same calls
    produce when nobody subscribed: the ring, the other subscribers'
    queues, the sink calls and the output are those of the run alone. *)
Theorem subscribe_cancel_transparent (l : stdLogger) (cs : list call)
        (s : store) :
  let ch := fst (Subscribe s) in
  subscribers s !! ch = None /\
  subscribers (snd (Subscribe s)) !! ch = Some [] /\
  cancel ch (writes l cs (snd (Subscribe s))) = writes l cs s.
Proof.
  intros ch.
  assert (Hfresh : subscribers s !! ch = None).
  { apply not_elem_of_dom. apply is_fresh. }
  split; [exact Hfresh|]. split; [apply lookup_insert_eq|].
  change (snd (Subscribe s))
    with (with_subscribers s (<[ch := []]> (subscribers s))).
  destruct (writes_with_subscribers l cs s (<[ch := []]> (subscribers s)))
    as (m' & Hm).
  destruct (writes_fields l cs (with_subscribers s (<[ch := []]> (subscribers s))))
    as (_ & _ & Hs1 & _).
  destruct (writes_fields l cs s) as (_ & _ & Hs2 & _).
  rewrite Hm in Hs1 |- *. simpl in Hs1.
  change (accepted (with_subscribers s (<[ch:=[]]> (subscribers s))) cs)
    with (accepted s cs) in Hs1.
  apply store_eq; try reflexivity.
  simpl. rewrite Hs1, Hs2, fmap_insert, delete_insert_id; [reflexivity|].
  rewrite lookup_fmap, Hfresh. reflexivity.
Qed.


Lemma fieldsFromKV_loop_app n : forall kv rest m,
  length kv = (2 * n)%nat ->
  fieldsFromKV_loop (kv ++ rest) m
  = fieldsFromKV_loop rest (fieldsFromKV_loop kv m).
Proof.
  induction n as [|n IH]; intros kv rest m Hlen.
  - destruct kv; [reflexivity|discriminate].
  - destruct kv as [|k [|v kv]]; simpl in Hlen; try lia.
    simpl. destruct k; apply IH; lia.
Qed.

Lemma fieldsFromKV_as_loop kv : fieldsFromKV kv = fieldsFromKV_loop kv ∅.
Proof. now destruct kv. Qed.

(** X4.  How [fieldsFromKV] reads its arguments: after an even number of
    them, a trailing key without a value is dropped; a further pair whose
    key is a string binds that key, replacing an earlier binding of it; a
    pair whose key is not a string is skipped. *)
Theorem fieldsFromKV_pairs (kv : list any) (k v : any) :
  Nat.Even (length kv) ->
  fieldsFromKV (kv ++ [k]) = fieldsFromKV kv /\
  fieldsFromKV (kv ++ [k; v])
  = match k with
    | AStr key => <[key := v]> (fieldsFromKV kv)
    | _ => fieldsFromKV kv
    end /\
  (forall key, k = AStr key ->
               fieldsFromKV (kv ++ [k; v]) !! key = Some v).
Proof.
  intros [n Hn].
  assert (H1 : fieldsFromKV (kv ++ [k]) = fieldsFromKV kv).
  { rewrite !fieldsFromKV_as_loop, (fieldsFromKV_loop_app n) by exact Hn.
    reflexivity. }
  assert (H2 : fieldsFromKV (kv ++ [k; v])
               = match k with
                 | AStr key => <[key := v]> (fieldsFromKV kv)
                 | _ => fieldsFromKV kv
                 end).
  { rewrite !fieldsFromKV_as_loop, (fieldsFromKV_loop_app n) by exact Hn.
    now destruct k. }
  split; [exact H1|]. split; [exact H2|].
  intros key ->. rewrite H2. apply lookup_insert_eq.
Qed.

Lemma fieldsFromKV_pairs_witness :
  Nat.Even (length [AStr "k"; AInt 1]) /\
  fieldsFromKV ([AStr "k"; AInt 1] ++ [AStr "k"; AInt 2]) !! "k"
  = Some (AInt 2).
Proof.
  assert (E : Nat.Even (length [AStr "k"; AInt 1])) by (exists 1%nat; reflexivity).
  split; [exact E|].
  exact (proj2 (proj2 (fieldsFromKV_pairs [AStr "k"; AInt 1] (AStr "k")
                         (AInt 2) E)) "k" eq_refl).
Defined.

Lemma is_level_cases lvl :
  is_level lvl = true ->
  lvl = "debug" \/ lvl = "info" \/ lvl = "error" \/ lvl = "fatal".
Proof.
  unfold is_level. rewrite !orb_true_iff, !String.eqb_eq. tauto.
Qed.

Lemma SetLevel_valid lvl s : is_level (GetLevel (SetLevel lvl s)) = true.
Proof.
  unfold GetLevel, SetLevel. simpl.
  destruct (is_level lvl) eqn:E; [exact E|reflexivity].
Qed.

(** X5.  The threshold is always one of the four level names.  [New]
    leaves a valid threshold whatever [LOG_LEVEL] holds, unset or unknown
    values giving [info]; [logsSetLevel] keeps a valid threshold valid
    whatever the request body, refuses a missing level without touching the
    store, turns an unknown name into [info], and answers with the level
    now in force; and no run of [write] calls changes the threshold. *)
Theorem threshold_always_valid (environ : string -> string)
        (body : string + string) (l : stdLogger) (cs : list call)
        (s : store) :
  is_level (logLevel s) = true ->
  is_level (GetLevel (snd (LogAPI.New environ s))) = true /\
  (is_level (environ "LOG_LEVEL") = false ->
   GetLevel (snd (LogAPI.New environ s)) = "info") /\
  is_level (GetLevel (snd (LogAPI.logsSetLevel body s))) = true /\
  (forall lvl, body = inr lvl -> lvl <> "" ->
     let eff := if is_level lvl then lvl else "info" in
     GetLevel (snd (LogAPI.logsSetLevel body s)) = eff /\
     fst (LogAPI.logsSetLevel body s)
     = LogAPI.Encoded (<["level" := AStr eff]> {["ok" := ABool true]})) /\
  (body = inr "" \/ (exists err, body = inl err) ->
   snd (LogAPI.logsSetLevel body s) = s /\
   exists msg, fst (LogAPI.logsSetLevel body s) = LogAPI.Refused 400 msg) /\
  GetLevel (writes l cs s) = GetLevel s.
Proof.
  intros Hs. split; [|split; [|split; [|split; [|split]]]].
  - unfold LogAPI.New. cbn [snd]. apply SetLevel_valid.
  - intros Hbad. unfold LogAPI.New, GetLevel, SetLevel. simpl.
    destruct (String.eqb (environ "LOG_LEVEL") "") eqn:E; [reflexivity|].
    now rewrite Hbad.
  - unfold LogAPI.logsSetLevel. destruct body as [err|lvl]; [exact Hs|].
    destruct (String.eqb lvl ""); [exact Hs|]. apply SetLevel_valid.
  - intros lvl -> Hne eff. unfold LogAPI.logsSetLevel.
    apply String.eqb_neq in Hne. rewrite Hne. simpl. split; reflexivity.
  - intros [->|[err ->]]; simpl; split; eauto.
  - unfold GetLevel. now destruct (writes_fields l cs s) as (-> & _).
Qed.

Lemma threshold_always_valid_witness :
  is_level (logLevel init) = true /\
  GetLevel (snd (LogAPI.logsSetLevel (inr "warn") init)) = "info".
Proof.
  split; [reflexivity|].
  exact (proj1 (proj1 (proj2 (proj2 (proj2
           (threshold_always_valid (fun _ => "") (inr "warn")
              {| json := true |} [] init eq_refl)))) "warn" eq_refl
           ltac:(discriminate))).
Defined.

Lemma rank_range lvl : 0 <= map_index_int order lvl <= 3.
Proof.
  unfold map_index_int, order. simpl.
  repeat (match goal with
          | |- context [if ?b then _ else _] => destruct b; simpl; try lia
          end).
Qed.

(** X6.  A fatal entry is never filtered: whatever the threshold, a
    [write] at level [fatal] is stored and is what [Recent 1] then
    returns; and while the threshold is [debug], a [write] at any level is
    stored. *)
Theorem fatal_always_logged (l : stdLogger) (now : Z) (lvl msg : string)
        (kv : list any) (s : store) (h : list entry) :
  Repr s h ->
  Recent 1 (write l now "fatal" msg kv s)
  = [mkEntry now "fatal" msg (fieldsFromKV kv)] /\
  (logLevel s = "debug" ->
   Recent 1 (write l now lvl msg kv s)
   = [mkEntry now lvl msg (fieldsFromKV kv)]).
Proof.
  intros HR.
  assert (G : forall lv, shouldLog lv s = true ->
            Recent 1 (write l now lv msg kv s)
            = [mkEntry now lv msg (fieldsFromKV kv)]).
  { intros lv Hlv. rewrite LogFacts.write_accepted by exact Hlv.
    apply (LogFacts.Recent_Repr _ (_ :: h) 1); [|lia].
    apply LogFacts.Repr_println, LogFacts.Repr_appendBuf, HR. }
  split.
  - apply G. unfold shouldLog.
    change (map_index_int order "fatal") with 3.
    pose proof (rank_range (logLevel s)). lia.
  - intros Hd. apply G. unfold shouldLog. rewrite Hd.
    change (map_index_int order "debug") with 0.
    pose proof (rank_range lvl). lia.
Qed.

Lemma fatal_always_logged_witness :
  Repr (SetLevel "fatal" init) [] /\
  Recent 1 (write {| json := true |} 5 "fatal" "boom" [] (SetLevel "fatal" init))
  = [mkEntry 5 "fatal" "boom" (fieldsFromKV [])].
Proof.
  assert (R : Repr (SetLevel "fatal" init) [])
    by (apply LogFacts.Repr_levels, LogFacts.Repr_init).
  split; [exact R|].
  exact (proj1 (fatal_always_logged {| json := true |} 5 "info" "boom" []
                  (SetLevel "fatal" init) [] R)).
Defined.

End StreamFacts.

(** ** The trace ring, the recorder and the durable trace store *)

Module RingFacts.
Import Tracing TraceStore TraceSpec RingSpec.

Lemma TRepr_init : TRepr traces_init [].
Proof.
  split; [apply length_replicate|]. split; [reflexivity|].
  split; [simpl; lia|].
  intros k Hk. change (buf traces_init) with (replicate 1000 (@None Trace)).
  apply lookup_replicate. split; [reflexivity|].
  pose proof (LogFacts.slot_range (next traces_init) k). lia.
Qed.

Lemma TRepr_add s h t : TRepr s h -> TRepr (add t s) (t :: h).
Proof.
  intros (Hlen & Hsz & Hidx & Hslots).
  unfold TRepr, add; simpl buf; simpl next; simpl size.
  rewrite length_insert, Hlen, Hsz.
  split; [reflexivity|]. split; [reflexivity|]. split.
  { rewrite Z.rem_mod_nonneg by lia. apply Z.mod_pos_bound. lia. }
  intros [|k] Hk.
  - rewrite LogFacts.slot_newest by lia. simpl.
    apply list_lookup_insert_eq. lia.
  - rewrite LogFacts.slot_shift by lia. simpl.
    rewrite list_lookup_insert_ne.
    + apply Hslots. lia.
    + pose proof (LogFacts.slot_range (next s) k).
      pose proof (LogFacts.slot_older_ne (next s) (S k) Hidx) as Hne.
      replace (S k - 1)%nat with k in Hne by lia.
      intros E. apply Hne; [unfold Logging.ring_len; lia|]. lia.
Qed.

Lemma TRepr_adds ts : forall s h,
  TRepr s h -> TRepr (adds ts s) (rev ts ++ h).
Proof.
  induction ts as [|t ts IH]; intros s h HR; [exact HR|].
  simpl rev. rewrite <- app_assoc. simpl app.
  apply (IH (add t s) (t :: h)), TRepr_add, HR.
Qed.

Lemma all_loop_walk s n h :
  size s = 1000 ->
  (forall k : nat, (k < 1000)%nat ->
     buf s !! Z.to_nat (LogSpec.slot (next s) k) = Some (h !! k)) ->
  forall fuel c, (c + fuel = 1000)%nat ->
  all_loop s (Z.of_nat n) fuel (LogSpec.slot (next s) c) (take n (take c h))
  = take n (take 1000 h).
Proof.
  intros Hsz Hslots fuel.
  induction fuel as [|fuel IH]; intros c Hc.
  - simpl. replace c with 1000%nat by lia. reflexivity.
  - simpl all_loop. rewrite Hsz.
    destruct (Z.ltb_spec (Z.of_nat (length (take n (take c h)))) (Z.of_nat n))
      as [Hlt|Hge].
    + assert (Hshort : (length (take c h) < n)%nat).
      { rewrite length_take in Hlt. lia. }
      rewrite (take_ge (take c h)) by lia.
      rewrite Hslots by lia. rewrite LogFacts.slot_next.
      specialize (IH (S c) ltac:(lia)).
      destruct (h !! c) as [e|] eqn:He.
      * rewrite <- (take_S_r h c e He).
        rewrite <- IH. f_equal. symmetry. apply take_ge.
        rewrite length_take in *.
        apply lookup_lt_Some in He. lia.
      * rewrite <- IH. f_equal.
        apply lookup_ge_None in He.
        rewrite length_take in Hshort.
        rewrite !(take_ge h) by lia. reflexivity.
    + rewrite !take_take. f_equal.
      rewrite !length_take in Hge. lia.
Qed.

Lemma all_TRepr s h limit :
  TRepr s h ->
  all limit s
  = take (Z.to_nat (if (limit <=? 0) || (limit >? 1000) then 1000 else limit))
         (take 1000 h).
Proof.
  intros (Hlen & Hsz & Hidx & Hslots). unfold all. rewrite Hsz.
  set (n := if (limit <=? 0) || (limit >? 1000) then 1000 else limit).
  assert (Hn : 1 <= n <= 1000).
  { unfold n. destruct (Z.leb_spec limit 0); simpl; [lia|].
    destruct (Z.gtb_spec limit 1000); lia. }
  rewrite LogFacts.slot_start by lia.
  rewrite <- (Z2Nat.id n) at 1 by lia.
  change (Z.to_nat 1000) with 1000%nat.
  pose proof (all_loop_walk s (Z.to_nat n) h Hsz Hslots 1000 0%nat
                ltac:(lia)) as HW.
  rewrite take_0, take_nil in HW. exact HW.
Qed.

(** X7.  The trace ring, read back.  After any sequence of [add] calls on
    the fresh ring, [all limit] returns the traces added most recently,
    newest first: [limit] of them for [1 <= limit <= 1000], and for any
    other [limit] (zero, negative, above the capacity) up to 1000; traces
    older than the last 1000 are gone. *)
Theorem trace_ring_newest_first (ts : list Trace) (limit : Z) :
  all limit (adds ts traces_init)
  = take (Z.to_nat (if (limit <=? 0) || (limit >? 1000) then 1000 else limit))
         (rev ts).
Proof.
  pose proof (TRepr_adds ts traces_init [] TRepr_init) as HR.
  rewrite app_nil_r in HR.
  rewrite (all_TRepr _ _ limit HR), take_take. f_equal.
  destruct (Z.leb_spec limit 0); simpl; [lia|].
  destruct (Z.gtb_spec limit 1000); lia.
Qed.


Lemma with_events_same t : with_events t (Events t) = t.
Proof. now destruct t. Qed.

(** What running a handler does to the recorder and to the trace. *)
Lemma ServeHTTP_effect h : forall rec t rec' t',
  ServeHTTP h rec t = Some (rec', t') ->
  t' = with_events t (Events t ++ handler_events h) /\
  bytes rec' = bytes rec + written h /\
  code rec' = last_code h (code rec) /\
  sent_bytes (inner rec') = sent_bytes (inner rec) + written h /\
  sent_status (inner rec')
  = match sent_status (inner rec) with
    | Some c => Some c
    | None => first_status h
    end.
Proof.
  induction h as [|a h IH]; intros rec t rec' t' H; simpl in H.
  - injection H as <- <-. simpl.
    rewrite app_nil_r, with_events_same, !Z.add_0_r.
    repeat split. now destruct (sent_status (inner rec)).
  - destruct a as [c|n|now name fields|]; simpl.
    + unfold WriteHeader, inner_WriteHeader in H. simpl in H.
      destruct (checkWriteHeaderCode c); [|discriminate]. simpl in H.
      destruct (IH _ _ _ _ H) as (E1 & E2 & E3 & E4 & E5).
      simpl in E2, E3, E4, E5. rewrite E2, E3, E4, E5.
      destruct (sent_status (inner rec)) eqn:Es; simpl; rewrite ?Es;
        auto.
    + destruct (IH _ _ _ _ H) as (E1 & E2 & E3 & E4 & E5).
      simpl in E2, E3, E4, E5. rewrite E2, E3, E4, E5.
      destruct (sent_status (inner rec)) eqn:Es; simpl;
        repeat split; auto; lia.
    + destruct (IH _ _ _ _ H) as (E1 & E2 & E3 & E4 & E5).
      simpl in E1. rewrite E2, E3, E4, E5, E1.
      repeat split. unfold with_events. simpl. now rewrite <- app_assoc.
    + discriminate.
Qed.

Section WithMarshal.
Variable marshal : gmap string any -> string.

(** X8.  The trace a request leaves is the newest of the ring.  When the
    middleware returns, the finalized trace is what [all 1] yields, and
    [all n] yields it followed by the traces the ring held before, newest
    first, cut to [n]. *)
Theorem finished_trace_is_newest (logger : Logging.stdLogger) (r : request)
        (i : inputs) (h : list haction) (w : response) (st st' : world)
        (resp : response) (t : Trace) (old : list Trace) (n : Z) :
  middleware marshal logger r i h w st = Some (st', resp, t) ->
  TRepr (traces st) old -> 1 <= n <= 1000 ->
  all 1 (traces st') = [t] /\
  all n (traces st') = take (Z.to_nat n) (t :: old).
Proof.
  intros H HR Hn.
  destruct (TraceFacts.middleware_Some _ _ _ _ _ _ _ _ _ _ H)
    as (rec & t1 & _ & _ & _ & ->). cbn [traces].
  pose proof (TRepr_add _ _ t HR) as HR'.
  split.
  - now rewrite (all_TRepr _ _ 1 HR').
  - rewrite (all_TRepr _ _ n HR').
    replace ((n <=? 0) || (n >? 1000)) with false by (symmetry; lia).
    rewrite take_take. f_equal. lia.
Qed.

(** X9.  The events of a finalized trace are the events the handler
    added, in order, followed by one [request.end] event carrying the
    recorded status and byte count.  The [request.start] event that the
    middleware adds before attaching the trace to the request is never
    recorded. *)
Theorem events_of_finished_trace (logger : Logging.stdLogger) (r : request)
        (i : inputs) (h : list haction) (w : response) (st st' : world)
        (resp : response) (t : Trace) :
  middleware marshal logger r i h w st = Some (st', resp, t) ->
  Events t = handler_events h ++ [end_event i (Status t) (RespBytes t)] /\
  (Forall (fun ev => ev_Name ev <> "request.start") (handler_events h) ->
   Forall (fun ev => ev_Name ev <> "request.start") (Events t)).
Proof.
  intros H.
  destruct (TraceFacts.middleware_Some _ _ _ _ _ _ _ _ _ _ H)
    as (rec & t1 & E & -> & _ & _).
  destruct (ServeHTTP_effect _ _ _ _ _ E) as (-> & _).
  assert (Ev : Events (finish (with_events (begin_trace r i)
                 (Events (begin_trace r i) ++ handler_events h)) rec i)
               = handler_events h
                 ++ [end_event i (code rec) (bytes rec)]) by reflexivity.
  split; [exact Ev|].
  intros Hh. rewrite Ev. apply Forall_app. split; [exact Hh|].
  repeat constructor. discriminate.
Qed.



(** X11.  [respondError] seen through the middleware.  A handler that
    answers with [respondError(w, r, code, msg)] on a fresh writer leaves a
    trace whose status is [code], whose events are the [error] event with
    the code and the message followed by [request.end], and whose byte
    count is that of the one write; the client is sent [code]. *)
Theorem respondError_recorded (logger : Logging.stdLogger) (r : request)
        (i : inputs) (w : response) (st : world) (now code : Z)
        (msg : string) (n : Z) :
  checkWriteHeaderCode code = true -> sent_status w = None ->
  exists st' resp t,
    middleware marshal logger r i (respondError now code msg n) w st
    = Some (st', resp, t) /\
    Status t = code /\ RespBytes t = n /\
    sent_status resp = Some code /\
    Events t
    = [mkTraceEvent now "error"
         (<["message" := AStr msg]> {["code" := AInt code]});
       end_event i code n].
Proof.
  intros Hc Hw.
  assert (Hwb : well_behaved (respondError now code msg n)).
  { unfold well_behaved, respondError. repeat constructor. exact Hc. }
  destruct (TraceFacts.middleware_total marshal logger r i _ w st Hwb)
    as (st' & resp & t & E).
  exists st', resp, t. split; [exact E|].
  destruct (TraceFacts.middleware_Some _ _ _ _ _ _ _ _ _ _ E)
    as (rec & t1 & E1 & -> & -> & _).
  destruct (ServeHTTP_effect _ _ _ _ _ E1) as (-> & E2 & E3 & _ & E5).
  simpl in E2, E3, E5. rewrite Hw in E5.
  destruct (TraceFacts.finish_fields
              (with_events (begin_trace r i)
                 (Events (begin_trace r i)
                  ++ handler_events (respondError now code msg n))) rec i)
    as (F1 & F2 & _ & _ & _ & F6).
  rewrite F1, F2, F6, E2, E3, E5. simpl. rewrite Z.add_0_r.
  repeat split.
Qed.

Lemma run_statements_cons st sts os db logs :
  run_statements (st :: sts) os db logs
  = let db1 := match DB.o_err (hd quiet os) with
               | Some _ => DB.note_stmt st db
               | None => DB.apply_stmt st (DB.note_stmt st db)
               end in
    run_statements sts (tl os) db1
                   (DB.Trace (DB.Logger db1) (hd quiet os) logs).
Proof. reflexivity. Qed.

Lemma run_event_statements t evs : forall os db logs,
  let db' := fst (run_statements
                    (map (fun ev => DB.CreateEvent (event_row marshal t ev)) evs)
                    os db logs) in
  DB.trace_rows db' = DB.trace_rows db /\
  DB.event_rows db'
  = DB.event_rows db ++ map (event_row marshal t) (kept evs os).
Proof.
  induction evs as [|ev evs IH]; intros os db logs.
  - simpl. now rewrite app_nil_r.
  - cbv zeta. simpl map. rewrite !run_statements_cons. simpl kept.
    set (st := DB.CreateEvent (event_row marshal t ev)).
    set (db1 := match DB.o_err (hd quiet os) with
                | Some _ => DB.note_stmt st db
                | None => DB.apply_stmt st (DB.note_stmt st db)
                end).
    cbv zeta.
    destruct (IH (tl os) db1 (DB.Trace (DB.Logger db1) (hd quiet os) logs))
      as (I1 & I2).
    rewrite I1, I2. unfold db1.
    destruct (DB.o_err (hd quiet os)); simpl; [auto|].
    rewrite <- app_assoc. auto.
Qed.

(** X12.  [persistTrace] writes statement by statement, not as a unit.
    With a store, the trace row is saved under the trace's id exactly when
    the first statement succeeds, replacing any row with that id, and the
    event rows appended are those of the events whose own insert succeeded,
    in order: a failed [Save] does not stop the events of that trace from
    being inserted.  Without a store nothing happens. *)
Theorem persist_statement_by_statement (t : Trace) (os : list DB.outcome)
        (db : DB.gormDB) (logs : Logging.store) :
  (exists db' logs',
     persistTrace marshal t os (Some db) logs = (Some db', logs') /\
     DB.trace_rows db'
     = match DB.o_err (hd quiet os) with
       | None => <[ID t := row_of t]> (DB.trace_rows db)
       | Some _ => DB.trace_rows db
       end /\
     DB.event_rows db'
     = DB.event_rows db
       ++ map (event_row marshal t) (kept (Events t) (tl os))) /\
  persistTrace marshal t os None logs = (None, logs).
Proof.
  split; [|reflexivity].
  unfold persistTrace, statements_of. rewrite run_statements_cons.
  set (db1 := match DB.o_err (hd quiet os) with
              | Some _ => DB.note_stmt (DB.SaveTrace (row_of t)) db
              | None => DB.apply_stmt (DB.SaveTrace (row_of t))
                          (DB.note_stmt (DB.SaveTrace (row_of t)) db)
              end).
  pose proof (run_event_statements t (Events t) (tl os) db1
                (DB.Trace (DB.Logger db1) (hd quiet os) logs)) as (R1 & R2).
  cbv zeta.
  destruct (run_statements _ (tl os) db1 _) as [db' logs'] eqn:Er.
  exists db', logs'. split; [reflexivity|].
  simpl in R1, R2. rewrite R1, R2. unfold db1.
  destruct (DB.o_err (hd quiet os)); split; reflexivity.
Qed.

End WithMarshal.

(** X13.  How the store's logger routes a statement, for the logger level
    that [Init] derives from a process level [lvl] ([GetLevel] only ever
    returns one of the four level names).  A statement that
    fails with an error other than record-not-found gives exactly one call
    at level [error], carrying the error text and [sqlMasked]; a statement
    that succeeds or finds no record never gives an [error] call, and
    unless [lvl] is [debug] it leaves the event log exactly as it was. *)
Theorem gorm_trace_routing (lvl : string) (jl : Logging.stdLogger)
        (o : DB.outcome) (s : Logging.store) :
  Logging.is_level lvl = true ->
  let g := DB.mkGormLogger jl (DB.init_level lvl) in
  (forall msg, DB.o_err o = Some (DB.ErrOther msg) ->
     exists kv,
       DB.Trace_calls g o = [Logging.mkCall (DB.o_at o) "error" "gorm_sql" kv] /\
       Logging.fieldsFromKV kv !! "error" = Some (AStr msg) /\
       Logging.fieldsFromKV kv !! "sqlMasked" = Some (ABool true)) /\
  (DB.o_err o = None \/ DB.o_err o = Some DB.ErrRecordNotFound ->
   Forall (fun c => Logging.c_level c = "debug") (DB.Trace_calls g o) /\
   (lvl <> "debug" -> DB.Trace g o s = s)).
Proof.
  intros Hl g.
  pose proof (TraceFacts.init_level_logs_errors lvl) as Hge.
  assert (Hpos : (DB.level g <=? 0) = false).
  { subst g. simpl. unfold DB.Error in Hge. lia. }
  split.
  - intros msg He. unfold DB.Trace_calls. rewrite Hpos, He.
    replace (DB.level g >=? DB.Error) with true
      by (symmetry; subst g; simpl; lia).
    eexists. split; [reflexivity|]. split; reflexivity.
  - intros Hok. split.
    + unfold DB.Trace_calls. rewrite Hpos.
      destruct Hok as [-> | ->]; destruct (DB.level g >=? DB.Info);
        repeat constructor.
    + intros Hnd. unfold DB.Trace, DB.Trace_calls. rewrite Hpos.
      assert (Hlow : (DB.level g >=? DB.Info) = false).
      { subst g. simpl. unfold DB.init_level.
        apply String.eqb_neq in Hnd. rewrite Hnd.
        destruct (String.eqb lvl "error" || String.eqb lvl "fatal");
          reflexivity. }
      destruct Hok as [-> | ->]; rewrite Hlow; reflexivity.
Qed.


Lemma sample_run :
  exists st' resp t,
    middleware marshal_stub {| Logging.json := true |} get_health
               sample_inputs health_handler blank_response sample_world
    = Some (st', resp, t).
Proof.
  apply TraceFacts.middleware_total, TraceFacts.sample_well_behaved.
Qed.

Lemma finished_trace_is_newest_witness :
  exists st' resp t,
    middleware marshal_stub {| Logging.json := true |} get_health
               sample_inputs health_handler blank_response sample_world
    = Some (st', resp, t) /\
    all 1 (traces st') = [t].
Proof.
  destruct sample_run as (st' & resp & t & E).
  exists st', resp, t. split; [exact E|].
  exact (proj1 (finished_trace_is_newest marshal_stub _ _ _ _ _ _ _ _ _ []
                  1 E TRepr_init ltac:(lia))).
Defined.

Lemma events_of_finished_trace_witness :
  exists st' resp t,
    middleware marshal_stub {| Logging.json := true |} get_health
               sample_inputs health_handler blank_response sample_world
    = Some (st', resp, t) /\
    Events t = [end_event sample_inputs (Status t) (RespBytes t)].
Proof.
  destruct sample_run as (st' & resp & t & E).
  exists st', resp, t. split; [exact E|].
  exact (proj1 (events_of_finished_trace marshal_stub _ _ _ _ _ _ _ _ _ E)).
Defined.


Lemma respondError_recorded_witness :
  checkWriteHeaderCode 418 = true /\
  exists st' resp t,
    middleware marshal_stub {| Logging.json := true |} get_health
               sample_inputs (respondError 6 418 "teapot" 7) blank_response
               sample_world
    = Some (st', resp, t) /\
    Status t = 418.
Proof.
  split; [reflexivity|].
  destruct (respondError_recorded marshal_stub {| Logging.json := true |}
              get_health sample_inputs blank_response sample_world 6 418
              "teapot" 7 eq_refl eq_refl) as (st' & resp & t & E & Hs & _).
  exists st', resp, t. auto.
Defined.

Lemma gorm_trace_routing_witness :
  Logging.is_level "info" = true /\
  DB.Trace (DB.mkGormLogger {| Logging.json := true |} (DB.init_level "info"))
           quiet Logging.init
  = Logging.init.
Proof.
  split; [reflexivity|].
  exact (proj2 (proj2 (gorm_trace_routing "info" {| Logging.json := true |}
                         quiet Logging.init eq_refl) (or_introl eq_refl))
               ltac:(discriminate)).
Defined.

End RingFacts.

(** ** What a transfer leaves behind *)

Module OutcomeFacts.
Import Transfer TransferSpec OutcomeSpec.

Lemma DownloadWithInfo_spec a o ep bucket key :
  let d := DownloadWithInfo a o ep bucket key in
  forallb (fun k => negb (is_remove k)) (fst d) = true /\
  (exists tl, fst d = StatObject ep bucket key :: GetObject ep bucket key :: tl) /\
  match a_get a with
  | Some err => snd d = inl err
  | None =>
      exists total, snd d = inr (o !! (ep, bucket, key), total) /\
        match o !! (ep, bucket, key) with
        | Some obj =>
            if match a_stat a, a_objstat a with
               | Some _, Some _ => true
               | _, _ => false
               end
            then total = 0 else total = size_of obj
        | None => total = 0
        end
  end.
Proof.
  unfold DownloadWithInfo.
  destruct (a_stat a), (o !! (ep, bucket, key)) as [obj|],
           (a_get a), (a_objstat a); simpl; repeat split; eauto.
Qed.


(** A transfer that gets as far as the upload, as one equation. *)
Lemma transfer_after_open (move : bool) (a : answers) (c : cloud)
      (q : request) (b : body) (src dst : string) (calls : list s3call)
      (rc : option string) (total : Z) :
  reaches a c q b src dst calls rc total ->
  let u := Upload a (objs c) rc total dst (DstBucket b) (dst_key b)
                  [starting_frame total] in
  let o := fst (fst (fst u)) in
  let transferred := snd (fst (fst u)) in
  let frames := snd (fst u) in
  let put := PutObject dst (DstBucket b) (dst_key b) in
  let late := ticks (a_late a) transferred total in
  transfer move a c q
  = match snd u with
    | Some err =>
        mkResult (Stream (frames ++ [error_frame err] ++ late)) o
                 (calls ++ [put]) []
    | None =>
        if move then
          let calls' := (calls ++ [put])
                        ++ [RemoveObject src (q_name q) (SrcKey b)] in
          let frames' := frames ++ ticks (a_deleting a) transferred total in
          match a_remove a with
          | Some err =>
              mkResult (Stream (frames' ++ [error_frame err] ++ late)) o
                       calls' []
          | None =>
              mkResult (Stream (frames' ++ [done_frame transferred total]
                                ++ late))
                       (delete (src, q_name q, SrcKey b) o) calls'
                       [("object.move.end", {["ok" := ABool true]})]
          end
        else
          mkResult (Stream (frames ++ [done_frame transferred total] ++ late))
                   o (calls ++ [put])
                   [("object.copy.end", {["ok" := ABool true]})]
    end.
Proof.
  intros [(pid & Hq & Hpos & Hs & Hd) Hb Hk Ho] u o transferred frames put
         late.
  unfold transfer. rewrite Hq, Hb.
  replace (pid <=? 0) with false by (symmetry; lia).
  rewrite Hk, Hs, Hd, Ho. fold (dst_key b). fold u.
  subst o transferred frames late.
  destruct u as [[[o transferred] frames] uerr]. simpl.
  destruct uerr as [err|]; [reflexivity|].
  destruct move; [|reflexivity].
  unfold DeleteObject. destruct (a_remove a); reflexivity.
Qed.

Lemma reaches_source a c q b src dst calls rc total :
  reaches a c q b src dst calls rc total ->
  rc = objs c !! (src, q_name q, SrcKey b) /\ a_get a = None /\
  forallb (fun k => negb (is_remove k)) calls = true.
Proof.
  intros [_ _ _ Ho].
  pose proof (DownloadWithInfo_spec a (objs c) src (q_name q) (SrcKey b))
    as (H1 & _ & H3).
  rewrite Ho in H1, H3. simpl in H1, H3.
  destruct (a_get a) as [err|]; [discriminate|].
  destruct H3 as (t & E & _). injection E as -> _. auto.
Qed.

(** X14.  A request the handler refuses is refused before anything
    happens: when [copyObject] or [moveObject] answers with an HTTP error,
    the code is 400 or 404, no storage call was made, no object was
    touched and no trace event was added. *)
Theorem refused_before_any_call (move : bool) (a : answers) (c : cloud)
        (q : request) (code : Z) (msg : string) :
  r_reply (transfer move a c q) = HttpError code msg ->
  (code = 400 \/ code = 404) /\
  r_calls (transfer move a c q) = [] /\
  r_objs (transfer move a c q) = objs c /\
  r_events (transfer move a c q) = [].
Proof.
  unfold transfer.
  destruct (q_id q) as [pid|];
    [|simpl; intros H; injection H as <- _; auto].
  destruct (pid <=? 0); [simpl; intros H; injection H as <- _; auto|].
  destruct (q_body q) as [err|b];
    [simpl; intros H; injection H as <- _; auto|].
  destruct (String.eqb (SrcKey b) "" || String.eqb (DstBucket b) "");
    [simpl; intros H; injection H as <- _; auto|].
  destruct (getClient c pid) as [src|];
    [|simpl; intros H; injection H as <- _; auto].
  destruct (getClient c _) as [dst|];
    [|simpl; intros H; injection H as <- _; auto].
  destruct (DownloadWithInfo a (objs c) src (q_name q) (SrcKey b))
    as [calls [err|[rc total]]]; [discriminate|].
  destruct (Upload a (objs c) rc total dst (DstBucket b) _ _)
    as [[[o transferred] frames] [err|]]; [discriminate|].
  destruct move; [|discriminate].
  destruct (DeleteObject a o src (q_name q) (SrcKey b)) as [o' [err|]];
    discriminate.
Qed.

Lemma refused_before_any_call_witness :
  r_reply (transfer true all_succeed cloud_one_object bad_id_request)
  = HttpError 400 "invalid provider id" /\
  r_calls (transfer true all_succeed cloud_one_object bad_id_request) = [].
Proof.
  split; [reflexivity|].
  exact (proj1 (proj2 (refused_before_any_call true all_succeed
                         cloud_one_object bad_id_request 400
                         "invalid provider id" eq_refl))).
Defined.








Lemma sorted_replicate n (x : Z) : StronglySorted Z.le (replicate n x).
Proof.
  induction n as [|n IH]; simpl; constructor; [exact IH|].
  apply Forall_forall. intros y Hy. apply elem_of_replicate in Hy as [-> _].
  lia.
Qed.












(** What the upload returns, by cases on the reader and on the put. *)
Lemma Upload_cases a o rc total ep bucket key frames :
  let u := Upload a o rc total ep bucket key frames in
  match rc, a_put a with
  | Some obj, None =>
      snd u = None /\ fst (fst (fst u)) = <[(ep, bucket, key) := obj]> o /\
      snd (fst (fst u)) = size_of obj
  | _, _ => (exists err, snd u = Some err) /\ fst (fst (fst u)) = o
  end.
Proof.
  pose proof (TransferFacts.Upload_spec a o rc total ep bucket key frames)
    as (extra & _ & _ & E3 & _).
  cbv zeta in *.
  destruct (snd (Upload a o rc total ep bucket key frames)) as [err|] eqn:E.
  - destruct E3 as [Ho [->|Hp]]; [now eauto|].
    rewrite Hp. destruct rc; eauto.
  - destruct E3 as (obj & -> & -> & Ho & Ht). auto.
Qed.



(** Either the stores are untouched and no removal was asked for, or the
    transfer got as far as the upload. *)
Lemma transfer_cases move a c q :
  (r_objs (transfer move a c q) = objs c /\
   forallb (fun k => negb (is_remove k)) (r_calls (transfer move a c q))
   = true) \/
  exists b src dst calls rc total, reaches a c q b src dst calls rc total.
Proof.
  unfold transfer.
  destruct (q_id q) as [pid|] eqn:Hq; [|now left].
  destruct (pid <=? 0) eqn:Hpos; [now left|].
  destruct (q_body q) as [err|b] eqn:Hb; [now left|].
  destruct (String.eqb (SrcKey b) "" || String.eqb (DstBucket b) "") eqn:Hk;
    [now left|].
  destruct (getClient c pid) as [src|] eqn:Hs; [|now left].
  destruct (getClient c (if DstProviderID b =? 0 then pid else DstProviderID b))
    as [dst|] eqn:Hd; [|now left].
  destruct (DownloadWithInfo a (objs c) src (q_name q) (SrcKey b))
    as [calls dl] eqn:Ho.
  destruct dl as [err|[rc total]].
  - left. split; [reflexivity|]. simpl.
    pose proof (DownloadWithInfo_spec a (objs c) src (q_name q) (SrcKey b))
      as (H1 & _). now rewrite Ho in H1.
  - right. exists b, src, dst, calls, rc, total.
    constructor; auto. exists pid. repeat split; auto. lia.
Qed.

(** X17.  A copy never takes anything away.  Whatever the request and
    whatever the storage calls answer, [copyObject] makes no
    [RemoveObject] call, every object present before is present after, and
    the stores are either unchanged or changed at the destination key
    alone. *)
Theorem copy_never_removes (a : answers) (c : cloud) (q : request) :
  let r := copyObject a c q in
  forallb (fun k => negb (is_remove k)) (r_calls r) = true /\
  (forall k, is_Some (objs c !! k) -> is_Some (r_objs r !! k)) /\
  (r_objs r = objs c \/
   exists b dst obj, q_body q = inr b /\
     r_objs r = <[(dst, DstBucket b, dst_key b) := obj]> (objs c)).
Proof.
  intros r. subst r.
  destruct (transfer_cases false a c q)
    as [[Ho Hc]|(b & src & dst & calls & rc & total & Hr)].
  - unfold copyObject. rewrite Ho, Hc. auto.
  - destruct (reaches_source _ _ _ _ _ _ _ _ _ Hr) as (_ & _ & Hn).
    assert (Hb : q_body q = inr b) by (now destruct Hr).
    unfold copyObject.
    rewrite (transfer_after_open false a c q b src dst calls rc total Hr).
    pose proof (Upload_cases a (objs c) rc total dst (DstBucket b) (dst_key b)
                  [starting_frame total]) as Hu.
    destruct (Upload a (objs c) rc total dst (DstBucket b) (dst_key b)
                [starting_frame total]) as [[[o transferred] frames] uerr].
    cbn [fst snd] in Hu |- *.
    assert (Hcalls : forallb (fun k => negb (is_remove k))
                       (calls ++ [PutObject dst (DstBucket b) (dst_key b)])
                     = true).
    { rewrite forallb_app, Hn. reflexivity. }
    destruct rc as [obj|]; [destruct (a_put a)|].
    + destruct Hu as [[err ->] ->]. cbn [r_calls r_objs]. auto.
    + destruct Hu as (-> & -> & _). cbn [r_calls r_objs].
      split; [exact Hcalls|].
      split; [|right; exists b, dst, obj; split; [exact Hb|reflexivity]].
      intros k Hk. apply lookup_insert_is_Some.
      destruct (decide ((dst, DstBucket b, dst_key b) = k)) as [E|E];
        [left; exact E|right; split; [exact E|exact Hk]].
    + destruct Hu as [[err ->] ->]. cbn [r_calls r_objs]. auto.
Qed.





(** X19.  [DownloadWithInfo] is best-effort about the size only.  It
    fails exactly when [GetObject] fails, with that error, whatever the
    two size probes answer; when it succeeds, the total it reports is the
    length of the object if either probe succeeded and 0 otherwise, never a
    wrong length; and it makes at most three storage calls, none of them a
    removal. *)
Theorem download_best_effort (a : answers) (o : objects)
        (ep bucket key : string) :
  let d := DownloadWithInfo a o ep bucket key in
  (forall err, snd d = inl err <-> a_get a = Some err) /\
  (forall rc total, snd d = inr (rc, total) ->
     rc = o !! (ep, bucket, key) /\
     (total = 0 \/ exists obj, rc = Some obj /\ total = size_of obj)) /\
  (forall obj, o !! (ep, bucket, key) = Some obj -> a_get a = None ->
     a_stat a = None \/ a_objstat a = None ->
     snd d = inr (Some obj, size_of obj)) /\
  (length (fst d) <= 3)%nat /\
  forallb (fun k => negb (is_remove k)) (fst d) = true.
Proof.
  unfold DownloadWithInfo.
  destruct (a_stat a) as [e1|], (o !! (ep, bucket, key)) as [obj|],
           (a_get a) as [e2|], (a_objstat a) as [e3|]; simpl;
    (split; [intros err; split; intros H; try discriminate;
             injection H as <-; reflexivity|]);
    (split; [intros rc total H; try discriminate;
             injection H as <- <-; eauto|]);
    (split; [intros obj' H1 H2 H3; try discriminate;
             try (injection H1 as <-; reflexivity);
             destruct H3; discriminate|]);
    (split; [lia|reflexivity]).
Qed.

End OutcomeFacts.

(** ** What a summary says about its window *)

Module WindowFacts.
Import Models Obs ObsSpec WindowSpec.

Lemma count_where_snoc P trs t :
  count_where P (trs ++ [t]) = count_where P trs + (if P t then 1 else 0).
Proof.
  unfold count_where. rewrite List.filter_app, length_app. simpl.
  destruct (P t); simpl; lia.
Qed.

Lemma status_key_iff s :
  (status_key s = "2xx" <-> s < 300) /\
  (status_key s = "3xx" <-> 300 <= s < 400) /\
  (status_key s = "4xx" <-> 400 <= s < 500) /\
  (status_key s = "5xx" <-> 500 <= s).
Proof.
  unfold status_key.
  destruct (Z.geb_spec s 500), (Z.geb_spec s 400), (Z.geb_spec s 300);
    repeat split; intros; try discriminate; try reflexivity; lia.
Qed.

Lemma class_step (K : string) (P : TraceRow -> bool) (sc : gmap string Z)
      (sKey : string) (t : TraceRow) (n : Z) :
  sc !! K = Some n -> (P t = true <-> sKey = K) ->
  <[sKey := default 0 (sc !! sKey) + 1]> sc !! K
  = Some (n + (if P t then 1 else 0)).
Proof.
  intros Hn Hiff. destruct (P t).
  - rewrite (proj1 Hiff eq_refl), lookup_insert_eq, Hn. reflexivity.
  - rewrite lookup_insert_ne, Hn, Z.add_0_r; [reflexivity|].
    intros E. apply Hiff in E. discriminate.
Qed.

Lemma statusCounts_spec em now trs :
  let sc := statusCounts (aggregate em now trs) in
  sc !! "2xx" = Some (count_where (fun t => Status t <? 300) trs) /\
  sc !! "3xx"
  = Some (count_where (fun t => (300 <=? Status t) && (Status t <? 400)) trs) /\
  sc !! "4xx"
  = Some (count_where (fun t => (400 <=? Status t) && (Status t <? 500)) trs) /\
  sc !! "5xx" = Some (count_where (fun t => 500 <=? Status t) trs) /\
  dom sc = {["2xx"; "3xx"; "4xx"; "5xx"]}.
Proof.
  induction trs as [|t trs IH] using rev_ind.
  - cbv zeta. unfold aggregate. simpl. repeat split; reflexivity.
  - cbv zeta in *. rewrite BucketFacts.aggregate_snoc.
    destruct IH as (I2 & I3 & I4 & I5 & Id).
    unfold agg_step. cbn [statusCounts]. rewrite !count_where_snoc.
    destruct (status_key_iff (Status t)) as (K2 & K3 & K4 & K5).
    split; [|split; [|split; [|split]]].
    + apply (class_step "2xx" (fun t => Status t <? 300)); [exact I2|].
      rewrite K2. apply Z.ltb_lt.
    + apply (class_step "3xx"
               (fun t => (300 <=? Status t) && (Status t <? 400)));
        [exact I3|].
      rewrite K3, andb_true_iff, Z.leb_le, Z.ltb_lt. reflexivity.
    + apply (class_step "4xx"
               (fun t => (400 <=? Status t) && (Status t <? 500)));
        [exact I4|].
      rewrite K4, andb_true_iff, Z.leb_le, Z.ltb_lt. reflexivity.
    + apply (class_step "5xx" (fun t => 500 <=? Status t)); [exact I5|].
      rewrite K5. apply Z.leb_le.
    + rewrite dom_insert_L, Id.
      assert (Hk : status_key (Status t) ∈ ({["2xx"; "3xx"; "4xx"; "5xx"]} : gset string)).
      { unfold status_key.
        destruct (Status t >=? 500); [set_solver|].
        destruct (Status t >=? 400); [set_solver|].
        destruct (Status t >=? 300); set_solver. }
      apply subseteq_union_1_L, singleton_subseteq_l, Hk.
Qed.

Lemma class_total trs :
  count_where (fun t => Status t <? 300) trs
  + count_where (fun t => (300 <=? Status t) && (Status t <? 400)) trs
  + count_where (fun t => (400 <=? Status t) && (Status t <? 500)) trs
  + count_where (fun t => 500 <=? Status t) trs
  = Z.of_nat (length trs).
Proof.
  induction trs as [|t trs IH] using rev_ind; [reflexivity|].
  rewrite !count_where_snoc, length_app. simpl length.
  destruct (Z.ltb_spec (Status t) 300), (Z.leb_spec 300 (Status t)),
           (Z.ltb_spec (Status t) 400), (Z.leb_spec 400 (Status t)),
           (Z.ltb_spec (Status t) 500), (Z.leb_spec 500 (Status t));
    simpl; lia.
Qed.

Lemma lat_spec em now trs :
  lat (aggregate em now trs) = (fun t => ms_of (DurationNs t)) <$> trs.
Proof.
  induction trs as [|t trs IH] using rev_ind; [reflexivity|].
  rewrite BucketFacts.aggregate_snoc, fmap_app. unfold agg_step.
  cbn [lat]. now rewrite IH.
Qed.

Lemma ms_of_nonneg d : (ms_of d <? 0)%float = false.
Proof.
  unfold ms_of.
  destruct (float_of_Z d / 1000000 <? 0)%float eqn:E; [reflexivity|exact E].
Qed.

Lemma render_Some a pit bit out :
  render a pit bit = Some out ->
  recentLatencies out = lat a /\
  out_statusCounts out = statusCounts a /\
  (exists slow, sortBy (slow_of pit) "p95Ms" = Some slow /\
                topSlow out = take 5 slow) /\
  (exists errs, sortBy (normalize_count <$> errs_of pit) "count" = Some errs /\
                topErrors out = take 8 errs).
Proof.
  unfold render. rewrite RenderFacts.collect_spec. simpl.
  destruct (sortBy (slow_of pit) "p95Ms") as [slow|]; [|discriminate].
  simpl.
  destruct (sortBy (normalize_count <$> errs_of pit) "count") as [errs|];
    [|discriminate].
  simpl. destruct (sort_perMinute (minute_item <$> bit)); [|discriminate].
  simpl. intros [= <-]. simpl. eauto 10.
Qed.

(** X20.  The status classes and the latency list of a summary.  Every
    trace of the window is counted in exactly one of the four classes: a
    status below 300 (informational codes and 0 included) in [2xx], 300 to
    399 in [3xx], 400 to 499 in [4xx], 500 and above in [5xx]; no other
    class appears and the four counts add up to the size of the window.
    [recentLatencies] lists the duration of every trace of the window in
    milliseconds, in window order, and none of them is negative or NaN. *)
Theorem status_classes (em : string -> option string) (now : Z)
        (trs : list TraceRow) (out : summary) :
  obsSummary em now trs (Some out) ->
  let sc := out_statusCounts out in
  sc !! "2xx" = Some (count_where (fun t => Status t <? 300) trs) /\
  sc !! "3xx"
  = Some (count_where (fun t => (300 <=? Status t) && (Status t <? 400)) trs) /\
  sc !! "4xx"
  = Some (count_where (fun t => (400 <=? Status t) && (Status t <? 500)) trs) /\
  sc !! "5xx" = Some (count_where (fun t => 500 <=? Status t) trs) /\
  dom sc = {["2xx"; "3xx"; "4xx"; "5xx"]} /\
  count_where (fun t => Status t <? 300) trs
  + count_where (fun t => (300 <=? Status t) && (Status t <? 400)) trs
  + count_where (fun t => (400 <=? Status t) && (Status t <? 500)) trs
  + count_where (fun t => 500 <=? Status t) trs
  = Z.of_nat (length trs) /\
  recentLatencies out = (fun t => ms_of (DurationNs t)) <$> trs /\
  Forall (fun x => (x <? 0)%float = false /\ is_nan x = false)
         (recentLatencies out).
Proof.
  intros (pit & bit & _ & _ & Hout) sc. subst sc.
  symmetry in Hout. apply render_Some in Hout as (Hl & Hs & _).
  rewrite Hs, Hl, lat_spec.
  destruct (statusCounts_spec em now trs) as (S2 & S3 & S4 & S5 & Sd).
  repeat (split; [assumption|]).
  split; [apply class_total|]. split; [reflexivity|].
  apply Forall_fmap, Forall_forall. intros t _. simpl.
  split; [apply ms_of_nonneg|apply NanFacts.ms_of_not_nan].
Qed.


Lemma obsSummary_exists em now trs : exists out, obsSummary em now trs (Some out).
Proof.
  destruct (RenderFacts.render_total em now trs
              (map_to_list (paths (aggregate em now trs)))
              (map_to_list (buckets (aggregate em now trs)))
              ltac:(reflexivity)) as (out & E & _).
  exists out. unfold obsSummary. eexists _, _. repeat split; eauto.
Qed.

Lemma status_classes_witness :
  exists out, obsSummary no_messages 0 window_ranked (Some out) /\
              out_statusCounts out !! "5xx" = Some 2.
Proof.
  destruct (obsSummary_exists no_messages 0 window_ranked) as (out & H).
  exists out. split; [exact H|].
  exact (proj1 (proj2 (proj2 (proj2
           (status_classes no_messages 0 window_ranked out H))))).
Defined.

Lemma path_traces_snoc p trs t :
  path_traces p (trs ++ [t])
  = path_traces p trs ++ (if String.eqb (Path t) p then [t] else []).
Proof. unfold path_traces, on_path. rewrite List.filter_app. reflexivity. Qed.

Lemma describes_zero : describes pAgg_zero [].
Proof. repeat split. Qed.

Lemma last_filter_snoc (P : TraceRow -> bool) ts t :
  last (List.filter P (ts ++ [t]))
  = if P t then Some t else last (List.filter P ts).
Proof.
  rewrite List.filter_app. simpl. destruct (P t).
  - apply last_snoc.
  - now rewrite app_nil_r.
Qed.

(** One more trace on the path. *)
Lemma describes_step em pa ts t :
  describes pa ts ->
  let pa1 :=
    {| Count := Count pa + 1;
       SumMs := (SumMs pa + ms_of (DurationNs t))%float;
       Lats := if (length (Lats pa) <? 100)%nat
               then Lats pa ++ [ms_of (DurationNs t)] else Lats pa;
       Errs := Errs pa; LastMsg := LastMsg pa;
       LastStatus := LastStatus pa; SampleID := SampleID pa |} in
  describes
    (if Status t >=? 400 then
       {| Count := Count pa1; SumMs := SumMs pa1; Lats := Lats pa1;
          Errs := Errs pa1 + 1;
          LastMsg := default (LastMsg pa1) (em (ID t));
          LastStatus := Status t;
          SampleID := if String.eqb (SampleID pa1) "" then ID t
                      else SampleID pa1 |}
     else pa1)
    (ts ++ [t]).
Proof.
  intros (Hc & He & Hl & Hs) pa1.
  assert (HL : Lats pa1
               = take 100 ((fun t => ms_of (DurationNs t)) <$> (ts ++ [t]))).
  { unfold pa1. cbn [Lats]. rewrite Hl, fmap_app, length_take, length_fmap.
    simpl fmap.
    destruct (Nat.ltb_spec (100 `min` length ts) 100) as [Hlt|Hge].
    - rewrite (take_ge ((fun t => ms_of (DurationNs t)) <$> ts))
        by (rewrite length_fmap; lia).
      symmetry. apply take_ge. rewrite length_app, length_fmap. simpl. lia.
    - symmetry. apply take_app_le. rewrite length_fmap. lia. }
  unfold describes. rewrite count_where_snoc, last_filter_snoc, length_app.
  simpl length. change (failed t) with (Status t >=? 400).
  destruct (Status t >=? 400); cbn [Count Errs Lats LastStatus];
    rewrite <- HL; unfold pa1; cbn [Count Errs Lats LastStatus];
    rewrite Hc, He, ?Hs; repeat split; simpl; lia.
Qed.

Lemma paths_spec em now trs p :
  match paths (aggregate em now trs) !! p with
  | Some pa => path_traces p trs <> [] /\ describes pa (path_traces p trs)
  | None => path_traces p trs = []
  end.
Proof.
  induction trs as [|t trs IH] using rev_ind.
  - unfold aggregate. simpl. now rewrite lookup_empty.
  - rewrite BucketFacts.aggregate_snoc, path_traces_snoc.
    unfold agg_step. cbn [paths].
    destruct (String.eqb_spec (Path t) p) as [->|Hne].
    + rewrite lookup_insert_eq. split; [now destruct (path_traces p trs)|].
      apply describes_step.
      destruct (paths (aggregate em now trs) !! p) as [pa|]; simpl.
      * apply IH.
      * rewrite IH. apply describes_zero.
    + rewrite lookup_insert_ne by exact Hne. rewrite app_nil_r. exact IH.
Qed.


Lemma slow_of_elem it pit :
  it ∈ slow_of pit ->
  exists path ag, (path, ag) ∈ pit /\ 3 <= Count ag /\ it = slow_item path ag.
Proof.
  unfold slow_of. rewrite list_elem_of_In, in_flat_map.
  intros ([path ag] & Hin & Hit). simpl in Hit.
  destruct (Count ag =? 0); [destruct Hit|].
  destruct (Z.geb_spec (Count ag) 3) as [Hge|]; [|destruct Hit].
  destruct Hit as [<-|[]]. exists path, ag.
  rewrite list_elem_of_In. auto.
Qed.

Lemma errs_of_elem it pit :
  it ∈ errs_of pit ->
  exists path ag, (path, ag) ∈ pit /\ 0 < Errs ag /\ it = error_item path ag.
Proof.
  unfold errs_of. rewrite list_elem_of_In, in_flat_map.
  intros ([path ag] & Hin & Hit). simpl in Hit.
  destruct (Count ag =? 0); [destruct Hit|].
  destruct (Z.gtb_spec (Errs ag) 0) as [Hgt|]; [|destruct Hit].
  destruct Hit as [<-|[]]. exists path, ag.
  rewrite list_elem_of_In. split; [assumption|]. split; [lia|reflexivity].
Qed.

Lemma sortBy_perm arr key out :
  Forall (has_key (getk_f key)) arr -> sortBy arr key = Some out ->
  out ≡ₚ arr.
Proof.
  intros Hk E. destruct (RenderFacts.sortBy_total arr key Hk) as (o & E' & Hp).
  rewrite E in E'. now injection E' as ->.
Qed.

Lemma pit_lookup em now trs pit path ag :
  pit ≡ₚ map_to_list (paths (aggregate em now trs)) ->
  (path, ag) ∈ pit ->
  path_traces path trs <> [] /\ describes ag (path_traces path trs).
Proof.
  intros Hp Hin. rewrite Hp in Hin. apply elem_of_map_to_list in Hin.
  pose proof (paths_spec em now trs path) as H. now rewrite Hin in H.
Qed.

(** X21.  The slowest-paths list tells the truth about the window.  It
    has at most five entries; each one names a path on which the window
    holds at least three traces, gives the number of those traces as its
    count, and gives as its p95 the percentile-95 of the latencies of the
    first hundred of them in window order. *)
Theorem top_slow_sound (em : string -> option string) (now : Z)
        (trs : list TraceRow) (out : summary) :
  obsSummary em now trs (Some out) ->
  (length (topSlow out) <= 5)%nat /\
  Forall (fun it => exists path,
            let ts := path_traces path trs in
            (3 <= length ts)%nat /\
            it !! "path" = Some (AStr path) /\
            it !! "count" = Some (AInt (Z.of_nat (length ts))) /\
            it !! "p95Ms"
            = Some (AFloat64
                      (percentile
                         (take 100 ((fun t => ms_of (DurationNs t)) <$> ts))
                         95)))
         (topSlow out).
Proof.
  intros (pit & bit & Hp & _ & Hout).
  symmetry in Hout. apply render_Some in Hout as (_ & _ & (slow & Es & ->) & _).
  split; [rewrite length_take; lia|].
  apply Forall_forall. intros it Hit.
  apply subseteq_take in Hit.
  rewrite (sortBy_perm _ _ _ (RenderFacts.slow_of_keys pit) Es) in Hit.
  apply slow_of_elem in Hit as (path & ag & Hin & Hc & ->).
  destruct (pit_lookup em now trs pit path ag Hp Hin)
    as (_ & Dc & _ & Dl & _).
  exists path. cbv zeta. rewrite <- Dl. unfold slow_item.
  split; [lia|]. rewrite <- Dc.
  split; [|split].
  - rewrite !lookup_insert_ne by done. apply lookup_singleton_eq.
  - rewrite !lookup_insert_ne by done. apply lookup_insert_eq.
  - apply lookup_insert_eq.
Qed.

Lemma top_slow_sound_witness :
  exists out, obsSummary no_messages 0 window_ranked (Some out) /\
              (length (topSlow out) <= 5)%nat.
Proof.
  destruct (obsSummary_exists no_messages 0 window_ranked) as (out & H).
  exists out. split; [exact H|].
  exact (proj1 (top_slow_sound no_messages 0 window_ranked out H)).
Defined.

(** X22.  The failing-paths list tells the truth about the window.  It
    has at most eight entries; each one names a path on which the window
    holds at least one trace with status 400 or above, gives the number of
    those traces as its count (as a float), and gives as its last status
    the status of the last of them in window order. *)
Theorem top_errors_sound (em : string -> option string) (now : Z)
        (trs : list TraceRow) (out : summary) :
  obsSummary em now trs (Some out) ->
  (length (topErrors out) <= 8)%nat /\
  Forall (fun it => exists path t,
            let ts := path_traces path trs in
            0 < count_where failed ts /\
            last (List.filter failed ts) = Some t /\
            it !! "path" = Some (AStr path) /\
            it !! "count"
            = Some (AFloat64 (float_of_Z (count_where failed ts))) /\
            it !! "lastStatus" = Some (AInt (Status t)))
         (topErrors out).
Proof.
  intros (pit & bit & Hp & _ & Hout).
  symmetry in Hout.
  apply render_Some in Hout as (_ & _ & _ & (errs & Ee & ->)).
  split; [rewrite length_take; lia|].
  apply Forall_forall. intros it Hit.
  apply subseteq_take in Hit.
  rewrite (sortBy_perm _ _ _ (RenderFacts.errs_of_keys pit) Ee) in Hit.
  apply list_elem_of_fmap in Hit as (it0 & -> & Hit).
  apply errs_of_elem in Hit as (path & ag & Hin & Hc & ->).
  destruct (pit_lookup em now trs pit path ag Hp Hin)
    as (_ & _ & De & _ & Ds).
  rewrite De in Hc.
  destruct (last (List.filter failed (path_traces path trs))) as [t|] eqn:El.
  2:{ exfalso. apply last_None in El. unfold count_where in Hc.
      rewrite El in Hc. simpl in Hc. lia. }
  exists path, t. cbv zeta. rewrite <- De. simpl in Ds. rewrite <- Ds.
  split; [rewrite De; exact Hc|]. split; [exact El|].
  assert (E : error_item path ag !! "count" = Some (AInt (Errs ag))).
  { unfold error_item. rewrite !lookup_insert_ne by done.
    apply lookup_insert_eq. }
  unfold normalize_count. rewrite E.
  split; [|split].
  - rewrite lookup_insert_ne by done. unfold error_item.
    rewrite !lookup_insert_ne by done. apply lookup_singleton_eq.
  - apply lookup_insert_eq.
  - rewrite lookup_insert_ne by done. unfold error_item.
    rewrite lookup_insert_ne by done. apply lookup_insert_eq.
Qed.

Lemma top_errors_sound_witness :
  exists out, obsSummary no_messages 0 window_ranked (Some out) /\
              (length (topErrors out) <= 8)%nat.
Proof.
  destruct (obsSummary_exists no_messages 0 window_ranked) as (out & H).
  exists out. split; [exact H|].
  exact (proj1 (top_errors_sound no_messages 0 window_ranked out H)).
Defined.


Lemma fle_refl x : is_nan x = false -> fle x x.
Proof.
  intros Hx%FloatOrder.is_nan_false. unfold fle.
  rewrite FloatAxioms.leb_spec. unfold SFleb.
  now rewrite FloatOrder.SFcompare_refl.
Qed.

Lemma sorted_lookup {A} (R : A -> A -> Prop) l :
  StronglySorted R l ->
  forall i j x y, l !! i = Some x -> l !! j = Some y -> (i < j)%nat -> R x y.
Proof.
  induction 1 as [|a l Hs IH Ha]; intros i j x y Hi Hj Hlt.
  - discriminate.
  - destruct j as [|j]; [lia|]. simpl in Hj.
    destruct i as [|i]; simpl in Hi.
    + injection Hi as <-. rewrite Forall_forall in Ha.
      apply Ha. rewrite list_elem_of_In.
      eapply list_elem_of_In, list_elem_of_lookup_2, Hj.
    + apply (IH i j); auto. lia.
Qed.

Lemma float_of_0 : float_of_Z 0 = 0%float.
Proof. vm_compute. reflexivity. Qed.

Lemma float_of_100 : float_of_Z 100 = 100%float.
Proof. vm_compute. reflexivity. Qed.

(** The percentile of a sample is one of its values. *)
Lemma percentile_elem vals p : vals <> [] -> percentile vals p ∈ vals.
Proof.
  intros Hne. rewrite PercentileFacts.percentile_isort by exact Hne.
  assert (Hlen : length (isort vals) = length vals).
  { apply Permutation_length, PercentileFacts.isort_perm. }
  set (x := nth _ (isort vals) _).
  assert (Hx : x ∈ isort vals).
  { apply list_elem_of_In, nth_In. rewrite Hlen.
    pose proof (PercentileFacts.percentile_index_range
                  (Z.of_nat (length vals)) p) as Hr.
    destruct vals; [congruence|]. simpl length in *. lia. }
  clearbody x. now rewrite PercentileFacts.isort_perm in Hx.
Qed.

(** X23.  The percentile helper at its edges.  Of an empty sample it is
    0.  Of any other sample it is always one of the samples, whatever the
    percentile asked for, NaN, negative or above 100 included.  For a
    NaN-free sample of at most a hundred values, percentile 0 is a least
    and percentile 100 a greatest sample. *)
Theorem percentile_edges (vals : list float) (p : float) :
  percentile [] p = 0%float /\
  (vals <> [] -> percentile vals p ∈ vals) /\
  (vals <> [] -> (length vals <= 100)%nat -> no_nan vals ->
   (forall v, v ∈ vals -> fle (percentile vals 0) v) /\
   (forall v, v ∈ vals -> fle v (percentile vals 100))).
Proof.
  split; [reflexivity|].
  assert (Hlen : length (isort vals) = length vals).
  { apply Permutation_length, PercentileFacts.isort_perm. }
  split.
  - apply percentile_elem.
  - intros Hne Hle Hnn.
    assert (Hpos : (0 < length vals)%nat).
    { destruct vals; [congruence|simpl; lia]. }
    pose proof (PercentileFacts.isort_sorted vals Hnn) as Hs.
    assert (Hnn' : forall x, x ∈ isort vals -> is_nan x = false).
    { intros x Hx. rewrite PercentileFacts.isort_perm in Hx.
      unfold no_nan in Hnn. rewrite Forall_forall in Hnn. now apply Hnn. }
    rewrite <- float_of_0, <- float_of_100.
    rewrite !PercentileFacts.percentile_isort by exact Hne.
    rewrite (PercentileFacts.percentile_index_int
               (Z.of_nat (length vals)) 0) by lia.
    rewrite (PercentileFacts.percentile_index_int
               (Z.of_nat (length vals)) 100) by lia.
    assert (E0 : nearest_rank_index (Z.of_nat (length vals)) 0
                 - (if rounding_exception (Z.of_nat (length vals)) 0
                    then 1 else 0) = 0).
    { unfold nearest_rank_index, rounding_exception.
      change (0 =? 58) with false. change (0 =? 70) with false.
      cbn [andb orb]. rewrite Z.mul_0_l, Zdiv_0_l. lia. }
    assert (E1 : nearest_rank_index (Z.of_nat (length vals)) 100
                 - (if rounding_exception (Z.of_nat (length vals)) 100
                    then 1 else 0) = Z.of_nat (length vals) - 1).
    { unfold nearest_rank_index, rounding_exception.
      change (100 =? 58) with false. change (100 =? 70) with false.
      cbn [andb orb]. rewrite (Z.mul_comm 100), Z.div_mul by lia. lia. }
    rewrite E0, E1.
    split; intros v Hv; rewrite <- (PercentileFacts.isort_perm vals) in Hv;
      apply list_elem_of_lookup_1 in Hv as [j Hj];
      pose proof (lookup_lt_Some _ _ _ Hj) as Hjl; rewrite Hlen in Hjl.
    + destruct (isort vals !! 0%nat) as [m|] eqn:Em;
        [|apply lookup_ge_None in Em; lia].
      rewrite (nth_lookup_Some _ _ _ _ Em).
      destruct j as [|j].
      * rewrite Em in Hj. injection Hj as <-.
        apply fle_refl, Hnn'. eapply list_elem_of_lookup_2, Em.
      * apply (sorted_lookup fle _ Hs 0%nat (S j)); auto. lia.
    + replace (Z.to_nat (Z.of_nat (length vals) - 1))
        with (length vals - 1)%nat by lia.
      destruct (isort vals !! (length vals - 1)%nat) as [m|] eqn:Em;
        [|apply lookup_ge_None in Em; lia].
      rewrite (nth_lookup_Some _ _ _ _ Em).
      destruct (decide (j = (length vals - 1)%nat)) as [->|Hjn].
      * rewrite Em in Hj. injection Hj as <-.
        apply fle_refl, Hnn'. eapply list_elem_of_lookup_2, Em.
      * apply (sorted_lookup fle _ Hs j (length vals - 1)%nat); auto. lia.
Qed.

Lemma percentile_edges_witness :
  sample5 <> [] /\ percentile sample5 97 ∈ sample5.
Proof.
  assert (H : sample5 <> []) by discriminate.
  split; [exact H|].
  exact (proj1 (proj2 (percentile_edges sample5 97)) H).
Defined.

End WindowFacts.

(** ** Reading the configuration *)

Module ConfigFacts.
Import Config ConfigSpec.

Lemma wrap_wrap x k : wrap_int64 (wrap_int64 x * 10 + k) = wrap_int64 (x * 10 + k).
Proof.
  unfold wrap_int64. f_equal.
  replace ((x + 2 ^ 63) mod 2 ^ 64 - 2 ^ 63) with
    (x + 2^63 - 2^64 * ((x + 2^63) / 2^64) - 2^63).
  2:{ pose proof (Z.div_mod (x + 2^63) (2^64) ltac:(lia)). lia. }
  replace ((x + 2 ^ 63 - 2 ^ 64 * ((x + 2 ^ 63) / 2 ^ 64) - 2 ^ 63) * 10 + k + 2 ^ 63)
    with (x * 10 + k + 2^63 + (- 10 * ((x + 2 ^ 63) / 2 ^ 64)) * 2^64) by lia.
  apply Z_mod_plus_full.
Qed.

Lemma wrap_small x : - 2 ^ 63 <= x < 2 ^ 63 -> wrap_int64 x = x.
Proof. intros H. unfold wrap_int64. rewrite Z.mod_small; lia. Qed.

Lemma parse_loop_spec v : forall acc,
  parse_loop v (wrap_int64 acc)
  = match NilEmpty.uint_of_string v with
    | Some d => Some (wrap_int64 (horner d acc))
    | None => None
    end.
Proof.
  induction v as [|c v IH]; intros acc; [reflexivity|].
  cbn [parse_loop NilEmpty.uint_of_string].
  destruct c as [[] [] [] [] [] [] [] []];
    cbn -[wrap_int64 Z.mul Z.add parse_loop NilEmpty.uint_of_string];
    try (destruct (NilEmpty.uint_of_string v); reflexivity);
    rewrite wrap_wrap, IH;
    destruct (NilEmpty.uint_of_string v); try reflexivity;
    cbn [horner]; rewrite ?Z.add_0_r; reflexivity.
Qed.


Lemma horner_acc d : forall acc,
  Z.pos (Pos.of_uint_acc d acc) = horner d (Z.pos acc).
Proof.
  induction d; intros acc; cbn [Pos.of_uint_acc horner];
    rewrite ?IHd; try reflexivity; f_equal; lia.
Qed.

Lemma horner_of_uint d : horner d 0 = Z.of_uint d.
Proof.
  unfold Z.of_uint.
  induction d; cbn [Pos.of_uint horner]; try exact IHd; try reflexivity;
    cbn [Z.of_N]; rewrite horner_acc; reflexivity.
Qed.

(** X24.  How [getEnvInt64] reads a variable.  An unset or empty
    variable gives the default; a value with any character that is not a
    decimal digit (a sign, a space, a decimal point) gives the default; a
    value made of decimal digits gives the number they denote, reduced to
    a two's-complement [int64]: nothing detects overflow.  In particular
    the decimal rendering of any [n] with [0 <= n < 2^63] reads back as
    [n]. *)
Theorem getEnvInt64_reads_decimal (environ : string -> string)
        (key : string) (def : Z) :
  (environ key = "" -> getEnvInt64 environ key def = def) /\
  (NilEmpty.uint_of_string (environ key) = None ->
   getEnvInt64 environ key def = def) /\
  (forall d, environ key <> "" ->
     NilEmpty.uint_of_string (environ key) = Some d ->
     getEnvInt64 environ key def = wrap_int64 (Z.of_uint d)) /\
  (forall n, 0 <= n < 2 ^ 63 ->
     environ key = NilEmpty.string_of_uint (N.to_uint (Z.to_N n)) ->
     getEnvInt64 environ key def = n).
Proof.
  assert (Hp : parse_loop (environ key) 0
               = match NilEmpty.uint_of_string (environ key) with
                 | Some d => Some (wrap_int64 (Z.of_uint d))
                 | None => None
                 end).
  { change 0 with (wrap_int64 0) at 1. rewrite parse_loop_spec.
    destruct (NilEmpty.uint_of_string (environ key)); [|reflexivity].
    now rewrite horner_of_uint. }
  unfold getEnvInt64. rewrite Hp.
  split; [now intros ->|]. split; [|split].
  - intros ->. now destruct (String.eqb (environ key) "").
  - intros d Hne ->. apply String.eqb_neq in Hne. now rewrite Hne.
  - intros n Hn E.
    assert (Hd : N.to_uint (Z.to_N n) <> Decimal.Nil).
    { destruct (Z.to_N n); [discriminate|].
      apply DecimalPos.Unsigned.to_uint_nonnil. }
    assert (Hne : environ key <> "").
    { rewrite E. destruct (N.to_uint (Z.to_N n)); try discriminate.
      congruence. }
    apply String.eqb_neq in Hne. rewrite Hne, E, NilEmpty.usu.
    unfold Z.of_uint.
    change (Pos.of_uint (N.to_uint (Z.to_N n)))
      with (N.of_uint (N.to_uint (Z.to_N n))).
    rewrite DecimalN.Unsigned.of_to, Z2N.id by lia.
    apply wrap_small. lia.
Qed.

Lemma getEnvInt64_reads_decimal_witness :
  0 <= 1048576 < 2 ^ 63 /\
  getEnvInt64 (only "MAX_UPLOAD_SIZE_BYTES" "1048576")
              "MAX_UPLOAD_SIZE_BYTES" 0 = 1048576.
Proof.
  split; [lia|].
  exact (proj2 (proj2 (proj2 (getEnvInt64_reads_decimal
                  (only "MAX_UPLOAD_SIZE_BYTES" "1048576")
                  "MAX_UPLOAD_SIZE_BYTES" 0))) 1048576 ltac:(lia) eq_refl).
Defined.

Lemma getEnv_nonempty environ key def :
  def <> "" -> getEnv environ key def <> "".
Proof.
  intros Hd. unfold getEnv.
  destruct (String.eqb_spec (environ key) ""); assumption.
Qed.

(** What [Load] guarantees.  Whatever the environment holds, the
    environment name, the port, the database path, the driver and the static
    directory of the configuration are never empty: a variable that is
    unset or set to the empty string gives its default.  The DSN is
    [DATABASE_URL] when that is set, else [DB_DSN], else empty; and with
    nothing set the configuration is the documented defaults. *)
Lemma Load_defaults (environ : string -> string) :
  let c := Load environ in
  Env c <> "" /\ HttpPort c <> "" /\ DBPath c <> "" /\ DBDriver c <> "" /\
  StaticDir c <> "" /\
  DBDsn c = (if String.eqb (environ "DATABASE_URL") ""
             then environ "DB_DSN" else environ "DATABASE_URL") /\
  ((forall k, environ k = "") ->
   c = mkConfig "dev" "8080" "data/hermes.db" "sqlite" "" "web/dist" 0).
Proof.
  cbv zeta. unfold Load. cbn [Env HttpPort DBPath DBDriver StaticDir DBDsn].
  repeat (split; [apply getEnv_nonempty; discriminate|]).
  split.
  - unfold getEnv.
    destruct (String.eqb (environ "DATABASE_URL") ""); [|reflexivity].
    now destruct (String.eqb_spec (environ "DB_DSN") "").
  - intros Hall. unfold getEnv, getEnvInt64. rewrite !Hall. reflexivity.
Qed.

End ConfigFacts.

(** ** Compacted SQL text *)

Module GormTextFacts.
Import GormText GormTextSpec.




























End GormTextFacts.

(** ** Roles and identities at an OIDC login *)

Module AuthFacts.
Import GormText Auth AuthSpec.

Section Roles.
Variable lower : Z -> Z.

Lemma set_of_list (set : list (list Z)) : forall (m : gset (list Z)) x,
  x ∈ fold_left (fun m v => {[v]} ∪ m) set m <-> x ∈ set \/ x ∈ m.
Proof.
  induction set as [|v set IH]; intros m x; simpl.
  - rewrite elem_of_nil. tauto.
  - rewrite IH, elem_of_cons, elem_of_union, elem_of_singleton. tauto.
Qed.

Lemma containsAny_loop_spec m needles :
  containsAny_loop lower m needles = true
  <-> exists n, n ∈ needles /\ ToLower lower (TrimSpace n) ∈ m.
Proof.
  induction needles as [|n needles IH]; simpl.
  - split; [discriminate|]. intros (n & Hn & _). now apply elem_of_nil in Hn.
  - destruct (decide (ToLower lower (TrimSpace n) ∈ m)) as [Hin|Hout].
    + split; [|reflexivity]. intros _. exists n. split; [left|exact Hin].
    + rewrite IH. split.
      * intros (x & Hx & Hm). exists x. split; [now right|exact Hm].
      * intros (x & Hx & Hm). apply elem_of_cons in Hx as [->|Hx];
          [contradiction|eauto].
Qed.

Lemma containsAny_spec set needles :
  containsAny lower set needles = true
  <-> exists n, n ∈ needles /\ ToLower lower (TrimSpace n) ∈ set.
Proof.
  unfold containsAny. rewrite containsAny_loop_spec.
  split; intros (n & Hn & Hm); exists n; (split; [exact Hn|]).
  - apply set_of_list in Hm as [Hm|Hm]; [exact Hm|]. set_solver.
  - apply set_of_list. now left.
Qed.

Lemma containsAny_matches claims ac setting :
  containsAny lower (combined lower claims ac) (split lower setting) = true
  <-> matches lower claims ac setting.
Proof. apply containsAny_spec. Qed.

(** X28.  The role a user's claims map to.  [mapClaimsToRole] answers
    [admin] exactly when a value listed under the admin setting is among
    the user's role or group claim values, [editor] exactly when none is
    but a value listed under the editor setting is, [viewer] exactly when
    neither is but a value listed under the viewer setting is, and the
    empty string exactly when nothing matches: the higher role wins, and
    the answer is never anything else. *)
Theorem role_priority (claims : gmap (list Z) cval) (ac : AuthConfig) :
  let r := mapClaimsToRole lower claims ac in
  let admin := matches lower claims ac (OIDCAdminValues ac) in
  let editor := matches lower claims ac (OIDCEditorValues ac) in
  let viewer := matches lower claims ac (OIDCViewerValues ac) in
  (r = "admin" <-> admin) /\
  (r = "editor" <-> ~ admin /\ editor) /\
  (r = "viewer" <-> ~ admin /\ ~ editor /\ viewer) /\
  (r = "" <-> ~ admin /\ ~ editor /\ ~ viewer) /\
  (r = "admin" \/ r = "editor" \/ r = "viewer" \/ r = "").
Proof.
  cbv zeta. unfold mapClaimsToRole.
  pose proof (containsAny_matches claims ac (OIDCAdminValues ac)) as Ha.
  pose proof (containsAny_matches claims ac (OIDCEditorValues ac)) as He.
  pose proof (containsAny_matches claims ac (OIDCViewerValues ac)) as Hv.
  destruct (containsAny lower _ (split lower (OIDCAdminValues ac)));
    [|destruct (containsAny lower _ (split lower (OIDCEditorValues ac)));
      [|destruct (containsAny lower _ (split lower (OIDCViewerValues ac)))]].
  - assert (A : matches lower claims ac (OIDCAdminValues ac)) by now apply Ha.
    clear Ha He Hv. intuition (try discriminate).
  - assert (A : ~ matches lower claims ac (OIDCAdminValues ac)).
    { intros H. apply Ha in H. discriminate. }
    assert (E : matches lower claims ac (OIDCEditorValues ac)) by now apply He.
    clear Ha He Hv. intuition (try discriminate).
  - assert (A : ~ matches lower claims ac (OIDCAdminValues ac)).
    { intros H. apply Ha in H. discriminate. }
    assert (E : ~ matches lower claims ac (OIDCEditorValues ac)).
    { intros H. apply He in H. discriminate. }
    assert (V : matches lower claims ac (OIDCViewerValues ac)) by now apply Hv.
    clear Ha He Hv. intuition (try discriminate).
  - assert (A : ~ matches lower claims ac (OIDCAdminValues ac)).
    { intros H. apply Ha in H. discriminate. }
    assert (E : ~ matches lower claims ac (OIDCEditorValues ac)).
    { intros H. apply He in H. discriminate. }
    assert (V : ~ matches lower claims ac (OIDCViewerValues ac)).
    { intros H. apply Hv in H. discriminate. }
    clear Ha He Hv. intuition (try discriminate).
Qed.


Lemma mapClaimsToRole_cases claims ac :
  let r := mapClaimsToRole lower claims ac in
  (r = "admin" /\ matches lower claims ac (OIDCAdminValues ac)) \/
  (r = "editor" /\ matches lower claims ac (OIDCEditorValues ac)) \/
  (r = "viewer" /\ matches lower claims ac (OIDCViewerValues ac)) \/
  (r = "" /\ ~ matches lower claims ac (OIDCAdminValues ac) /\
   ~ matches lower claims ac (OIDCEditorValues ac) /\
   ~ matches lower claims ac (OIDCViewerValues ac)).
Proof.
  cbv zeta. unfold mapClaimsToRole.
  pose proof (containsAny_matches claims ac (OIDCAdminValues ac)) as Ha.
  pose proof (containsAny_matches claims ac (OIDCEditorValues ac)) as He.
  pose proof (containsAny_matches claims ac (OIDCViewerValues ac)) as Hv.
  destruct (containsAny lower _ (split lower (OIDCAdminValues ac)));
    [left; split; [reflexivity|now apply Ha]|].
  destruct (containsAny lower _ (split lower (OIDCEditorValues ac)));
    [right; left; split; [reflexivity|now apply He]|].
  destruct (containsAny lower _ (split lower (OIDCViewerValues ac)));
    [right; right; left; split; [reflexivity|now apply Hv]|].
  right. right. right. split; [reflexivity|].
  repeat split; intros H; [apply Ha in H|apply He in H|apply Hv in H];
    discriminate.
Qed.

Lemma defaultRole_cases r :
  (defaultRole lower r = "admin" /\
   TrimSpace (ToLower lower r) = runes "admin") \/
  (defaultRole lower r = "editor" /\
   TrimSpace (ToLower lower r) = runes "editor") \/
  (defaultRole lower r = "viewer" /\
   TrimSpace (ToLower lower r) <> runes "admin" /\
   TrimSpace (ToLower lower r) <> runes "editor").
Proof.
  unfold defaultRole.
  destruct (bool_decide_reflect (TrimSpace (ToLower lower r) = runes "admin"))
    as [E|N]; [now left|].
  destruct (bool_decide_reflect (TrimSpace (ToLower lower r) = runes "editor"))
    as [E'|N']; [right; now left|].
  right. right.
  destruct (bool_decide (TrimSpace (ToLower lower r) = runes "viewer")); auto.
Qed.

(** X29.  The role given at an OIDC login.  The role [oidcCallback]
    derives is always [admin], [editor] or [viewer], never empty and never
    a string taken from the claims or the settings.  It is [admin] only
    when a claim value matches the admin setting, or when no claim value
    matches any setting and the configured default role reads [admin];
    and when nothing matches and the default role is not a known role
    name, it is [viewer]. *)
Theorem login_role_valid (claims : gmap (list Z) cval) (ac : AuthConfig) :
  let r := mappedRole lower claims ac in
  let nothing :=
    ~ matches lower claims ac (OIDCAdminValues ac) /\
    ~ matches lower claims ac (OIDCEditorValues ac) /\
    ~ matches lower claims ac (OIDCViewerValues ac) in
  let default := TrimSpace (ToLower lower (DefaultRole ac)) in
  (r = "admin" \/ r = "editor" \/ r = "viewer") /\
  (r = "admin" ->
   matches lower claims ac (OIDCAdminValues ac) \/
   (nothing /\ default = runes "admin")) /\
  (nothing -> default <> runes "admin" -> default <> runes "editor" ->
   r = "viewer").
Proof.
  cbv zeta. unfold mappedRole.
  destruct (mapClaimsToRole_cases claims ac)
    as [[-> A]|[[-> E]|[[-> V]|[-> N]]]]; simpl String.eqb; cbv iota.
  - split; [auto|]. split; [auto|]. intros (NA & _). contradiction.
  - split; [auto|]. split; [discriminate|]. intros (_ & NE & _). contradiction.
  - split; [auto|]. split; [discriminate|]. intros (_ & _ & NV). contradiction.
  - destruct (defaultRole_cases (DefaultRole ac))
      as [[-> D]|[[-> D]|[-> [D1 D2]]]].
    + split; [auto|]. split; [auto|]. intros _ H. contradiction.
    + split; [auto|]. split; [discriminate|]. intros _ _ H. contradiction.
    + split; [auto|]. split; [discriminate|]. reflexivity.
Qed.

(** X30.  The identity of an OIDC login.  The user is signed in under the
    [email] claim unless it is blank, and then under the
    [preferred_username] claim, in both cases trimmed and lower-cased;
    the login is refused for want of an e-mail exactly when both claims
    are empty or white space. *)
Theorem login_identity (email username : list Z) :
  (login_email lower email username = []
   <-> TrimSpace email = [] /\ TrimSpace username = []) /\
  (TrimSpace email = [] ->
   login_email lower email username = ToLower lower (TrimSpace username)) /\
  (TrimSpace email <> [] ->
   login_email lower email username = ToLower lower (TrimSpace email)).
Proof.
  unfold login_email, firstNonEmpty.
  assert (Hl : forall x, ToLower lower x = [] <-> x = []).
  { intros x. unfold ToLower. split; [apply fmap_nil_inv|now intros ->]. }
  destruct (bool_decide_reflect (TrimSpace email = [])) as [E|N]; simpl negb;
    cbv iota.
  - destruct (bool_decide_reflect (TrimSpace username = [])) as [E'|N'];
      simpl negb; cbv iota.
    + split; [split; [auto|reflexivity]|].
      split; [now rewrite E'|congruence].
    + split; [rewrite Hl; tauto|]. split; [reflexivity|congruence].
  - split; [rewrite Hl; tauto|]. split; [congruence|reflexivity].
Qed.

End Roles.

Lemma login_identity_witness :
  TrimSpace (runes " ") = [] /\
  login_email ascii_lower (runes " ") (runes "Ann@Example.org ")
  = runes "ann@example.org".
Proof.
  split; [reflexivity|].
  exact (proj1 (proj2 (login_identity ascii_lower (runes " ")
                         (runes "Ann@Example.org "))) eq_refl).
Defined.

Lemma login_role_valid_witness :
  mappedRole ascii_lower editor_claims test_config = "editor".
Proof.
  destruct (proj1 (login_role_valid ascii_lower editor_claims test_config))
    as [H|[H|H]]; [| exact H |];
    exfalso; revert H; vm_compute; discriminate.
Defined.

End AuthFacts.

(** ** The rankings of a summary *)

Module RankFacts.
Import Models Obs ObsSpec RankSpec.

Section Weak.
Context {K : Type} (getk : item -> option K) (better : K -> K -> bool)
        (ok : K -> Prop).
Hypothesis better_irrefl : forall a, better a a = false.
Hypothesis better_trans :
  forall a b c, better a b = true -> better b c = true -> better a c = true.
Hypothesis weak_trans :
  forall a b c, ok a -> ok b -> ok c ->
    better b a = false -> better c b = false -> better c a = false.

Local Abbreviation W := (not_after getk better).
Local Abbreviation good := (keyed getk ok).

Lemma good_has_key l : Forall good l -> Forall (has_key getk) l.
Proof.
  intros H. eapply Forall_impl; [exact H|].
  intros x (k & E & _). unfold has_key. now rewrite E.
Qed.

(** The inner loop returns an index no element of the range beats. *)
Lemma sel_inner_top suf :
  Forall good suf ->
  forall js m, (m < length suf)%nat -> Forall (fun j => (j < length suf)%nat) js ->
  exists m', sel_inner getk better suf js m = Some m' /\
    (m' < length suf)%nat /\
    forall j y c, In j (m :: js) ->
      suf !! j = Some y -> suf !! m' = Some c -> W c y.
Proof.
  intros Hk. induction js as [|j js IH]; intros m Hm Hjs.
  - exists m. split; [reflexivity|]. split; [exact Hm|].
    intros j y c [<-|[]] Hy Hc. rewrite Hy in Hc. injection Hc as <-.
    rewrite Forall_forall in Hk.
    destruct (Hk y (list_elem_of_lookup_2 _ _ _ Hy)) as (k & E & _).
    unfold not_after. rewrite E. apply better_irrefl.
  - apply Forall_cons in Hjs as [Hj Hjs]. simpl.
    destruct (lookup_lt_is_Some_2 suf j Hj) as [xj Hxj].
    destruct (lookup_lt_is_Some_2 suf m Hm) as [xm Hxm].
    pose proof Hk as Hk'. rewrite Forall_forall in Hk'.
    destruct (Hk' xj (list_elem_of_lookup_2 _ _ _ Hxj)) as (kj & Hkj & Oj).
    destruct (Hk' xm (list_elem_of_lookup_2 _ _ _ Hxm)) as (km & Hkm & Om).
    rewrite Hxj, Hxm. simpl. rewrite Hkj, Hkm. simpl.
    destruct (better kj km) eqn:Hb.
    + destruct (IH j Hj Hjs) as (m' & E & Hlt & Hbest).
      exists m'. split; [exact E|]. split; [exact Hlt|].
      intros q y c Hq Hy Hc.
      destruct Hq as [<-|Hq]; [|now apply (Hbest q y c)].
      rewrite Hxm in Hy. injection Hy as <-.
      pose proof (Hbest j xj c (or_introl eq_refl) Hxj Hc) as Hcj.
      destruct (Hk' c (list_elem_of_lookup_2 _ _ _ Hc)) as (kc & Hkc & Oc).
      unfold not_after in *. rewrite Hkc, Hkm. rewrite Hkc, Hkj in Hcj.
      destruct (better km kc) eqn:Hmc; [|reflexivity].
      rewrite (better_trans _ _ _ Hb Hmc) in Hcj. discriminate.
    + destruct (IH m Hm Hjs) as (m' & E & Hlt & Hbest).
      exists m'. split; [exact E|]. split; [exact Hlt|].
      intros q y c Hq Hy Hc.
      destruct Hq as [<-|[<-|Hq]].
      * apply (Hbest m y c); [now left|exact Hy|exact Hc].
      * rewrite Hxj in Hy. injection Hy as <-.
        pose proof (Hbest m xm c (or_introl eq_refl) Hxm Hc) as Hcm.
        destruct (Hk' c (list_elem_of_lookup_2 _ _ _ Hc)) as (kc & Hkc & Oc).
        unfold not_after in *. rewrite Hkc, Hkj. rewrite Hkc, Hkm in Hcm.
        exact (weak_trans kc km kj Oc Om Oj Hcm Hb).
      * apply (Hbest q y c); [now right|exact Hy|exact Hc].
Qed.

Lemma sel_outer_ranked n : forall pre suf,
  length suf = n -> Forall good suf ->
  exists suf',
    sel_outer getk better (seq (length pre) n) (pre ++ suf)
    = Some (pre ++ suf') /\
    suf' ≡ₚ suf /\ StronglySorted W suf'.
Proof.
  induction n as [|n IH]; intros pre suf Hlen Hk.
  - destruct suf; [|discriminate]. exists []. simpl.
    split; [reflexivity|]. split; [reflexivity|]. constructor.
  - destruct suf as [|a rest]; [discriminate|]. simpl in Hlen.
    injection Hlen as Hlen. simpl seq. simpl sel_outer.
    rewrite length_app. simpl length.
    replace (length pre + S (length rest) - S (length pre))%nat
      with (length rest) by lia.
    rewrite (SelectionFacts.sel_inner_at getk better pre (a :: rest)
               (length rest)).
    destruct (sel_inner_top (a :: rest) Hk (seq 1 (length rest)) 0%nat)
      as (m & E & Hm & Hbest).
    { simpl. lia. }
    { apply Forall_forall. intros j Hj. apply list_elem_of_In, in_seq in Hj.
      simpl. lia. }
    rewrite E. simpl.
    replace (swap (pre ++ a :: rest) (length pre) (length pre + m))
      with (pre ++ swap (a :: rest) 0 m)
      by (rewrite <- SelectionFacts.swap_app_r; f_equal; lia).
    assert (Hsw : exists c rest', swap (a :: rest) 0 m = c :: rest' /\
              c :: rest' ≡ₚ a :: rest /\ length rest' = length rest /\
              Forall (W c) rest').
    { destruct m as [|m'].
      - exists a, rest. unfold swap. simpl.
        split; [reflexivity|]. split; [reflexivity|]. split; [reflexivity|].
        apply Forall_forall. intros y Hy.
        apply list_elem_of_lookup in Hy as [q Hq].
        apply (Hbest (S q) y a); [|exact Hq|reflexivity].
        right. apply in_seq. apply lookup_lt_Some in Hq. lia.
      - simpl in Hm.
        destruct (lookup_lt_is_Some_2 rest m' ltac:(lia)) as [b Hb].
        exists b, (<[m' := a]> rest). unfold swap. simpl. rewrite Hb. simpl.
        split; [reflexivity|].
        split; [now apply SelectionFacts.insert_perm|].
        split; [apply length_insert|].
        apply Forall_forall. intros y Hy.
        apply list_elem_of_lookup in Hy as [q Hq].
        destruct (Nat.eq_dec q m') as [->|Hqm].
        + rewrite list_lookup_insert_eq in Hq by lia. injection Hq as <-.
          apply (Hbest 0%nat a b); [now left|reflexivity|exact Hb].
        + rewrite list_lookup_insert_ne in Hq by congruence.
          apply (Hbest (S q) y b); [|exact Hq|exact Hb].
          right. apply in_seq. apply lookup_lt_Some in Hq. lia. }
    destruct Hsw as (c & rest' & Esw & HP & Hl' & HB).
    rewrite Esw.
    assert (Hk' : Forall good rest').
    { assert (Hall : Forall good (c :: rest')) by now rewrite HP.
      now apply Forall_cons in Hall as [_ ?]. }
    destruct (IH (pre ++ [c]) rest' ltac:(lia) Hk') as (suf' & Eo & HP' & HS').
    rewrite length_app in Eo. simpl in Eo.
    rewrite Nat.add_1_r in Eo. rewrite <- app_assoc in Eo. simpl in Eo.
    exists (c :: suf'). split.
    { rewrite Eo. now rewrite <- app_assoc. }
    split; [now rewrite HP', HP|].
    constructor; [exact HS'|]. now rewrite HP'.
Qed.

Lemma selection_sort_ranked arr :
  Forall good arr ->
  exists out, selection_sort getk better arr = Some out /\
    out ≡ₚ arr /\ StronglySorted W out.
Proof.
  intros Hk. unfold selection_sort.
  exact (sel_outer_ranked (length arr) [] arr eq_refl Hk).
Qed.

End Weak.

Lemma higher_irrefl a : higher a a = false.
Proof.
  unfold higher. destruct (a <? a)%float eqn:E; [|reflexivity].
  destruct (FloatOrder.ltb_asym a a E E).
Qed.

Lemma SFcompare_eq_sym x y :
  SFcompare x y = Some Eq -> SFcompare y x = Some Eq.
Proof.
  destruct x as [sx|sx| |sx mx ex], y as [sy|sy| |sy my ey];
    simpl; try congruence;
    try (destruct sx); try (destruct sy); try congruence;
    intros H; FloatOrder.cmp_cases.
Qed.

Lemma leb_nltb x y : (y <=? x)%float = true -> (x <? y)%float = false.
Proof.
  intros Hle. destruct (x <? y)%float eqn:Hlt; [|reflexivity]. exfalso.
  pose proof Hlt as Hlt'.
  rewrite FloatAxioms.leb_spec in Hle. rewrite FloatAxioms.ltb_spec in Hlt.
  unfold SFleb in Hle. unfold SFltb in Hlt.
  destruct (SFcompare (Prim2SF y) (Prim2SF x)) as [[]|] eqn:E1;
    try discriminate.
  - apply SFcompare_eq_sym in E1. rewrite E1 in Hlt. discriminate.
  - apply (FloatOrder.ltb_asym x y Hlt').
    rewrite FloatAxioms.ltb_spec. unfold SFltb. now rewrite E1.
Qed.

Lemma higher_weak_trans a b c :
  is_nan a = false -> is_nan b = false -> is_nan c = false ->
  higher b a = false -> higher c b = false -> higher c a = false.
Proof.
  unfold higher. intros Na Nb Nc H1 H2.
  apply leb_nltb.
  apply (FloatOrder.leb_trans c b a).
  - now apply FloatOrder.nltb_leb.
  - now apply FloatOrder.nltb_leb.
Qed.

Lemma sorted_impl_on {A} (R R' : A -> A -> Prop) (P : A -> Prop) l :
  (forall x y, P x -> P y -> R x y -> R' x y) ->
  Forall P l -> StronglySorted R l -> StronglySorted R' l.
Proof.
  intros Himp HP HS. induction HS as [|x l HS IH Hx]; [constructor|].
  apply Forall_cons in HP as [Px HP].
  constructor; [now apply IH|].
  rewrite Forall_forall in *. intros y Hy. apply Himp; auto.
Qed.

(** A list sorted by [sortBy] on keys that are not NaN. *)
Lemma sortBy_ranked key arr out :
  Forall (keyed (getk_f key) (fun k => is_nan k = false)) arr ->
  sortBy arr key = Some out ->
  out ≡ₚ arr /\ StronglySorted (outranks key) out.
Proof.
  intros Hk E.
  destruct (selection_sort_ranked (getk_f key) higher
              (fun k => is_nan k = false) higher_irrefl
              RenderFacts.higher_trans higher_weak_trans arr Hk)
    as (o & Eo & HP & HS).
  unfold sortBy in E. fold (getk_f key) in E. fold higher in E.
  rewrite Eo in E. injection E as <-.
  split; [exact HP|].
  apply (sorted_impl_on (not_after (getk_f key) higher) (outranks key)
           (keyed (getk_f key) (fun k => is_nan k = false))).
  - intros x y (kx & Ex & Nx) (ky & Ey & Ny) H.
    unfold not_after in H. rewrite Ex, Ey in H.
    exists kx, ky. split; [exact Ex|]. split; [exact Ey|].
    unfold higher in H. now apply FloatOrder.nltb_leb.
  - now rewrite HP.
  - exact HS.
Qed.

Lemma slow_of_keyed em now trs pit :
  pit ≡ₚ map_to_list (paths (aggregate em now trs)) ->
  Forall (keyed (getk_f "p95Ms") (fun k => is_nan k = false)) (slow_of pit).
Proof.
  intros Hp. apply Forall_forall. intros it Hit.
  apply WindowFacts.slow_of_elem in Hit as (path & ag & Hin & _ & ->).
  rewrite Hp in Hin. apply elem_of_map_to_list in Hin.
  destruct (PercentileFacts.samples_capped em now trs path ag Hin)
    as (Hne & _ & Hnn).
  exists (percentile (Lats ag) 95). split; [apply RenderFacts.slow_item_key|].
  unfold no_nan in Hnn. rewrite Forall_forall in Hnn.
  apply Hnn, WindowFacts.percentile_elem, Hne.
Qed.

Lemma errs_of_keyed pit :
  Forall (keyed (getk_f "count") (fun k => is_nan k = false))
         (normalize_count <$> errs_of pit).
Proof.
  apply Forall_forall. intros it Hit.
  apply list_elem_of_fmap in Hit as (it0 & -> & Hit).
  apply WindowFacts.errs_of_elem in Hit as (path & ag & _ & _ & ->).
  exists (float_of_Z (Errs ag)). split; [apply RenderFacts.error_item_key|].
  apply NanFacts.Prim2SF_not_nan_is_nan, NanFacts.float_of_Z_not_nan.
Qed.

(** X25.  The two rankings of a summary are rankings.  Whatever order the
    runtime walks the paths in, and ties included, the slowest-paths list
    is in non-increasing order of p95 and the failing-paths list in
    non-increasing order of error count; and a candidate left out of a
    list (for want of room) never outranks an entry that is in it. *)
Theorem top_lists_ranked (em : string -> option string) (now : Z)
        (trs : list TraceRow) (out : summary) :
  obsSummary em now trs (Some out) ->
  let a := aggregate em now trs in
  (exists rest,
     topSlow out ++ rest ≡ₚ slow_candidates a /\
     StronglySorted (outranks "p95Ms") (topSlow out ++ rest)) /\
  (exists rest,
     topErrors out ++ rest ≡ₚ error_candidates a /\
     StronglySorted (outranks "count") (topErrors out ++ rest)).
Proof.
  intros (pit & bit & Hp & _ & Hout) a. subst a.
  symmetry in Hout.
  apply WindowFacts.render_Some in Hout
    as (_ & _ & (slow & Es & ->) & (errs & Ee & ->)).
  destruct (sortBy_ranked _ _ _ (slow_of_keyed em now trs pit Hp) Es)
    as (P1 & S1).
  destruct (sortBy_ranked _ _ _ (errs_of_keyed pit) Ee) as (P2 & S2).
  split.
  - exists (drop 5 slow). rewrite take_drop. split; [|exact S1].
    rewrite P1, OrderFacts.slow_candidates_spec.
    now apply OrderFacts.slow_of_perm.
  - exists (drop 8 errs). rewrite take_drop. split; [|exact S2].
    rewrite P2, OrderFacts.error_candidates_spec.
    apply fmap_Permutation. now apply OrderFacts.errs_of_perm.
Qed.

Lemma top_lists_ranked_witness :
  exists out, obsSummary no_messages 0 window_tie (Some out) /\
              exists rest,
                topSlow out ++ rest
                ≡ₚ slow_candidates (aggregate no_messages 0 window_tie) /\
                StronglySorted (outranks "p95Ms") (topSlow out ++ rest).
Proof.
  destruct (WindowFacts.obsSummary_exists no_messages 0 window_tie)
    as (out & H).
  exists out. split; [exact H|].
  exact (proj1 (top_lists_ranked no_messages 0 window_tie out H)).
Defined.

End RankFacts.
